(** * Shape-grammar placement engine of [baggage_creator_2d.py]

    A shallow embedding of the raster operations and placement rules of
    [lib/bag_generator/baggage_creator_2d.py] (classes [Object2D] and
    [BaggageImage2D]), with the properties of the design document stated
    and settled against it.

    Conventions.
    - A 2D numpy array is a list of rows, [list (list Z)]; every array the
      program builds is rectangular, which [rect] states where a proof
      needs it.  Cell values are the integer labels the program stores
      (the canvas is allocated by [np.zeros] as floats that only ever hold
      integral labels).
    - The canvas [ws_bag] is three-dimensional in the program; every rule
      reads and writes the single slice [ws_bag[:, :, slice_no]], which is
      the [grid] modelled here.
    - Python slicing clamps (and wraps negative bounds), it never raises;
      integer and fancy indexing raise [IndexError] out of range.  Both are
      written out below.
    - A Python float is an IEEE 754 binary64 number; its arithmetic is the
      Standard Library's [SpecFloat] at 53 bits of mantissa, rounded to
      nearest even. *)

From Stdlib Require Import ZArith Lia SpecFloat.
From stdpp Require Import base tactics option list.

Set Default Proof Using "Type".

(** ** Arrays and Python indexing *)

Abbreviation grid := (list (list Z)).

(** [a.shape] of a 2D array (a list with no row has no columns). *)
Definition shape (g : grid) : nat * nat :=
  (length g, from_option length 0%nat (head g)).

Definition rect (w : nat) (g : grid) : Prop := Forall (λ row, length row = w) g.

(** [a[r, c]]: [None] stands for the [IndexError] of an index out of range. *)
Definition cell (g : grid) (r c : nat) : option Z := g !! r ≫= (.!! c).

(** Normalisation of one slice bound against a dimension of length [n]
    (CPython's [PySlice_AdjustIndices]): a negative bound counts from the
    end, then the bound is clamped into [0, n]. *)
Definition slice_index (n : nat) (i : Z) : nat :=
  Z.to_nat (if (i <? 0)%Z then Z.max 0 (i + Z.of_nat n) else Z.min i (Z.of_nat n)).

(** [l[start:stop]], either bound possibly omitted. *)
Definition py_slice {A} (l : list A) (start stop : option Z) : list A :=
  let n := length l in
  let lo := from_option (slice_index n) 0%nat start in
  let hi := from_option (slice_index n) n stop in
  take (hi - lo) (drop lo l).

(** [a[r0:r1, c0:c1]]. *)
Definition slice2 (g : grid) (r0 r1 c0 c1 : option Z) : grid :=
  (λ row, py_slice row c0 c1) <$> py_slice g r0 r1.

(** [np.where(a)] of a 2D array: the indices of the nonzero cells in
    row-major order. *)
Fixpoint nz_row (c : nat) (row : list Z) : list nat :=
  match row with
  | [] => []
  | v :: t => if decide (v = 0%Z) then nz_row (S c) t else c :: nz_row (S c) t
  end.

Fixpoint nz_from (r : nat) (g : grid) : list (nat * nat) :=
  match g with
  | [] => []
  | row :: t => ((λ c, (r, c)) <$> nz_row 0 row) ++ nz_from (S r) t
  end.

Definition np_where (g : grid) : list (nat * nat) := nz_from 0 g.

(** [a[r, c] = v] on an array: [IndexError] out of range. *)
Definition set_cell (g : grid) (r c : nat) (v : Z) : option grid :=
  row ← g !! r;
  if decide (c < length row) then Some (<[r := <[c := v]> row]> g) else None.

(** [view[idx] = src[idx]] where [view] is the window of [g] that starts at
    [(lo0, lo1)] and has shape [vshape], and [idx] is a pair of index arrays
    as [np.where] returns them.  Each index is checked against the shape of
    the view and of [src]; the write goes through the view to [g]. *)
Definition assign_one (lo0 lo1 : nat) (vshape : nat * nat) (src : grid)
    (acc : option grid) (rc : nat * nat) : option grid :=
  g ← acc;
  v ← cell src rc.1 rc.2;
  if decide (rc.1 < vshape.1 ∧ rc.2 < vshape.2)
  then set_cell g (lo0 + rc.1) (lo1 + rc.2) v
  else None.

Definition view_assign (g : grid) (lo0 lo1 : nat) (vshape : nat * nat)
    (idx : list (nat * nat)) (src : grid) : option grid :=
  foldl (assign_one lo0 lo1 vshape src) (Some g) idx.

(** [a[idx] = v] for a pair of index arrays [idx] and a scalar [v]: an
    index out of range raises and leaves [a] as it was. *)
Definition assign_const (g : grid) (idx : list (nat * nat)) (v : Z) : option grid :=
  foldl (λ acc rc, g' ← acc; set_cell g' rc.1 rc.2 v) (Some g) idx.

(** ** Python floats *)

(** The binary64 numbers: [float(z)] of an integer, [x - y], [x * y] and
    [x / y], each rounded to nearest even. *)
Definition float : Type := spec_float.

Definition float_of_int (z : Z) : float := binary_normalize 53 1024 z 0 false.
Definition float_sub : float → float → float := SFsub 53 1024.
Definition float_mul : float → float → float := SFmul 53 1024.
Definition float_div : float → float → float := SFdiv 53 1024.

(** [int(x)]: the integer part of [x], rounded toward zero; [ValueError]
    on a NaN and [OverflowError] on an infinity. *)
Definition int_of_float (x : float) : option Z :=
  match x with
  | S754_zero _ => Some 0%Z
  | S754_finite s m e =>
      Some (cond_Zopp s (match e with
                         | Zneg p => Z.shiftr (Zpos m) (Zpos p)
                         | _ => Z.shiftl (Zpos m) e
                         end))
  | S754_infinity _ | S754_nan => None
  end.

(** The values an [int64] cell holds. *)
Definition int64 (v : Z) : Prop := (- 2 ^ 63 ≤ v < 2 ^ 63)%Z.

(** ** Objects and the bag *)

Inductive shape_kind := ShE | ShB | ShC | ShY | ShS | ShM.

(** The liquid parameters of a container ([obj_dict['lqd_param']]): the
    fill level is a Python float, the label of the liquid a Python int. *)
Record LiquidParam := {
  cntr_thickness : Z;
  lqd_level : float;
  lqd_label : Z;
}.

(** The attributes of an [Object2D] instance that the placement rules use.
    [lqd_param] is [Some] exactly when [lqd_flag] is set. *)
Record Object2D := {
  obj_shape : shape_kind;
  label : Z;
  data : grid;
  dim : Z * Z;
  pose : Z * Z;
  curve_pts : (Z * Z) * (Z * Z);
  axes : Z * Z;
  lqd_param : option LiquidParam;
}.

Definition set_pose (o : Object2D) (p : Z * Z) : Object2D :=
  {| obj_shape := obj_shape o; label := label o; data := data o; dim := dim o;
     pose := p; curve_pts := curve_pts o; axes := axes o; lqd_param := lqd_param o |}.

Definition set_data (o : Object2D) (d : grid) : Object2D :=
  {| obj_shape := obj_shape o; label := label o; data := d; dim := dim o;
     pose := pose o; curve_pts := curve_pts o; axes := axes o; lqd_param := lqd_param o |}.

Definition set_dim (o : Object2D) (d : Z * Z) : Object2D :=
  {| obj_shape := obj_shape o; label := label o; data := data o; dim := d;
     pose := pose o; curve_pts := curve_pts o; axes := axes o; lqd_param := lqd_param o |}.

Definition set_curve_pts (o : Object2D) (c : (Z * Z) * (Z * Z)) : Object2D :=
  {| obj_shape := obj_shape o; label := label o; data := data o; dim := dim o;
     pose := pose o; curve_pts := c; axes := axes o; lqd_param := lqd_param o |}.

(** *** [BaggageImage2D.place_object_in_bag]

    [s_shape] is the shape of the canvas window that starts at the pose;
    [b_data] is the object's raster cut to that shape; its nonzero cells
    are written through the window. *)
Definition place_object_in_bag (ws_bag : grid) (bag_obj : Object2D) : option grid :=
  let '(p0, p1) := pose bag_obj in
  let '(h, w) := shape (data bag_obj) in
  let r0 := Some p0 in let r1 := Some (p0 + Z.of_nat h)%Z in
  let c0 := Some p1 in let c1 := Some (p1 + Z.of_nat w)%Z in
  let s_shape := shape (slice2 ws_bag r0 r1 c0 c1) in
  let b_data := slice2 (data bag_obj) None (Some (Z.of_nat s_shape.1))
                       None (Some (Z.of_nat s_shape.2)) in
  let nz := np_where b_data in
  view_assign ws_bag (slice_index (length ws_bag) p0)
              (slice_index (shape ws_bag).2 p1) s_shape nz b_data.

(** The cell an object writes at canvas position [(i, j)], if any: the
    window is the canvas region selected by the two slices of the pose,
    and only the object's nonzero cells inside it are written. *)
Definition written (ws_bag : grid) (bag_obj : Object2D) (i j : nat) : option Z :=
  let '(p0, p1) := pose bag_obj in
  let '(h, w) := shape (data bag_obj) in
  let lo0 := slice_index (length ws_bag) p0 in
  let hi0 := slice_index (length ws_bag) (p0 + Z.of_nat h) in
  let lo1 := slice_index (shape ws_bag).2 p1 in
  let hi1 := slice_index (shape ws_bag).2 (p1 + Z.of_nat w) in
  if decide (lo0 ≤ i < hi0 ∧ lo1 ≤ j < hi1) then
    match cell (data bag_obj) (i - lo0) (j - lo1) with
    | Some v => if decide (v = 0%Z) then None else Some v
    | None => None
    end
  else None.

(** ** Indexing lemmas *)

Lemma slice_index_le n i : slice_index n i ≤ n.
Proof. unfold slice_index. destruct (Z.ltb_spec i 0); lia. Qed.

Lemma slice_index_nonneg n i : (0 ≤ i)%Z → slice_index n i = Z.to_nat i `min` n.
Proof. intros Hi. unfold slice_index. destruct (Z.ltb_spec i 0); lia. Qed.

Lemma length_py_slice {A} (l : list A) a b :
  length (py_slice l (Some a) (Some b)) =
    slice_index (length l) b - slice_index (length l) a.
Proof.
  unfold py_slice; simpl. rewrite length_take, length_drop.
  pose proof (slice_index_le (length l) b). lia.
Qed.

Lemma lookup_py_slice {A} (l : list A) a b i :
  i < slice_index (length l) b - slice_index (length l) a →
  py_slice l (Some a) (Some b) !! i = l !! (slice_index (length l) a + i).
Proof.
  intros Hi. unfold py_slice; simpl.
  rewrite lookup_take_lt by lia. apply lookup_drop.
Qed.

Lemma lookup_py_slice_to {A} (l : list A) (n i : nat) :
  py_slice l None (Some (Z.of_nat n)) !! i = if decide (i < n) then l !! i else None.
Proof.
  unfold py_slice; simpl. rewrite drop_0, Nat.sub_0_r.
  rewrite slice_index_nonneg by lia. rewrite Nat2Z.id.
  case_decide.
  - destruct (decide (i < length l)).
    + rewrite lookup_take_lt by lia. done.
    + rewrite (lookup_ge_None_2 l i) by lia. apply lookup_ge_None_2.
      rewrite length_take. lia.
  - apply lookup_ge_None_2. rewrite length_take. lia.
Qed.

Lemma rect_lookup w g r row : rect w g → g !! r = Some row → length row = w.
Proof. intros Hg Hr. by eapply (Forall_lookup_1 _ g r row) in Hg. Qed.

Lemma shape_rect w g : rect w g → g ≠ [] → (shape g).2 = w.
Proof. destruct g as [|row g]; [done|]. intros Hg _. simpl. by inversion Hg. Qed.

Lemma cell_Some g r c v :
  cell g r c = Some v ↔ ∃ row, g !! r = Some row ∧ row !! c = Some v.
Proof.
  unfold cell. destruct (g !! r) as [row|]; simpl; [|naive_solver].
  split; [eauto|]. by intros (? & [= <-] & ?).
Qed.

Lemma elem_of_nz_row c0 row c :
  c ∈ nz_row c0 row ↔ ∃ v, c0 ≤ c ∧ row !! (c - c0) = Some v ∧ v ≠ 0%Z.
Proof.
  revert c0. induction row as [|v row IH]; intros c0; simpl.
  - rewrite elem_of_nil. naive_solver.
  - assert (Hstep : (∃ v', S c0 ≤ c ∧ row !! (c - S c0) = Some v' ∧ v' ≠ 0%Z)
              ↔ (∃ v', c0 ≤ c ∧ c ≠ c0 ∧ (v :: row) !! (c - c0) = Some v' ∧ v' ≠ 0%Z)).
    { split; intros (v' & H1 & H2).
      - exists v'. split; [lia|]. split; [lia|].
        replace (c - c0) with (S (c - S c0)) by lia. done.
      - destruct H2 as (Hne & H2 & H3). exists v'. split; [lia|].
        replace (c - c0) with (S (c - S c0)) in H2 by lia. done. }
    case_decide as Hv.
    + rewrite IH, Hstep. split.
      * intros (v' & ? & ? & ?). eauto.
      * intros (v' & Hle & Hl & Hv'). exists v'. split; [done|]. split; [|done].
        intros ->. rewrite Nat.sub_diag in Hl. simpl in Hl. congruence.
    + rewrite elem_of_cons, IH, Hstep. split.
      * intros [->|(v' & ? & ? & ?)]; [|eauto].
        exists v. rewrite Nat.sub_diag. done.
      * intros (v' & Hle & Hl & Hv'). destruct (decide (c = c0)); [by left|].
        right. eauto.
Qed.

Lemma elem_of_nz_from r0 g r c :
  (r, c) ∈ nz_from r0 g ↔ ∃ v, r0 ≤ r ∧ cell g (r - r0) c = Some v ∧ v ≠ 0%Z.
Proof.
  revert r0. induction g as [|row g IH]; intros r0; simpl.
  - rewrite elem_of_nil. unfold cell. split; [done|].
    intros (v & _ & Hc & _). done.
  - rewrite elem_of_app, list_elem_of_fmap, IH. split.
    + intros [(c' & [= -> ->] & Hc)|(v & Hle & Hc & Hv)].
      * apply elem_of_nz_row in Hc as (v & _ & Hc & Hv).
        exists v. rewrite Nat.sub_diag, Nat.sub_0_r in *. done.
      * exists v. split; [lia|]. replace (r - r0) with (S (r - S r0)) by lia. done.
    + intros (v & Hle & Hc & Hv). destruct (decide (r = r0)) as [->|Hne].
      * left. exists c. split; [done|]. apply elem_of_nz_row. exists v.
        rewrite Nat.sub_diag, Nat.sub_0_r in *. split; [lia|done].
      * right. exists v. split; [lia|].
        replace (r - r0) with (S (r - S r0)) in Hc by lia. done.
Qed.

Lemma elem_of_np_where g r c :
  (r, c) ∈ np_where g ↔ ∃ v, cell g r c = Some v ∧ v ≠ 0%Z.
Proof.
  unfold np_where. rewrite elem_of_nz_from. rewrite Nat.sub_0_r.
  split; [intros (v & _ & ?); eauto | intros (v & ?); exists v; split; [lia|done]].
Qed.

Lemma cell_slice2_to g (n m r c : nat) :
  cell (slice2 g None (Some (Z.of_nat n)) None (Some (Z.of_nat m))) r c =
    if decide (r < n ∧ c < m) then cell g r c else None.
Proof.
  unfold cell, slice2.
  rewrite list_lookup_fmap, lookup_py_slice_to.
  destruct (decide (r < n)); simpl.
  - destruct (g !! r) as [row|]; simpl.
    + rewrite lookup_py_slice_to. repeat case_decide; try done; lia.
    + by case_decide.
  - rewrite decide_False by lia. done.
Qed.

Lemma set_cell_spec W g r c v :
  rect W g → r < length g → c < W →
  ∃ g', set_cell g r c v = Some g' ∧ length g' = length g ∧ rect W g' ∧
        ∀ i j, cell g' i j = if decide (i = r ∧ j = c) then Some v else cell g i j.
Proof.
  intros Hg Hr Hc. destruct (lookup_lt_is_Some_2 g r Hr) as [row Hrow].
  pose proof (rect_lookup _ _ _ _ Hg Hrow) as Hlen.
  exists (<[r := <[c := v]> row]> g). unfold set_cell. rewrite Hrow; simpl.
  rewrite decide_True by lia. split; [done|]. split; [by rewrite length_insert|].
  split.
  - apply Forall_insert; [done|]. by rewrite length_insert.
  - intros i j. unfold cell. destruct (decide (i = r)) as [->|Hne].
    + rewrite list_lookup_insert_eq by done. simpl. rewrite Hrow; simpl.
      destruct (decide (j = c)) as [->|Hne].
      * rewrite decide_True by done. apply list_lookup_insert_eq. lia.
      * rewrite decide_False by naive_solver. by apply list_lookup_insert_ne.
    + rewrite list_lookup_insert_ne by done. rewrite decide_False by naive_solver. done.
Qed.

Lemma view_assign_spec W lo0 lo1 vs src idx g :
  rect W g → lo0 + vs.1 ≤ length g → lo1 + vs.2 ≤ W →
  (∀ rc, rc ∈ idx → is_Some (cell src rc.1 rc.2) ∧ rc.1 < vs.1 ∧ rc.2 < vs.2) →
  ∃ g', view_assign g lo0 lo1 vs idx src = Some g' ∧ length g' = length g ∧ rect W g' ∧
        ∀ i j, cell g' i j =
          if decide (lo0 ≤ i ∧ lo1 ≤ j ∧ (i - lo0, j - lo1) ∈ idx)
          then cell src (i - lo0) (j - lo1) else cell g i j.
Proof.
  unfold view_assign. revert g.
  induction idx as [|[r c] idx IH]; intros g Hg H0 H1 Hidx; simpl.
  - exists g. repeat split; try done. intros i j.
    rewrite decide_False; [done|]. rewrite elem_of_nil. tauto.
  - destruct (Hidx (r, c)) as ([v Hv] & Hr & Hc); [left|]. simpl in *.
    rewrite Hv; simpl. rewrite decide_True by done.
    destruct (set_cell_spec W g (lo0 + r) (lo1 + c) v) as (g1 & -> & Hlen1 & Hg1 & Hcell1);
      [done|lia|lia|].
    destruct (IH g1) as (g' & -> & Hlen & Hg' & Hcell); [done|lia|lia|..].
    { intros rc Hrc. apply Hidx. by right. }
    exists g'. split; [done|]. split; [lia|]. split; [done|].
    intros i j. rewrite Hcell, Hcell1.
    destruct (decide (lo0 ≤ i ∧ lo1 ≤ j ∧ (i - lo0, j - lo1) ∈ idx)) as [Hin|Hnin].
    + rewrite decide_True; [done|]. destruct Hin as (? & ? & ?). repeat split; try done. by right.
    + destruct (decide (i = lo0 + r ∧ j = lo1 + c)) as [[-> ->]|Hne].
      * rewrite decide_True.
        -- replace (lo0 + r - lo0) with r by lia. replace (lo1 + c - lo1) with c by lia. done.
        -- split; [lia|]. split; [lia|].
           replace (lo0 + r - lo0) with r by lia. replace (lo1 + c - lo1) with c by lia. left.
      * rewrite decide_False; [done|]. intros (Hi & Hj & Hin).
        apply elem_of_cons in Hin as [[= Hr' Hc']|Hin]; [|tauto].
        apply Hne. lia.
Qed.

Lemma shape_window ws p0 h p1 w W :
  rect W ws →
  let n := length ws in let m := (shape ws).2 in
  let s := shape (slice2 ws (Some p0) (Some (p0 + Z.of_nat h)%Z)
                         (Some p1) (Some (p1 + Z.of_nat w)%Z)) in
  s.1 = slice_index n (p0 + Z.of_nat h) - slice_index n p0 ∧
  (s.1 ≠ 0 → s.2 = slice_index m (p1 + Z.of_nat w) - slice_index m p1) ∧
  (s.1 = 0 → s.2 = 0) ∧
  (ws ≠ [] → m = W).
Proof.
  intros Hws n m s.
  assert (Hs1 : s.1 = slice_index n (p0 + Z.of_nat h) - slice_index n p0).
  { unfold s, shape, slice2; simpl. by rewrite length_fmap, length_py_slice. }
  split; [done|].
  assert (Hm : ws ≠ [] → m = W) by (intros; by apply shape_rect).
  split; [|split; [|done]].
  - intros Hne. rewrite Hs1 in Hne.
    assert (Hlk : py_slice ws (Some p0) (Some (p0 + Z.of_nat h)%Z) !! 0
                  = ws !! (slice_index n p0 + 0)) by (apply lookup_py_slice; fold n; lia).
    pose proof (slice_index_le n (p0 + Z.of_nat h)) as Hle.
    destruct (lookup_lt_is_Some_2 ws (slice_index n p0 + 0)) as [row Hrow]; [fold n; lia|].
    rewrite Hrow in Hlk. unfold s, shape, slice2; simpl.
    destruct (py_slice ws (Some p0) (Some (p0 + Z.of_nat h)%Z)) as [|row' rest]; [done|].
    simpl in Hlk. injection Hlk as ->. simpl. rewrite length_py_slice.
    pose proof (rect_lookup _ _ _ _ Hws Hrow) as Hlen.
    rewrite Hlen, Hm; [done|]. intros ->. done.
  - intros Hz. unfold s, shape, slice2 in *; simpl in *.
    rewrite length_fmap in Hz.
    destruct (py_slice ws (Some p0) (Some (p0 + Z.of_nat h)%Z)); [done|]. done.
Qed.

(** What a commit does, cell by cell: it never raises, the canvas keeps
    its shape, and a cell holds the object's value where the object writes
    and its old value elsewhere. *)
Lemma place_object_in_bag_cells W ws_bag bag_obj :
  rect W ws_bag →
  ∃ ws', place_object_in_bag ws_bag bag_obj = Some ws' ∧
         length ws' = length ws_bag ∧ rect W ws' ∧
         ∀ i j, cell ws' i j =
           match written ws_bag bag_obj i j with
           | Some v => Some v
           | None => cell ws_bag i j
           end.
Proof.
  intros Hws. unfold place_object_in_bag, written.
  destruct (pose bag_obj) as [p0 p1].
  destruct (shape (data bag_obj)) as [h w] eqn:Hshape.
  cbv zeta.
  destruct (shape_window ws_bag p0 h p1 w W Hws) as (Hs1 & Hs2 & Hs0 & Hm).
  set (s := shape (slice2 ws_bag (Some p0) (Some (p0 + Z.of_nat h)%Z)
                          (Some p1) (Some (p1 + Z.of_nat w)%Z))) in *.
  set (n := length ws_bag) in *. set (m := (shape ws_bag).2) in *.
  pose proof (slice_index_le n p0). pose proof (slice_index_le n (p0 + Z.of_nat h)).
  pose proof (slice_index_le m p1). pose proof (slice_index_le m (p1 + Z.of_nat w)).
  assert (HmW : m ≤ W ∨ s.1 = 0).
  { destruct ws_bag as [|row ws]; [right; subst n; simpl in *; lia|].
    left. rewrite Hm; done. }
  assert (HmW' : slice_index m p1 + s.2 ≤ W).
  { destruct (decide (s.1 = 0)) as [Hz|Hnz].
    - rewrite (Hs0 Hz). destruct ws_bag as [|row ws].
      + subst m. simpl in *. lia.
      + rewrite Hm in * by done. lia.
    - rewrite (Hs2 Hnz). destruct HmW; [lia|done]. }
  destruct (view_assign_spec W (slice_index n p0) (slice_index m p1) s
              (slice2 (data bag_obj) None (Some (Z.of_nat s.1)) None (Some (Z.of_nat s.2)))
              (np_where (slice2 (data bag_obj) None (Some (Z.of_nat s.1))
                                None (Some (Z.of_nat s.2))))
              ws_bag) as (ws' & Hrun & Hlen & Hrect & Hcell); [done|fold n; lia|done|..].
  { intros [r c] Hrc. apply elem_of_np_where in Hrc as (v & Hv & _). simpl.
    split; [by exists v|]. rewrite cell_slice2_to in Hv. by case_decide. }
  exists ws'. split; [done|]. split; [done|]. split; [done|].
  intros i j. rewrite Hcell. rewrite cell_slice2_to.
  destruct (decide (slice_index n p0 ≤ i ∧ slice_index m p1 ≤ j ∧ _)) as [(Hi & Hj & Hin)|Hnin].
  - apply elem_of_np_where in Hin as (v & Hv & Hnz). rewrite cell_slice2_to in Hv.
    case_decide as Hlt; [|done]. destruct Hlt as [Hlt0 Hlt1].
    rewrite Hs2 in Hlt1 by lia. rewrite decide_True by lia.
    rewrite Hv. by rewrite decide_False.
  - case_decide as Hwin; [|done].
    destruct (cell (data bag_obj) _ _) as [v|] eqn:Hv; [|done].
    case_decide as Hvz; [done|]. exfalso. apply Hnin.
    split; [lia|]. split; [lia|]. apply elem_of_np_where. exists v.
    split; [|done]. rewrite cell_slice2_to. rewrite decide_True; [done|].
    rewrite Hs2 by lia. lia.
Qed.

Lemma written_nonzero ws_bag bag_obj i j v :
  written ws_bag bag_obj i j = Some v → v ≠ 0%Z.
Proof.
  unfold written. destruct (pose bag_obj), (shape (data bag_obj)). cbv zeta.
  case_decide; [|done]. destruct (cell _ _ _); [|done]. case_decide; congruence.
Qed.

(** With a pose inside the first quadrant the window starts at the pose,
    and [written] reads the object's raster at the offset from the pose. *)
Lemma written_nonneg wd ws_bag bag_obj (r c : nat) :
  rect wd (data bag_obj) →
  (0 ≤ (pose bag_obj).1)%Z → (0 ≤ (pose bag_obj).2)%Z →
  written ws_bag bag_obj (Z.to_nat (pose bag_obj).1 + r) (Z.to_nat (pose bag_obj).2 + c) =
    match cell (data bag_obj) r c with
    | Some v =>
        if decide (v ≠ 0%Z ∧ Z.to_nat (pose bag_obj).1 + r < length ws_bag
                   ∧ Z.to_nat (pose bag_obj).2 + c < (shape ws_bag).2)
        then Some v else None
    | None => None
    end.
Proof.
  intros Hd. unfold written. destruct (pose bag_obj) as [p0 p1]; cbn [fst snd].
  generalize (shape ws_bag).2 as m. intros m.
  destruct (shape (data bag_obj)) as [h w] eqn:Hsh. intros H0 H1. cbv zeta.
  rewrite !slice_index_nonneg by lia.
  destruct (cell (data bag_obj) r c) as [v|] eqn:Hv.
  - apply cell_Some in Hv as Hv'. destruct Hv' as (row & Hrow & Hc).
    apply lookup_lt_Some in Hrow as Hr. apply lookup_lt_Some in Hc as Hc'.
    rewrite (rect_lookup _ _ _ _ Hd Hrow) in Hc'.
    assert (h = length (data bag_obj) ∧ w = wd) as [-> ->].
    { unfold shape in Hsh. injection Hsh as <- <-. split; [done|].
      apply (shape_rect wd (data bag_obj)); [done|]. intros Hnil. by rewrite Hnil in Hrow. }
    case_decide as Hwin.
    + replace (Z.to_nat p0 + r - Z.to_nat p0 `min` length ws_bag) with r by lia.
      replace (Z.to_nat p1 + c - Z.to_nat p1 `min` m) with c by lia.
      rewrite Hv. repeat case_decide; try done; exfalso; naive_solver lia.
    + case_decide as Hin; [|done]. exfalso. apply Hwin. lia.
  - case_decide as Hwin; [|done].
    replace (Z.to_nat p0 + r - Z.to_nat p0 `min` length ws_bag) with r by lia.
    replace (Z.to_nat p1 + c - Z.to_nat p1 `min` m) with c by lia.
    by rewrite Hv.
Qed.

Definition mk_object (k : shape_kind) (lbl : Z) (d : grid) (dm ps : Z * Z) : Object2D :=
  {| obj_shape := k; label := lbl; data := d; dim := dm; pose := ps;
     curve_pts := ((0, 0), (0, 0))%Z; axes := (0, 0)%Z; lqd_param := None |}.

(** C1, as stated, fails: a commit writes the object's foreground over
    whatever the canvas holds.  Here a one-cell object with label 7 is
    committed onto a cell that already holds label 5. *)
Lemma place_object_in_bag_overwrites_label :
  ∃ ws_bag bag_obj ws' i j (v : Z),
    place_object_in_bag ws_bag bag_obj = Some ws' ∧
    cell ws_bag i j = Some v ∧ v ≠ 0%Z ∧ cell ws' i j ≠ Some v.
Proof.
  exists [[5%Z]], (mk_object ShB 7 [[7%Z]] (1, 1)%Z (0, 0)%Z), [[7%Z]], 0, 0, 5%Z.
  repeat split; done.
Qed.

(** C1 (amended): a commit writes exactly the object's nonzero cells that
    fall in the canvas window of its pose, over background and over labels
    placed before alike.  A cell the object does not write keeps its value;
    a cell it writes takes the object's nonzero value; so no cell that held
    a label is ever reset to background. *)
Theorem place_object_in_bag_writes_foreground W ws_bag bag_obj :
  rect W ws_bag →
  ∃ ws', place_object_in_bag ws_bag bag_obj = Some ws' ∧
    ∀ i j,
      (written ws_bag bag_obj i j = None → cell ws' i j = cell ws_bag i j) ∧
      (∀ v, written ws_bag bag_obj i j = Some v → v ≠ 0%Z ∧ cell ws' i j = Some v) ∧
      (∀ u, cell ws_bag i j = Some u → u ≠ 0%Z →
            ∃ u', cell ws' i j = Some u' ∧ u' ≠ 0%Z).
Proof.
  intros Hws.
  destruct (place_object_in_bag_cells W ws_bag bag_obj Hws) as (ws' & Hrun & _ & _ & Hcell).
  exists ws'. split; [done|]. intros i j. rewrite Hcell.
  destruct (written ws_bag bag_obj i j) as [v|] eqn:Hw.
  - pose proof (written_nonzero _ _ _ _ _ Hw) as Hv.
    split; [done|]. split; [by intros ? [= <-]|]. intros u _ _. eauto.
  - split; [done|]. split; [done|]. intros u Hu Hnz. eauto.
Qed.

Lemma place_object_in_bag_writes_foreground_witness :
  ∃ ws', place_object_in_bag [[5; 0]; [0; 0]]%Z
           (mk_object ShB 7 [[7; 7]]%Z (1, 2)%Z (1, 0)%Z) = Some ws' ∧
    ∀ i j,
      (written [[5; 0]; [0; 0]]%Z (mk_object ShB 7 [[7; 7]]%Z (1, 2)%Z (1, 0)%Z) i j = None →
         cell ws' i j = cell [[5; 0]; [0; 0]]%Z i j) ∧
      (∀ v, written [[5; 0]; [0; 0]]%Z (mk_object ShB 7 [[7; 7]]%Z (1, 2)%Z (1, 0)%Z) i j = Some v →
         v ≠ 0%Z ∧ cell ws' i j = Some v) ∧
      (∀ u, cell [[5; 0]; [0; 0]]%Z i j = Some u → u ≠ 0%Z →
            ∃ u', cell ws' i j = Some u' ∧ u' ≠ 0%Z).
Proof.
  apply (place_object_in_bag_writes_foreground 2).
  repeat constructor.
Defined.

(** C10, as stated, fails for a pose with a negative coordinate.  The
    window of the commit is a slice, and a slice reads a negative bound as
    an offset from the far edge.  A 2 x 2 object at the pose (-1, 0) hangs
    over the top edge with its second row on row 0 of the canvas: the
    window [-1:1] is empty and that row is not written.  At the pose
    (-3, -3) no cell of the object is inside the canvas: the window is
    [-3:-1] on both axes and the whole object is written on the rows and
    columns 1 and 2. *)
Lemma place_object_in_bag_wraps_negative_pose :
  place_object_in_bag [[0; 0; 0; 0]; [0; 0; 0; 0]; [0; 0; 0; 0]; [0; 0; 0; 0]]%Z
      (mk_object ShB 7 [[7; 7]; [7; 7]]%Z (2, 2)%Z (-1, 0)%Z)
    = Some [[0; 0; 0; 0]; [0; 0; 0; 0]; [0; 0; 0; 0]; [0; 0; 0; 0]]%Z ∧
  place_object_in_bag [[0; 0; 0; 0]; [0; 0; 0; 0]; [0; 0; 0; 0]; [0; 0; 0; 0]]%Z
      (mk_object ShB 7 [[7; 7]; [7; 7]]%Z (2, 2)%Z (-3, -3)%Z)
    = Some [[0; 0; 0; 0]; [0; 7; 7; 0]; [0; 7; 7; 0]; [0; 0; 0; 0]]%Z.
Proof. split; vm_compute; reflexivity. Qed.

(** C10 (amended): a commit never indexes outside the canvas, and what it
    writes is fixed by the window of its two slices.  For every pose and
    every raster it returns normally and the canvas keeps its shape.  The
    window is the rows from [lo0] to [hi0] and the columns from [lo1] to
    [hi1] of the canvas; the nonzero cell of the raster at the offset of a
    window cell from [(lo0, lo1)] is written there, and nothing else
    changes.  With a pose coordinate that is not negative the window
    starts at the pose and is cut at the far edge of the canvas: the
    raster is truncated, the in-bounds part is written, and no cell above
    or left of the pose changes.  A negative pose coordinate is counted
    from the far edge: an object that straddles the top (or left) edge and
    is no taller (wider) than the canvas has an empty window and nothing
    of it is written, and an object that lies wholly before the edge is
    written at its pose plus the size of the canvas. *)
Theorem place_object_in_bag_truncates W wd ws_bag bag_obj :
  rect W ws_bag → rect wd (data bag_obj) →
  let n := length ws_bag in
  let m := (shape ws_bag).2 in
  let h := (shape (data bag_obj)).1 in
  let w := (shape (data bag_obj)).2 in
  let lo0 := slice_index n (pose bag_obj).1 in
  let hi0 := slice_index n ((pose bag_obj).1 + Z.of_nat h) in
  let lo1 := slice_index m (pose bag_obj).2 in
  let hi1 := slice_index m ((pose bag_obj).2 + Z.of_nat w) in
  ∃ ws', place_object_in_bag ws_bag bag_obj = Some ws' ∧
    shape ws' = shape ws_bag ∧
    (hi0 ≤ n ∧ hi1 ≤ m) ∧
    (∀ i j, cell ws' i j =
       if decide (lo0 ≤ i < hi0 ∧ lo1 ≤ j < hi1) then
         match cell (data bag_obj) (i - lo0) (j - lo1) with
         | Some v => if decide (v = 0%Z) then cell ws_bag i j else Some v
         | None => cell ws_bag i j
         end
       else cell ws_bag i j) ∧
    ((0 ≤ (pose bag_obj).1)%Z →
       lo0 = Z.to_nat (pose bag_obj).1 `min` n ∧
       hi0 = (Z.to_nat (pose bag_obj).1 + h) `min` n) ∧
    ((0 ≤ (pose bag_obj).2)%Z →
       lo1 = Z.to_nat (pose bag_obj).2 `min` m ∧
       hi1 = (Z.to_nat (pose bag_obj).2 + w) `min` m) ∧
    ((0 ≤ (pose bag_obj).1)%Z → (0 ≤ (pose bag_obj).2)%Z →
     let p0 := Z.to_nat (pose bag_obj).1 in
     let p1 := Z.to_nat (pose bag_obj).2 in
     (∀ r c, cell ws' (p0 + r) (p1 + c) =
        match cell (data bag_obj) r c with
        | Some v =>
            if decide (v ≠ 0%Z ∧ p0 + r < length ws_bag ∧ p1 + c < (shape ws_bag).2)
            then Some v else cell ws_bag (p0 + r) (p1 + c)
        | None => cell ws_bag (p0 + r) (p1 + c)
        end) ∧
     (∀ i j, i < p0 ∨ j < p1 → cell ws' i j = cell ws_bag i j)) ∧
    (((pose bag_obj).1 < 0 ≤ (pose bag_obj).1 + Z.of_nat h)%Z ∧ h ≤ n ∨
     ((pose bag_obj).2 < 0 ≤ (pose bag_obj).2 + Z.of_nat w)%Z ∧ w ≤ m →
     ∀ i j, cell ws' i j = cell ws_bag i j) ∧
    ((- Z.of_nat n ≤ (pose bag_obj).1)%Z → ((pose bag_obj).1 + Z.of_nat h < 0)%Z →
       lo0 = Z.to_nat ((pose bag_obj).1 + Z.of_nat n) ∧ hi0 = lo0 + h) ∧
    ((- Z.of_nat m ≤ (pose bag_obj).2)%Z → ((pose bag_obj).2 + Z.of_nat w < 0)%Z →
       lo1 = Z.to_nat ((pose bag_obj).2 + Z.of_nat m) ∧ hi1 = lo1 + w).
Proof.
  intros Hws Hd n m h w lo0 hi0 lo1 hi1.
  destruct (place_object_in_bag_cells W ws_bag bag_obj Hws)
    as (ws' & Hrun & Hlen & Hrect & Hcell).
  assert (Hwindow : ∀ i j, cell ws' i j =
            if decide (lo0 ≤ i < hi0 ∧ lo1 ≤ j < hi1) then
              match cell (data bag_obj) (i - lo0) (j - lo1) with
              | Some v => if decide (v = 0%Z) then cell ws_bag i j else Some v
              | None => cell ws_bag i j
              end
            else cell ws_bag i j).
  { intros i j. rewrite Hcell. unfold written.
    subst lo0 hi0 lo1 hi1 h w n m.
    destruct (pose bag_obj) as [q0 q1], (shape (data bag_obj)) as [h w].
    cbn [fst snd]. cbv zeta. case_decide; [|done].
    destruct (cell (data bag_obj) _ _); [|done]. by case_decide. }
  exists ws'. split; [done|]. split.
  { unfold shape. rewrite Hlen. f_equal.
    destruct ws' as [|row' ws'], ws_bag as [|row ws]; try done.
    simpl. inversion Hrect; inversion Hws; congruence. }
  split; [split; apply slice_index_le|]. split; [exact Hwindow|].
  split; [|split; [|split; [|split; [|split]]]].
  - intros H0. subst lo0 hi0. rewrite !slice_index_nonneg by lia. lia.
  - intros H1. subst lo1 hi1. rewrite !slice_index_nonneg by lia. lia.
  - intros H0 H1 p0 p1. split.
    + intros r c. rewrite Hcell. subst p0 p1.
      rewrite (written_nonneg wd) by done.
      destruct (cell (data bag_obj) r c); [|done]. by case_decide.
    + intros i j Hij. rewrite Hwindow. rewrite decide_False; [done|].
      subst lo0 lo1 p0 p1. rewrite !slice_index_nonneg by lia.
      pose proof (slice_index_le n ((pose bag_obj).1 + Z.of_nat h)).
      pose proof (slice_index_le m ((pose bag_obj).2 + Z.of_nat w)).
      lia.
  - intros Hstraddle i j. rewrite Hwindow. rewrite decide_False; [done|].
    subst lo0 hi0 lo1 hi1. unfold slice_index.
    destruct Hstraddle as [[[Hneg Hpos] Hfit]|[[Hneg Hpos] Hfit]].
    + destruct (Z.ltb_spec (pose bag_obj).1 0); [|lia].
      destruct (Z.ltb_spec ((pose bag_obj).1 + Z.of_nat h) 0); lia.
    + destruct (Z.ltb_spec (pose bag_obj).2 0); [|lia].
      destruct (Z.ltb_spec ((pose bag_obj).2 + Z.of_nat w) 0); lia.
  - intros Hin Hbefore. subst lo0 hi0. unfold slice_index.
    destruct (Z.ltb_spec (pose bag_obj).1 0); [|lia].
    destruct (Z.ltb_spec ((pose bag_obj).1 + Z.of_nat h) 0); lia.
  - intros Hin Hbefore. subst lo1 hi1. unfold slice_index.
    destruct (Z.ltb_spec (pose bag_obj).2 0); [|lia].
    destruct (Z.ltb_spec ((pose bag_obj).2 + Z.of_nat w) 0); lia.
Qed.

Lemma place_object_in_bag_truncates_witness :
  ∃ ws', place_object_in_bag [[0; 0; 0]; [0; 0; 0]; [0; 0; 3]]%Z
           (mk_object ShB 7 [[7; 7]; [7; 7]]%Z (2, 2)%Z (2, 2)%Z) = Some ws' ∧
    shape ws' = (3, 3) ∧ cell ws' 2 2 = Some 7%Z ∧ cell ws' 1 2 = Some 0%Z.
Proof.
  destruct (place_object_in_bag_truncates 3 2 [[0; 0; 0]; [0; 0; 0]; [0; 0; 3]]%Z
              (mk_object ShB 7 [[7; 7]; [7; 7]]%Z (2, 2)%Z (2, 2)%Z))
    as (ws' & Hrun & Hshape & _ & Hcells & _); [repeat constructor|repeat constructor|].
  exists ws'. split; [exact Hrun|]. split; [exact Hshape|].
  split; [exact (Hcells 2 2)|exact (Hcells 1 2)].
Defined.

(** ** Primitive rasterizer: the crop to the bounding box *)

(** [np.zeros((n, m))]. *)
Definition zeros (n m : nat) : grid := replicate n (replicate m 0%Z).

(** [l[start:stop] = ...]: assignment through a slice clamps like a read. *)
Definition fill_slice {A} (l : list A) (start stop : Z) (f : A → A) : list A :=
  let lo := slice_index (length l) start in
  let hi := slice_index (length l) stop in
  imap (λ i x, if decide (lo ≤ i < hi) then f x else x) l.

(** [a[r0:r1, c0:c1] = v]. *)
Definition fill_slice2 (g : grid) (r0 r1 c0 c1 : Z) (v : Z) : grid :=
  fill_slice g r0 r1 (λ row, fill_slice row c0 c1 (λ _, v)).

(** [a.astype(bool)], kept as 0/1 so that [label * data] is the product. *)
Definition astype_bool (g : grid) : grid :=
  (λ row : list Z, (λ v, if decide (v = 0%Z) then 0%Z else 1%Z) <$> row) <$> g.

(** [a.min()] and [a.max()] of an index array; [None] is the [ValueError]
    numpy raises on an empty array. *)
Definition arr_min (l : list nat) : option nat :=
  match l with [] => None | x :: t => Some (foldl Nat.min x t) end.

Definition arr_max (l : list nat) : option nat :=
  match l with [] => None | x :: t => Some (foldl Nat.max x t) end.

(** The crop shared by [create_ellipse], [create_rectanguloid],
    [create_trapezoid] and [create_custom_object]:

      coord = np.where(mask)
      dim   = coord[0].max()-coord[0].min()+1, coord[1].max()-coord[1].min()+1
      bin_image = mask[coord[0].min(): coord[0].min()+dim[0]+1,
                       coord[1].min(): coord[1].min()+dim[1]+1]           *)
Definition crop_to_bbox (mask : grid) : option grid :=
  let coord := np_where mask in
  rmin ← arr_min coord.*1; rmax ← arr_max coord.*1;
  cmin ← arr_min coord.*2; cmax ← arr_max coord.*2;
  let dim0 := (Z.of_nat rmax - Z.of_nat rmin + 1)%Z in
  let dim1 := (Z.of_nat cmax - Z.of_nat cmin + 1)%Z in
  Some (slice2 mask (Some (Z.of_nat rmin)) (Some (Z.of_nat rmin + dim0 + 1)%Z)
                    (Some (Z.of_nat cmin)) (Some (Z.of_nat cmin + dim1 + 1)%Z)).

Section Rasterizer.
(** The library rasterizers the constructors call: [skimage.draw.ellipse]
    (the pixel coordinates of an ellipse, clipped to [shape]) and
    [scipy.ndimage.rotate] at order 0.  Angles are of a type of their own. *)
Variable angle : Type.
Variable ellipse : Z → Z → Z → Z → angle → nat * nat → list (nat * nat).
Variable rotate : grid → angle → grid.

(** [mask[e_r, e_c] = 1] over index arrays. *)
Definition set_pixels (mask : grid) (px : list (nat * nat)) : option grid :=
  assign_const mask px 1%Z.

(** [Object2D.create_ellipse]: returns [(self.data, self.dim)]. *)
Definition create_ellipse (axes : Z * Z) (theta : angle) : option (grid * (nat * nat)) :=
  let m := Z.max axes.1 axes.2 in
  let n := Z.to_nat (2 * m + 1) in
  let e := ellipse (m + 1) (m + 1) axes.1 axes.2 theta (n, n) in
  mask ← set_pixels (zeros n n) e;
  bin_image ← crop_to_bbox mask;
  Some (astype_bool bin_image, shape bin_image).

(** [Object2D.create_rectanguloid]: returns [(self.data, self.dim)]. *)
Definition create_rectanguloid (dim : Z * Z) (theta : angle) : option (grid * (nat * nat)) :=
  let max_dim := (2 * (Z.sqrt (dim.1 ^ 2 + dim.2 ^ 2) / 2) + 1)%Z in
  let mask := zeros (Z.to_nat max_dim) (Z.to_nat max_dim) in
  let start_pt := ((max_dim - 1) / 2 - dim.1 / 2 + 1,
                   (max_dim - 1) / 2 - dim.2 / 2 + 1)%Z in
  let mask := fill_slice2 mask start_pt.1 (start_pt.1 + dim.1 + 1)
                          start_pt.2 (start_pt.2 + dim.2 + 1) 1 in
  let mask := rotate mask theta in
  bin_image ← crop_to_bbox mask;
  Some (astype_bool bin_image, shape bin_image).
End Rasterizer.

(** A mask is tight when its first and last row and its first and last
    column each hold a foreground cell. *)
Definition has_fg (l : list Z) : bool := bool_decide (Exists (λ v, v ≠ 0%Z) l).

Definition column (g : grid) (c : nat) : list Z := omap (.!! c) g.

Definition tight (g : grid) : bool :=
  match g with
  | [] => false
  | row :: _ =>
      has_fg row && has_fg (default [] (last g))
      && has_fg (column g 0) && has_fg (column g (length row - 1))
  end.

(** [skimage.draw.ellipse] at rotation 0: the cells of [shape] strictly
    inside the ellipse, ((i - r) / r_radius)² + ((j - c) / c_radius)² < 1,
    with the inequality cleared of its denominators. *)
Definition ellipse_unrotated (r c r_radius c_radius : Z) (_ : unit)
    (shp : nat * nat) : list (nat * nat) :=
  filter (λ ij, ((Z.of_nat ij.1 - r) ^ 2 * c_radius ^ 2
                 + (Z.of_nat ij.2 - c) ^ 2 * r_radius ^ 2
                 < r_radius ^ 2 * c_radius ^ 2)%Z)
         (i ← seq 0 shp.1; (λ j, (i, j)) <$> seq 0 shp.2).

(** [scipy.ndimage.rotate] by the angle 0 returns its input. *)
Definition rotate_by_zero (mask : grid) (_ : unit) : grid := mask.

(** C2 fails on the code: the crop ends one row and one column after the
    bounding box ([min + dim + 1] with [dim = max - min + 1]), so wherever
    the drawing buffer still has a row or column there, the mask keeps it
    as an all-background border.  A 6 x 2 box and an ellipse with semi-axes
    [(2, 1)], both unrotated, come out with an empty last column. *)
Theorem crop_to_bbox_keeps_background_column :
  create_rectanguloid unit rotate_by_zero (6, 2)%Z tt
    = Some ([[1; 1; 1; 0]; [1; 1; 1; 0]; [1; 1; 1; 0];
             [1; 1; 1; 0]; [1; 1; 1; 0]; [1; 1; 1; 0]]%Z, (6, 4)) ∧
  create_ellipse unit ellipse_unrotated (2, 1)%Z tt
    = Some ([[1; 0]; [1; 0]; [1; 0]]%Z, (3, 2)) ∧
  (λ r, tight r.1) <$> create_rectanguloid unit rotate_by_zero (6, 2)%Z tt = Some false ∧
  (λ r, tight r.1) <$> create_ellipse unit ellipse_unrotated (2, 1)%Z tt = Some false.
Proof. repeat split; vm_compute; reflexivity. Qed.

(** ** Liquid fill rule *)

(** A method body that mutates [self.data] and may raise: it takes the
    raster and returns the raster it leaves behind with its result, [None]
    once an exception is raised.  The mutations done before the exception
    stay, as in Python. *)
Definition Body (A : Type) : Type := grid → grid * option A.

Definition bind {A B} (m : Body A) (k : A → Body B) : Body B :=
  λ d, match m d with
       | (d', Some a) => k a d'
       | (d', None) => (d', None)
       end.

Notation "'let!' x ':=' m 'in' k" := (bind m (λ x, k))
  (at level 10, x binder, m at level 100, k at level 200).

(** Reading [self.data]. *)
Definition self_data : Body grid := λ d, (d, Some d).

(** A call that raises when it has no result. *)
Definition or_raise {A} (o : option A) : Body A := λ d, (d, o).

(** [self.data[idx] = v] for a Python int [v].  [self.data] is the
    [int64] array [label * mask] of the constructor: numpy converts [v] to
    the type of the array before it writes, and raises [OverflowError],
    with no cell written, for a [v] that an [int64] cannot hold. *)
Definition data_assign (idx : list (nat * nat)) (v : Z) : Body unit :=
  λ d, if decide (int64 v) then
         match assign_const d idx v with
         | Some d' => (d', Some tt)
         | None => (d, None)
         end
       else (d, None).

(** [try: body  except: pass]. *)
Definition try_except_pass (body : Body unit) : grid → grid := λ d, (body d).1.

(** [a // k], elementwise (numpy gives 0 for a zero divisor). *)
Definition floor_div (g : grid) (k : Z) : grid :=
  (λ row : list Z, (λ v, v / k)%Z <$> row) <$> g.

(** [a[:stop, :] = 0]. *)
Definition clear_rows_to (g : grid) (stop : Z) : grid :=
  fill_slice g 0 stop (λ row : list Z, (λ _, 0%Z) <$> row).

(** [int((1 - self.lqd_level) * (e_row.max() - e_row.min()))]: the
    difference and the product are computed in floats (the row extent, a
    numpy integer, is converted to one), and [int] raises on a result
    that is not finite. *)
Definition e_fill (lqd_level : float) (e_max e_min : nat) : option Z :=
  int_of_float (float_mul (float_sub (float_of_int 1) lqd_level)
                          (float_of_int (Z.of_nat e_max - Z.of_nat e_min))).

(** The arithmetic is the floats': at the level 0.9 and a row extent of 10
    the product is 0.9999999999999998 and the row is 0, not 1; the levels
    0.0 and 1.0 give the whole extent and 0. *)
Lemma e_fill_is_rounded :
  e_fill (float_div (float_of_int 9) (float_of_int 10)) 10 0 = Some 0%Z ∧
  e_fill (float_of_int 0) 10 0 = Some 10%Z ∧
  e_fill (float_of_int 1) 10 0 = Some 0%Z.
Proof. repeat split; vm_compute; reflexivity. Qed.

Section LiquidRule.
(** [binary_erosion(bin_data, selem=disk(thickness))] of skimage; [None]
    when the library raises. *)
Variable binary_erosion : grid → Z → option grid.

Definition liquid_rule_body (lbl : Z) (p : LiquidParam) : Body unit :=
  let! d := self_data in
  let bin_data := floor_div d lbl in
  let! eroded_img := or_raise (binary_erosion bin_data (cntr_thickness p)) in
  let e_row := (np_where eroded_img).*1 in
  let! e_max := or_raise (arr_max e_row) in
  let! e_min := or_raise (arr_min e_row) in
  let! e_fill := or_raise (e_fill (lqd_level p) e_max e_min) in
  let e_fill_img := clear_rows_to eroded_img e_fill in
  let! _ := data_assign (np_where eroded_img) (-1) in
  data_assign (np_where e_fill_img) (lqd_label p).

(** [Object2D.apply_liquid_container_rule].  An object without liquid
    parameters has no [cntr_thickness] attribute: the body raises at
    once and nothing changes. *)
Definition apply_liquid_container_rule (o : Object2D) : Object2D :=
  match lqd_param o with
  | Some p => set_data o (try_except_pass (liquid_rule_body (label o) p) (data o))
  | None => o
  end.
End LiquidRule.

(** [skimage.morphology.disk(radius)] as the list of its offsets. *)
Definition disk (radius : Z) : list (Z * Z) :=
  filter (λ d, (d.1 ^ 2 + d.2 ^ 2 ≤ radius ^ 2)%Z)
         (di ← seqZ (- radius) (2 * radius + 1);
          (λ dj, (di, dj)) <$> seqZ (- radius) (2 * radius + 1)).

(** skimage's [binary_erosion] with a disk: a cell stays when every cell
    of the footprint around it is foreground, cells outside the image
    counting as foreground ([border_value=True]). *)
Definition erode_disk (img : grid) (radius : Z) : option grid :=
  if decide (radius < 0)%Z then None else
  let inside (i j : Z) : bool :=
    if decide (0 ≤ i ∧ 0 ≤ j)%Z then
      match cell img (Z.to_nat i) (Z.to_nat j) with
      | Some v => bool_decide (v ≠ 0%Z)
      | None => true
      end
    else true in
  Some (imap (λ i (row : list Z),
          imap (λ j (_ : Z),
            if forallb (λ d : Z * Z, inside (Z.of_nat i + d.1) (Z.of_nat j + d.2))%Z
                       (disk radius)
            then 1%Z else 0%Z) row) img).

(** A container with a neck, as a custom mask gives it (label 4), and its
    liquid parameters at a fill level: [float_of_int 0] is 0.0,
    [float_of_int 1] is 1.0, and the quotient of two small integers is the
    float of the decimal literal (9 by 10 is 0.9). *)
Definition bottle : grid :=
  [[0; 0; 4; 0; 0]; [0; 0; 4; 0; 0]; [0; 4; 4; 4; 0];
   [4; 4; 4; 4; 4]; [4; 4; 4; 4; 4]; [4; 4; 4; 4; 4]]%Z.

Definition liquid_at (level : float) : LiquidParam :=
  {| cntr_thickness := 1; lqd_level := level; lqd_label := 9 |}.

Definition bottle_object (p : LiquidParam) : Object2D :=
  {| obj_shape := ShM; label := 4; data := bottle; dim := (6, 5)%Z; pose := (0, 0)%Z;
     curve_pts := ((0, 0), (0, 0))%Z; axes := (0, 0)%Z; lqd_param := Some p |}.

(** ** Lemmas on index assignment *)

Lemma set_cell_cells g r c v g' :
  set_cell g r c v = Some g' →
  ∀ i j, cell g' i j = if decide (i = r ∧ j = c) then Some v else cell g i j.
Proof.
  unfold set_cell. destruct (g !! r) as [row|] eqn:Hrow; simpl; [|done].
  case_decide as Hc; [|done]. intros [= <-] i j. unfold cell.
  apply lookup_lt_Some in Hrow as Hr.
  destruct (decide (i = r)) as [->|Hne].
  - rewrite list_lookup_insert_eq by done. simpl. rewrite Hrow; simpl.
    destruct (decide (j = c)) as [->|Hne].
    + rewrite decide_True by done. by apply list_lookup_insert_eq.
    + rewrite decide_False by naive_solver. by apply list_lookup_insert_ne.
  - rewrite list_lookup_insert_ne by done. rewrite decide_False by naive_solver. done.
Qed.

Lemma set_cell_is_Some g r c v : is_Some (cell g r c) → is_Some (set_cell g r c v).
Proof.
  intros [u Hu]. apply cell_Some in Hu as (row & Hrow & Hc).
  unfold set_cell. rewrite Hrow; simpl. apply lookup_lt_Some in Hc.
  rewrite decide_True by done. eauto.
Qed.

Lemma assign_const_None idx v :
  foldl (λ acc rc, g' ← acc; set_cell g' rc.1 rc.2 v) None idx = None.
Proof. induction idx as [|rc idx IH]; [done|]. simpl. apply IH. Qed.

Lemma assign_const_cells g idx v g' :
  assign_const g idx v = Some g' →
  ∀ i j, cell g' i j = if decide ((i, j) ∈ idx) then Some v else cell g i j.
Proof.
  unfold assign_const. revert g. induction idx as [|[r c] idx IH]; intros g; simpl.
  - by intros [= <-] i j.
  - destruct (set_cell g r c v) as [g1|] eqn:Hset; simpl.
    + intros Hrun i j. rewrite (IH g1 Hrun), (set_cell_cells _ _ _ _ _ Hset).
      destruct (decide ((i, j) ∈ idx)) as [Hin|Hnin].
      * rewrite decide_True; [done|]. by right.
      * destruct (decide (i = r ∧ j = c)) as [[-> ->]|Hne].
        -- rewrite decide_True; [done|]. left.
        -- rewrite decide_False; [done|]. intros [[= -> ->]|?]%elem_of_cons; tauto.
    + by rewrite assign_const_None.
Qed.

Lemma assign_const_is_Some g idx v :
  (∀ rc, rc ∈ idx → is_Some (cell g rc.1 rc.2)) → is_Some (assign_const g idx v).
Proof.
  unfold assign_const. revert g. induction idx as [|[r c] idx IH]; intros g Hidx; simpl.
  - eauto.
  - destruct (set_cell_is_Some g r c v) as [g1 Hset]; [apply (Hidx (r, c)); left|].
    rewrite Hset; simpl. apply IH. intros [i j] Hin.
    rewrite (set_cell_cells _ _ _ _ _ Hset). case_decide; [eauto|].
    apply (Hidx (i, j)). by right.
Qed.

Lemma cell_clear_rows_to g stop i j :
  cell (clear_rows_to g stop) i j =
    if decide (i < slice_index (length g) stop)
    then (λ _, 0%Z) <$> cell g i j else cell g i j.
Proof.
  unfold cell, clear_rows_to, fill_slice. rewrite list_lookup_imap.
  replace (slice_index (length g) 0) with 0 by (unfold slice_index; simpl; lia).
  destruct (g !! i) as [row|]; simpl; [|by case_decide].
  destruct (decide (i < slice_index (length g) stop)).
  - rewrite decide_True by lia. by rewrite list_lookup_fmap.
  - rewrite decide_False by lia. done.
Qed.


Lemma clear_rows_to_0 g : clear_rows_to g 0 = g.
Proof.
  unfold clear_rows_to, fill_slice.
  replace (slice_index (length g) 0) with 0 by (unfold slice_index; simpl; lia).
  apply list_eq. intros i. rewrite list_lookup_imap.
  destruct (decide (0 ≤ i < 0)); [lia|]. by destruct (g !! i).
Qed.

(** ** The liquid fill rule: failure and fill levels *)




(** At the level 1.0 the fill row is 0, nothing is cleared, and every
    cell of the cavity gets the liquid label. *)
Lemma e_fill_full_level e_max e_min fill :
  e_fill (float_of_int 1) e_max e_min = Some fill → fill = 0%Z.
Proof.
  unfold e_fill.
  change (float_sub (float_of_int 1) (float_of_int 1)) with (S754_zero false).
  generalize (float_of_int (Z.of_nat e_max - Z.of_nat e_min)).
  intros [s|s| |s m e]; simpl; congruence.
Qed.

Lemma liquid_rule_full_level (erosion : grid → Z → option grid) lbl p d eroded_img d' :
  lqd_level p = float_of_int 1 →
  erosion (floor_div d lbl) (cntr_thickness p) = Some eroded_img →
  liquid_rule_body erosion lbl p d = (d', Some tt) →
  ∀ i j, (i, j) ∈ np_where eroded_img → cell d' i j = Some (lqd_label p).
Proof.
  intros Hlevel Herode. unfold liquid_rule_body, bind, self_data, or_raise, data_assign.
  rewrite Herode.
  destruct (arr_max _) as [e_max|]; [|done]. destruct (arr_min _) as [e_min|]; [|done].
  rewrite Hlevel.
  destruct (e_fill _ _ _) as [fill|] eqn:Hfill; [|done].
  apply e_fill_full_level in Hfill as ->. rewrite clear_rows_to_0.
  case_decide; [|done].
  destruct (assign_const d _ _) as [d1|]; [|done].
  case_decide; [|done].
  destruct (assign_const d1 _ _) as [d2|] eqn:Hfill; [|done].
  intros [= <-] i j Hin. rewrite (assign_const_cells _ _ _ _ Hfill).
  by rewrite decide_True.
Qed.

(** C6 fails on the code at level 0.0: the fill line [e_fill] is a height
    inside the cavity, [(1 - level) * (max - min)], but it is used as a row
    index from the top of the raster ([e_fill_img[:e_fill, :] = 0]), without
    the offset [e_row.min()].  The cavity of the bottle spans rows 2 to 5;
    at level 0.0 rows 0 to 2 are cleared and the 13 cavity cells of rows 3
    to 5 are marked liquid, one cell only is left void.  At level 1.0 the
    whole cavity is liquid, as the claim says. *)
Theorem liquid_fill_line_from_raster_top :
  erode_disk (floor_div bottle 4) 1
    = Some [[0; 0; 0; 0; 0]; [0; 0; 0; 0; 0]; [0; 0; 1; 0; 0];
            [0; 1; 1; 1; 0]; [1; 1; 1; 1; 1]; [1; 1; 1; 1; 1]]%Z ∧
  data (apply_liquid_container_rule erode_disk (bottle_object (liquid_at (float_of_int 0))))
    = [[0; 0; 4; 0; 0]; [0; 0; 4; 0; 0]; [0; 4; -1; 4; 0];
       [4; 9; 9; 9; 4]; [9; 9; 9; 9; 9]; [9; 9; 9; 9; 9]]%Z ∧
  data (apply_liquid_container_rule erode_disk (bottle_object (liquid_at (float_of_int 1))))
    = [[0; 0; 4; 0; 0]; [0; 0; 4; 0; 0]; [0; 4; 9; 4; 0];
       [4; 9; 9; 9; 4]; [9; 9; 9; 9; 9]; [9; 9; 9; 9; 9]]%Z.
Proof. repeat split; vm_compute; reflexivity. Qed.

(** ** The bag and the overlap rule *)

(** How a call ends: with a result, with an exception, or (for the loops
    below, which are run with a bound on their passes) out of fuel. *)
Inductive outcome (A : Type) :=
  | Done (a : A)
  | Raised
  | OutOfFuel.
Arguments Done {A} a.
Arguments Raised {A}.
Arguments OutOfFuel {A}.

(** The attributes of [BaggageImage2D] the placement rules use: the current
    slice of the canvas and of the static boundary mask, the bag geometry
    ([extents] is set when a bag mask is given, [bag_mask is not None]) and
    the run flag [LATERAL_OSC_FLAG]. *)
Record Bag := {
  ws_bag : grid;
  boundary : grid;
  size : Z;
  bb_h : Z;
  extents : option (Z * Z);
  LATERAL_OSC_FLAG : bool;
}.

Definition set_ws_bag (b : Bag) (ws : grid) : Bag :=
  {| ws_bag := ws; boundary := boundary b; size := size b; bb_h := bb_h b;
     extents := extents b; LATERAL_OSC_FLAG := LATERAL_OSC_FLAG b |}.

Definition set_LATERAL_OSC_FLAG (b : Bag) (f : bool) : Bag :=
  {| ws_bag := ws_bag b; boundary := boundary b; size := size b; bb_h := bb_h b;
     extents := extents b; LATERAL_OSC_FLAG := f |}.

(** [a * b] of two arrays of the same shape. *)
Definition mul (a b : grid) : grid := zip_with (zip_with Z.mul) a b.

(** [np.any(a.astype(bool))]. *)
Definition np_any (a : grid) : bool := bool_decide (np_where a ≠ []).

(** [BaggageImage2D.get_overlap]: the cells of the object that meet
    canvas content other than the boundary. *)
Definition get_overlap (b : Bag) (bag_obj : Object2D) : option (bool * grid) :=
  bag_data ← assign_const (ws_bag b) (np_where (boundary b)) 0;
  let '(p0, p1) := pose bag_obj in
  let '(h, w) := shape (data bag_obj) in
  let obj_loc := slice2 bag_data (Some p0) (Some (p0 + Z.of_nat h)%Z)
                                 (Some p1) (Some (p1 + Z.of_nat w)%Z) in
  let s := shape obj_loc in
  let obj_int := mul (slice2 (data bag_obj) None (Some (Z.of_nat s.1))
                             None (Some (Z.of_nat s.2)))
                     (astype_bool obj_loc) in
  Some (np_any obj_int, obj_int).

(** [a.max()] over all cells. *)
Definition grid_max (g : grid) : option Z :=
  match concat g with [] => None | x :: t => Some (foldl Z.max x t) end.

(** [a[a == x].sum()]. *)
Definition sum_where_eq (g : grid) (x : Z) : Z :=
  foldr Z.add 0%Z (filter (λ v, v = x) (concat g)).

(** [np.argmax(l)]: the first index of the largest entry. *)
Fixpoint argmax_from (best_i : nat) (best : Z) (i : nat) (l : list Z) : nat :=
  match l with
  | [] => best_i
  | v :: t => if (best <? v)%Z then argmax_from i v (S i) t
              else argmax_from best_i best (S i) t
  end.

Definition argmax (l : list Z) : option nat :=
  match l with [] => None | x :: t => Some (argmax_from 0 x 1 t) end.

(** The component selection of [run_shape_grammar_overlap], on the
    labelled intersection [obj_int_bin = label(obj_int.astype(bool))]:

      pix_cnt = [obj_int_bin[obj_int_bin==x].sum()//x
                 for x in range(1,obj_int_bin.max()+1)]
      max_ind = np.argmax(pix_cnt)+1
      obj_int_bin[obj_int_bin!=max_ind] = 0
      obj_int_bin = obj_int_bin.astype(bool)

    It returns [max_ind] and the mask of the kept component. *)
Definition pix_cnt (obj_int_bin : grid) (n : Z) : list Z :=
  (λ x, sum_where_eq obj_int_bin x / x)%Z <$> seqZ 1 n.

Definition select_component (obj_int_bin : grid) : option (Z * grid) :=
  n ← grid_max obj_int_bin;
  k ← argmax (pix_cnt obj_int_bin n);
  let max_ind := (Z.of_nat k + 1)%Z in
  let kept := (λ row : list Z, (λ v, if decide (v ≠ max_ind) then 0%Z else v) <$> row)
                <$> obj_int_bin in
  Some (max_ind, astype_bool kept).

(** The number of cells that carry the label [x]. *)
Definition pixel_count (g : grid) (x : Z) : nat :=
  length (filter (λ v, v = x) (concat g)).

(** A name bound to a numpy array holds a reference to it.  Inside one call
    of the overlap rule the pose array of the object is mutated in place
    ([bag_obj.pose[0] -= ...]) and never rebound, and
    [pose_list.append(bag_obj.pose)] stores the array itself: every entry of
    [pose_list] is [Alias], the live array.  [Copy] is the snapshot that
    [bag_obj.pose.copy()] takes. *)
Inductive pose_ref := Alias | Copy (p : Z * Z).

Definition deref (bag_obj : Object2D) (r : pose_ref) : Z * Z :=
  match r with Alias => pose bag_obj | Copy p => p end.

(** What one pass of the loop did, kept for the statements below (not
    read by the program): the pose after the shifts of the pass, and
    whether the pass took the oscillation branch or left by the floor
    test. *)
Inductive pass_event :=
  | Shifted (p : Z * Z) (osc : bool)
  | HitGround (p : Z * Z).

(** The local variables of [run_shape_grammar_overlap]. *)
Record OverlapState := {
  st_obj : Object2D;
  st_bag : Bag;
  row_shift : bool;
  col_shift : bool;
  ol_ctr : nat;
  pose_list : list pose_ref;
  OVERLAP_FLAG : bool;
  obj_int : grid;
  passes : list pass_event;
}.

(** The shift along one axis: none when the overlap spans the whole
    extent or touches neither edge, back by the overlap's extent + 1 when
    it touches the far edge, forward when it touches the near edge. *)
Definition axis_shift (lo hi max_o : Z) : Z :=
  if decide (lo = 0 ∧ hi = max_o)%Z then 0%Z
  else if decide (hi = max_o) then (- (hi - lo + 1))%Z
  else if decide (lo = 0%Z) then (hi - lo + 1)%Z
  else 0%Z.

Section OverlapRule.
(** [skimage.measure.label]: the connected components of a binary
    image, numbered from 1. *)
Variable label_components : grid → grid.

(** One pass of the [while OVERLAP_FLAG] loop; the boolean tells whether
    the pass left the loop by [break]. *)
Definition overlap_pass (s : OverlapState) : option (OverlapState * bool) :=
  let obj_int_bin := label_components (astype_bool (obj_int s)) in
  '(max_ind, obj_int_bin) ← select_component obj_int_bin;
  let coords := np_where obj_int_bin in
  rmin ← arr_min coords.*1; rmax ← arr_max coords.*1;
  cmin ← arr_min coords.*2; cmax ← arr_max coords.*2;
  let bbox_rows := (Z.of_nat rmin, Z.of_nat rmax) in
  let bbox_cols := (Z.of_nat cmin, Z.of_nat cmax) in
  let bbox_dim := (bbox_rows.2 - bbox_rows.1, bbox_cols.2 - bbox_cols.1)%Z in
  let max_o_dim := (Z.of_nat (shape obj_int_bin).1 - 1,
                    Z.of_nat (shape obj_int_bin).2 - 1)%Z in
  let bag_obj := st_obj s in
  let p0 := if row_shift s
            then ((pose bag_obj).1 + axis_shift bbox_rows.1 bbox_rows.2 max_o_dim.1)%Z
            else (pose bag_obj).1 in
  let p1 := if col_shift s
            then ((pose bag_obj).2 + axis_shift bbox_cols.1 bbox_cols.2 max_o_dim.2)%Z
            else (pose bag_obj).2 in
  let bag_obj := set_pose bag_obj (p0, p1) in
  let ground_y := (size (st_bag s) / 2 + bb_h (st_bag s))%Z in
  let GROUND_FLAG := bool_decide (ground_y ≤ (pose bag_obj).1 + (dim bag_obj).1)%Z in
  if GROUND_FLAG then
    Some ({| st_obj := bag_obj; st_bag := st_bag s;
             row_shift := row_shift s; col_shift := col_shift s;
             ol_ctr := ol_ctr s; pose_list := pose_list s;
             OVERLAP_FLAG := OVERLAP_FLAG s; obj_int := obj_int s;
             passes := passes s ++ [HitGround (p0, p1)] |}, true)
  else
    let pose_list := pose_list s ++ [Alias] in
    osc_cond ← (if decide (2 ≤ ol_ctr s) then
                  prev_pose ← deref bag_obj <$> reverse pose_list !! 1;
                  Some (bool_decide ((pose bag_obj).1 = prev_pose.1) &&
                        bool_decide ((pose bag_obj).2 = prev_pose.2))
                else Some false);
    let bag_obj := if osc_cond : bool
                   then set_pose bag_obj ((pose bag_obj).1 - (bbox_dim.1 + 1),
                                          (pose bag_obj).2)%Z
                   else bag_obj in
    let ol_ctr := S (ol_ctr s) in
    let bag := if osc_cond then set_LATERAL_OSC_FLAG (st_bag s) true else st_bag s in
    '(flag, int) ← get_overlap bag bag_obj;
    Some ({| st_obj := bag_obj; st_bag := bag;
             row_shift := if osc_cond then false else row_shift s;
             col_shift := if osc_cond then false else col_shift s;
             ol_ctr := ol_ctr; pose_list := pose_list;
             OVERLAP_FLAG := flag; obj_int := int;
             passes := passes s ++ [Shifted (p0, p1) osc_cond] |},
          bool_decide (ol_ctr = 10)).

(** [while OVERLAP_FLAG: ...], run with a bound [fuel] on the number of
    passes. *)
Fixpoint overlap_loop (fuel : nat) (s : OverlapState) : outcome OverlapState :=
  if OVERLAP_FLAG s then
    match fuel with
    | 0 => OutOfFuel
    | S fuel' =>
        match overlap_pass s with
        | None => Raised
        | Some (s', true) => Done s'
        | Some (s', false) => overlap_loop fuel' s'
        end
    end
  else Done s.

(** [BaggageImage2D.run_shape_grammar_overlap].  The object is mutated
    in place, so it is returned whether [fix_obj] is set or not; with
    [fix_obj] it is also committed to the canvas.  The passes of the loop
    are returned for the statements below. *)
Definition run_shape_grammar_overlap (fuel : nat) (b : Bag) (bag_obj : Object2D)
    (fix_obj row_shift col_shift : bool) : outcome (Bag * Object2D * list pass_event) :=
  match get_overlap b bag_obj with
  | None => Raised
  | Some (flag, int) =>
      let s0 := {| st_obj := bag_obj; st_bag := b;
                   row_shift := row_shift; col_shift := col_shift;
                   ol_ctr := 0; pose_list := [Alias];
                   OVERLAP_FLAG := flag; obj_int := int; passes := [] |} in
      match overlap_loop fuel s0 with
      | Done s =>
          if fix_obj then
            match place_object_in_bag (ws_bag (st_bag s)) (st_obj s) with
            | Some ws => Done (set_ws_bag (st_bag s) ws, st_obj s, passes s)
            | None => Raised
            end
          else Done (st_bag s, st_obj s, passes s)
      | Raised => Raised
      | OutOfFuel => OutOfFuel
      end
  end.
End OverlapRule.

(** A model of [skimage.measure.label] at its default (full) connectivity:
    components of 8-connected foreground cells, numbered in raster order
    of their first cell. *)
Definition neighbours8 (i j : nat) : list (nat * nat) :=
  (λ d : Z * Z, (Z.to_nat (Z.of_nat i + d.1), Z.to_nat (Z.of_nat j + d.2))) <$>
  filter (λ d : Z * Z, 0 ≤ Z.of_nat i + d.1 ∧ 0 ≤ Z.of_nat j + d.2)%Z
         [(-1, -1); (-1, 0); (-1, 1); (0, -1); (0, 1); (1, -1); (1, 0); (1, 1)]%Z.

Fixpoint flood (fuel : nat) (img lab : grid) (k : Z) (work : list (nat * nat)) : grid :=
  match fuel, work with
  | S fuel', (i, j) :: rest =>
      match cell img i j, cell lab i j with
      | Some v, Some l =>
          if decide (v ≠ 0 ∧ l = 0)%Z
          then flood fuel' img (default lab (set_cell lab i j k)) k (neighbours8 i j ++ rest)
          else flood fuel' img lab k rest
      | _, _ => flood fuel' img lab k rest
      end
  | _, _ => lab
  end.

Definition label8 (img : grid) : grid :=
  let cells := np_where img in
  (foldl (λ (acc : grid * Z) (ij : nat * nat),
            match cell acc.1 ij.1 ij.2 with
            | Some 0%Z =>
                (flood (9 * length cells + 1) img acc.1 (acc.2 + 1)%Z [ij], (acc.2 + 1)%Z)
            | _ => acc
            end)
         ((λ row : list Z, (λ _, 0%Z) <$> row) <$> img, 0%Z) cells).1.

(** A 12 x 12 slice with a one-cell boundary (label 3), a block of label 5
    placed before, and a custom object whose raster [7 0 7] has a gap. *)
Definition demo_boundary : grid :=
  fill_slice2 (fill_slice2 (zeros 12 12) 0 12 0 12 1) 1 11 1 11 0.

Definition demo_canvas : grid :=
  fill_slice2 ((λ row : list Z, (λ v, 3 * v)%Z <$> row) <$> demo_boundary) 3 7 3 11 5.

Definition demo_bag : Bag :=
  {| ws_bag := demo_canvas; boundary := demo_boundary; size := 12; bb_h := 5;
     extents := None; LATERAL_OSC_FLAG := false |}.

Definition gapped_object : Object2D :=
  mk_object ShM 7 [[7; 0; 7]]%Z (1, 3)%Z (5, 3)%Z.

(** ** Component selection *)

Lemma foldl_max_spec (l : list Z) x :
  let m := foldl Z.max x l in
  (m = x ∨ m ∈ l) ∧ (x ≤ m)%Z ∧ ∀ v, v ∈ l → (v ≤ m)%Z.
Proof.
  revert x. induction l as [|y l IH]; intros x; simpl.
  - split; [by left|]. split; [lia|]. intros v Hv. by apply elem_of_nil in Hv.
  - destruct (IH (Z.max x y)) as (Hin & Hle & Hall). split; [|split].
    + destruct Hin as [Heq|Hin]; [|right; by right].
      destruct (Z.max_spec x y) as [[_ Hm]|[_ Hm]]; rewrite Hm in Heq |- *.
      * right. rewrite Heq. left.
      * by left.
    + lia.
    + intros v [->|Hv]%elem_of_cons; [lia|by apply Hall].
Qed.

Lemma grid_max_spec g n :
  grid_max g = Some n → n ∈ concat g ∧ ∀ v, v ∈ concat g → (v ≤ n)%Z.
Proof.
  unfold grid_max. destruct (concat g) as [|x l]; [done|]. intros [= <-].
  destruct (foldl_max_spec l x) as (Hin & Hle & Hall). split.
  - destruct Hin as [->|Hin]; [left|by right].
  - intros v [->|Hv]%elem_of_cons; [done|by apply Hall].
Qed.

Lemma grid_max_is_Some g v : v ∈ concat g → is_Some (grid_max g).
Proof. unfold grid_max. destruct (concat g); [by intros ?%elem_of_nil|eauto]. Qed.

Lemma sum_where_eq_count g x :
  sum_where_eq g x = (x * Z.of_nat (pixel_count g x))%Z.
Proof.
  unfold sum_where_eq, pixel_count. induction (concat g) as [|v l IH]; simpl; [lia|].
  rewrite filter_cons. case_decide as Hv; simpl; [|done]. rewrite IH, Hv. lia.
Qed.

Lemma pix_cnt_lookup g n (k : nat) :
  (Z.of_nat k < n)%Z →
  pix_cnt g n !! k = Some (Z.of_nat (pixel_count g (Z.of_nat k + 1))).
Proof.
  intros Hk. unfold pix_cnt. rewrite list_lookup_fmap.
  rewrite lookup_seqZ_lt by lia. simpl. f_equal.
  rewrite sum_where_eq_count, Z.mul_comm, Z.add_comm. apply Z.div_mul. lia.
Qed.

Lemma length_pix_cnt g n : length (pix_cnt g n) = Z.to_nat n.
Proof. unfold pix_cnt. by rewrite length_fmap, length_seqZ. Qed.

Lemma argmax_from_spec (pre t : list Z) bi b :
  pre !! bi = Some b →
  (∀ j v, pre !! j = Some v → (v ≤ b)%Z ∧ (j < bi → (v < b)%Z)) →
  ∃ m, (pre ++ t) !! argmax_from bi b (length pre) t = Some m ∧
       ∀ j v, (pre ++ t) !! j = Some v →
              (v ≤ m)%Z ∧ (j < argmax_from bi b (length pre) t → (v < m)%Z).
Proof.
  revert pre bi b. induction t as [|x t IH]; intros pre bi b Hbi Hpre; simpl.
  - rewrite app_nil_r. eauto.
  - replace (pre ++ x :: t) with ((pre ++ [x]) ++ t) by by rewrite <-app_assoc.
    replace (S (length pre)) with (length (pre ++ [x])) by (rewrite length_app; simpl; lia).
    destruct (Z.ltb_spec b x) as [Hlt|Hge].
    + apply IH.
      * rewrite lookup_app_r by lia. by rewrite Nat.sub_diag.
      * intros j v Hj. destruct (decide (j < length pre)) as [Hjl|Hjl].
        -- rewrite lookup_app_l in Hj by done. destruct (Hpre j v Hj). lia.
        -- rewrite lookup_app_r in Hj by lia.
           destruct (j - length pre) as [|?] eqn:Hd; simpl in Hj; [|done].
           injection Hj as <-. split; [lia|]. lia.
    + apply IH.
      * apply lookup_lt_Some in Hbi as Hlt. by rewrite lookup_app_l.
      * intros j v Hj. destruct (decide (j < length pre)) as [Hjl|Hjl].
        -- rewrite lookup_app_l in Hj by done. by apply Hpre.
        -- rewrite lookup_app_r in Hj by lia.
           destruct (j - length pre) as [|?] eqn:Hd; simpl in Hj; [|done].
           injection Hj as <-. split; [lia|]. apply lookup_lt_Some in Hbi. lia.
Qed.

Lemma argmax_spec l k :
  argmax l = Some k →
  ∃ m, l !! k = Some m ∧
       ∀ j v, l !! j = Some v → (v ≤ m)%Z ∧ (j < k → (v < m)%Z).
Proof.
  destruct l as [|x t]; [done|]. intros [= <-].
  apply (argmax_from_spec [x] t 0 x); [done|].
  intros [|j] v Hj; simplify_eq/=. split; [lia|lia].
Qed.

Lemma argmax_is_Some l : l ≠ [] → is_Some (argmax l).
Proof. destruct l; [done|]. simpl. eauto. Qed.

Lemma pixel_count_above_max g n x :
  grid_max g = Some n → (n < x)%Z → pixel_count g x = 0.
Proof.
  intros [_ Hmax]%grid_max_spec Hx. unfold pixel_count.
  induction (concat g) as [|v l IH]; [done|]. rewrite filter_cons.
  rewrite decide_False.
  - apply IH. intros u Hu. apply Hmax. by right.
  - intros ->. specialize (Hmax x ltac:(left)). lia.
Qed.

(** C7: the component kept is the one with the most pixels, and among
    components of the same largest size the one with the smallest label,
    which is the first found in raster order.  Every other cell is
    cleared.  [lab] is the labelled intersection, with at least one
    component. *)
Theorem select_component_keeps_largest (lab : grid) :
  (∃ v, v ∈ concat lab ∧ (1 ≤ v)%Z) →
  ∃ max_ind kept,
    select_component lab = Some (max_ind, kept) ∧
    (1 ≤ max_ind)%Z ∧
    (∀ i j, cell kept i j =
            (λ v, if decide (v = max_ind) then 1%Z else 0%Z) <$> cell lab i j) ∧
    (∀ x, (1 ≤ x)%Z → pixel_count lab x ≤ pixel_count lab max_ind) ∧
    (∀ x, (1 ≤ x < max_ind)%Z → pixel_count lab x < pixel_count lab max_ind).
Proof.
  intros (v & Hv & Hv1). unfold select_component.
  destruct (grid_max_is_Some lab v Hv) as [n Hn]. rewrite Hn; simpl.
  pose proof (grid_max_spec _ _ Hn) as [_ Hmax].
  assert (1 ≤ n)%Z as Hn1 by (specialize (Hmax v Hv); lia).
  destruct (argmax_is_Some (pix_cnt lab n)) as [k Hk].
  { intros Hnil. apply (f_equal length) in Hnil. rewrite length_pix_cnt in Hnil.
    simpl in Hnil. lia. }
  rewrite Hk; simpl. eexists _, _. split; [done|].
  destruct (argmax_spec _ _ Hk) as (m & Hm & Hbest).
  apply lookup_lt_Some in Hm as Hkn. rewrite length_pix_cnt in Hkn.
  rewrite pix_cnt_lookup in Hm by lia. injection Hm as <-.
  split; [lia|]. split; [|split].
  - intros i j. unfold cell, astype_bool. rewrite !list_lookup_fmap.
    destruct (lab !! i) as [row|]; simpl; [|done].
    rewrite !list_lookup_fmap. destruct (row !! j) as [u|]; simpl; [|done].
    f_equal. repeat case_decide; try done; lia.
  - intros x Hx. destruct (decide (x ≤ n)%Z) as [Hxn|Hxn].
    + destruct (Hbest (Z.to_nat (x - 1)) (Z.of_nat (pixel_count lab x))) as [Hle _]; [|lia].
      rewrite pix_cnt_lookup by lia. do 3 f_equal. lia.
    + rewrite (pixel_count_above_max lab n x) by (done || lia). lia.
  - intros x Hx.
    destruct (Hbest (Z.to_nat (x - 1)) (Z.of_nat (pixel_count lab x))) as [_ Hlt]; [|lia].
    rewrite pix_cnt_lookup by lia. do 3 f_equal. lia.
Qed.

Lemma select_component_keeps_largest_witness :
  ∃ max_ind kept,
    select_component (label8 [[1; 0; 1]; [0; 0; 0]; [1; 0; 1]; [0; 0; 1]]%Z)
      = Some (max_ind, kept) ∧
    (1 ≤ max_ind)%Z ∧
    (∀ i j, cell kept i j =
            (λ v, if decide (v = max_ind) then 1%Z else 0%Z) <$>
            cell (label8 [[1; 0; 1]; [0; 0; 0]; [1; 0; 1]; [0; 0; 1]]%Z) i j) ∧
    (∀ x, (1 ≤ x)%Z →
          pixel_count (label8 [[1; 0; 1]; [0; 0; 0]; [1; 0; 1]; [0; 0; 1]]%Z) x
          ≤ pixel_count (label8 [[1; 0; 1]; [0; 0; 0]; [1; 0; 1]; [0; 0; 1]]%Z) max_ind) ∧
    (∀ x, (1 ≤ x < max_ind)%Z →
          pixel_count (label8 [[1; 0; 1]; [0; 0; 0]; [1; 0; 1]; [0; 0; 1]]%Z) x
          < pixel_count (label8 [[1; 0; 1]; [0; 0; 0]; [1; 0; 1]; [0; 0; 1]]%Z) max_ind).
Proof.
  apply select_component_keeps_largest.
  exists 1%Z. split; [vm_compute; left|lia].
Defined.

(** ** The overlap rule: oscillation test and iteration bound *)

(** The oscillation test reads [pose_list[-2]], which is the pose array
    itself: it compares the current pose with the current pose.  From the
    third pass on ([ol_ctr >= 2]) every pass that does not leave by the
    floor test takes the oscillation branch, whatever the poses were. *)
Lemma overlap_pass_osc_cond label_components s s' brk :
  Forall (λ r, r = Alias) (pose_list s) →
  overlap_pass label_components s = Some (s', brk) →
  (∃ p, passes s' = passes s ++ [HitGround p] ∧ brk = true) ∨
  (∃ p, passes s' = passes s ++ [Shifted p (bool_decide (2 ≤ ol_ctr s))] ∧
        ol_ctr s' = S (ol_ctr s) ∧ brk = bool_decide (S (ol_ctr s) = 10) ∧
        Forall (λ r, r = Alias) (pose_list s')).
Proof.
  intros Halias. unfold overlap_pass.
  destruct (select_component _) as [[max_ind bin]|]; simpl; [|done].
  destruct (arr_min (np_where bin).*1) as [rmin|]; simpl; [|done].
  destruct (arr_max (np_where bin).*1) as [rmax|]; simpl; [|done].
  destruct (arr_min (np_where bin).*2) as [cmin|]; simpl; [|done].
  destruct (arr_max (np_where bin).*2) as [cmax|]; simpl; [|done].
  case_bool_decide as Hground.
  { intros [= <- <-]. left. simpl. eauto. }
  assert (Hrev : ∀ o, deref o <$> reverse (pose_list s ++ [Alias]) !! 1
                      = (λ _, pose o) <$> reverse (pose_list s ++ [Alias]) !! 1).
  { intros o. destruct (reverse (pose_list s ++ [Alias]) !! 1) as [r|] eqn:Hr; [|done].
    simpl. f_equal. assert (r = Alias) as ->; [|done].
    apply list_elem_of_lookup_2 in Hr. rewrite elem_of_reverse in Hr.
    apply elem_of_app in Hr as [Hr|Hr%list_elem_of_singleton]; [|done].
    by apply (proj1 (Forall_forall _ _) Halias). }
  case_decide as Hctr.
  - rewrite Hrev.
    destruct (reverse (pose_list s ++ [Alias]) !! 1) as [r|]; simpl; [|done].
    rewrite !bool_decide_eq_true_2 by done. simpl.
    destruct (get_overlap _ _) as [[flag int]|]; simpl; [|done].
    intros [= <- <-]. right. simpl. rewrite bool_decide_eq_true_2 by done.
    eexists. repeat split; try done.
    apply Forall_app. split; [done|]. by constructor.
  - simpl. destruct (get_overlap _ _) as [[flag int]|]; simpl; [|done].
    intros [= <- <-]. right. simpl. rewrite bool_decide_eq_false_2 by done.
    eexists. repeat split; try done.
    apply Forall_app. split; [done|]. by constructor.
Qed.

(** C3 fails on the code.  The object [7 0 7] is pushed one column to the
    right by each of the first three passes, so its pose never comes back
    to an earlier value; the third pass flags lateral oscillation all the
    same, because the history holds the live pose array and the test
    compares the pose with itself.  Once the flag is set the escape shift
    is applied again on every later pass: three escape shifts here, not
    one.  Row and column shifting do stay off after the flag. *)
Theorem lateral_osc_flag_without_return :
  ∃ b o,
    run_shape_grammar_overlap label8 10 demo_bag gapped_object false true true
      = Done (b, o, [Shifted (5, 4)%Z false; Shifted (5, 5)%Z false;
                     Shifted (5, 6)%Z true; Shifted (4, 6)%Z true;
                     Shifted (3, 6)%Z true]) ∧
    LATERAL_OSC_FLAG b = true ∧ pose o = (2, 6)%Z.
Proof. eexists _, _. vm_compute. repeat split; reflexivity. Qed.

(** ** Sheet curve fitter: the midpoint recursion *)

(** [a[i]] with a Python integer index: a negative index counts from the
    end, an index outside [-n, n) raises [IndexError]. *)
Definition py_index (n : nat) (i : Z) : option nat :=
  if decide (0 ≤ i < Z.of_nat n)%Z then Some (Z.to_nat i)
  else if decide (- Z.of_nat n ≤ i < 0)%Z then Some (Z.to_nat (i + Z.of_nat n))
  else None.

(** [a[r, c]] with Python integer indices. *)
Definition py_cell (g : grid) (rc : Z * Z) : option Z :=
  i ← py_index (shape g).1 rc.1; j ← py_index (shape g).2 rc.2; cell g i j.

(** [a[:, c]]. *)
Definition get_column (g : grid) (c : Z) : option (list Z) :=
  j ← py_index (shape g).2 c; mapM (.!! j) g.

(** [np.where(col == 0)[0]]. *)
Definition zero_rows (col : list Z) : list nat :=
  nz_row 0 ((λ v, if decide (v = 0%Z) then 1%Z else 0%Z) <$> col).

(** [np.argmin(l)]: the first index of the smallest entry. *)
Definition argmin (l : list Z) : option nat := argmax (Z.opp <$> l).

(** The relocation of a midpoint to the nearest free cell of its column:

      row_zeros_mid_pt = np.where(ws_bag[:, mid_pt[1], slice_no]==0)[0]
      row_ind = np.copy(row_zeros_mid_pt)
      row_zeros_mid_pt -= mid_pt[0]
      mid_pt = array([row_ind[argmin(abs(row_zeros_mid_pt))], mid_pt[1]])   *)
Definition relocate (ws : grid) (mid_pt : Z * Z) : option (Z * Z) :=
  col ← get_column ws mid_pt.2;
  let row_ind := zero_rows col in
  let row_zeros_mid_pt := (λ i, Z.of_nat i - mid_pt.1)%Z <$> row_ind in
  k ← argmin (Z.abs <$> row_zeros_mid_pt);
  r ← row_ind !! k;
  Some (Z.of_nat r, mid_pt.2).

(** [np.average(simplex_pts, axis=0).astype(int)]: the mean of two integer
    points, truncated toward zero. *)
Definition average (p q : Z * Z) : Z * Z := ((p.1 + q.1) ÷ 2, (p.2 + q.2) ÷ 2)%Z.

Abbreviation segment := ((Z * Z) * (Z * Z))%type.

Section MidpointRecursion.
(** [skimage.draw.line]: the cells of the raster line between two
    points. *)
Variable line : Z → Z → Z → Z → list (Z * Z).

(** [np.any(ws_bag[:, :, slice_no][line_pts])]. *)
Definition line_overlap (ws : grid) (simplex_pts : segment) : option bool :=
  let line_pts := line simplex_pts.1.1 simplex_pts.1.2 simplex_pts.2.1 simplex_pts.2.2 in
  vals ← mapM (py_cell ws) line_pts;
  Some (bool_decide (Exists (λ v, v ≠ 0%Z) vals)).

(** [BaggageImage2D.run_midpoint_recursion], with a bound [fuel] on the
    depth of the recursion.  The array it returns, of shape (2, 2, k), is
    the list of its k sub-segments; [dstack] appends. *)
Fixpoint run_midpoint_recursion (fuel : nat) (ws : grid) (simplex_pts : segment)
    : outcome (list segment) :=
  match fuel with
  | 0 => OutOfFuel
  | S fuel' =>
      match line_overlap ws simplex_pts with
      | None => Raised
      | Some false => Done [simplex_pts]
      | Some true =>
          match relocate ws (average simplex_pts.1 simplex_pts.2) with
          | None => Raised
          | Some mid_pt =>
              if decide (mid_pt = simplex_pts.1 ∨ mid_pt = simplex_pts.2)
              then Done [simplex_pts]
              else
                match run_midpoint_recursion fuel' ws (simplex_pts.1, mid_pt) with
                | Done pt_list_1 =>
                    match run_midpoint_recursion fuel' ws (simplex_pts.2, mid_pt) with
                    | Done pt_list_2 => Done (pt_list_1 ++ pt_list_2)
                    | Raised => Raised
                    | OutOfFuel => OutOfFuel
                    end
                | Raised => Raised
                | OutOfFuel => OutOfFuel
                end
          end
      end
  end.
End MidpointRecursion.

(** A cell of column [c] is free when it holds 0. *)
Definition is_free (ws : grid) (c r : Z) : bool :=
  match get_column ws c with
  | Some col => bool_decide (0 ≤ r)%Z && bool_decide (col !! Z.to_nat r = Some 0%Z)
  | None => false
  end.

(** The depth the recursion can reach from a segment: twice the column span,
    plus two, times the height of the band of rows the recursion stays in
    (the rows of the canvas and of the two endpoints). *)
Definition midpoint_rows (ws : grid) (s : segment) : Z :=
  (Z.max (Z.max s.1.1 s.2.1) (Z.of_nat (length ws))
   - Z.min (Z.min s.1.1 s.2.1) 0 + 3)%Z.

Definition midpoint_fuel (ws : grid) (s : segment) : nat :=
  S (Z.to_nat ((2 * Z.abs (s.1.2 - s.2.2) + 2) * midpoint_rows ws s)).

(** [skimage.draw.line] (Bresenham), for the examples. *)
Fixpoint bresenham_steps (n : nat) (steep : bool) (r c sr sc dr dc d : Z) : list (Z * Z) :=
  match n with
  | 0 => []
  | S n' =>
      (if steep then (c, r) else (r, c)) ::
      let '(r, d) := if decide (0 ≤ d)%Z then (r + sr, d - 2 * dc)%Z else (r, d) in
      bresenham_steps n' steep r (c + sc)%Z sr sc dr dc (d + 2 * dr)%Z
  end.

Definition draw_line (r0 c0 r1 c1 : Z) : list (Z * Z) :=
  let dr := Z.abs (r1 - r0) in let dc := Z.abs (c1 - c0) in
  let sc := if decide (0 < c1 - c0)%Z then 1%Z else (-1)%Z in
  let sr := if decide (0 < r1 - r0)%Z then 1%Z else (-1)%Z in
  (if decide (dc < dr)%Z
   then bresenham_steps (Z.to_nat dr) true c0 r0 sc sr dc dr (2 * dc - dr)%Z
   else bresenham_steps (Z.to_nat dc) false r0 c0 sr sc dr dc (2 * dr - dc)%Z)
  ++ [(r1, c1)].

(** ** Relocation picks the nearest free row, the upper one on a tie *)

Lemma quot2_cases a :
  (0 ≤ a → 2 * (a ÷ 2) ≤ a ≤ 2 * (a ÷ 2) + 1)%Z ∧
  (a ≤ 0 → 2 * (a ÷ 2) - 1 ≤ a ≤ 2 * (a ÷ 2))%Z.
Proof.
  pose proof (Z.quot_rem' a 2) as Hqr. split; intros Ha.
  - pose proof (Z.rem_bound_pos_pos a 2 ltac:(lia) Ha). lia.
  - pose proof (Z.rem_bound_pos_neg a 2 ltac:(lia) Ha). lia.
Qed.

Lemma nz_row_sorted c0 row i j a b :
  nz_row c0 row !! i = Some a → nz_row c0 row !! j = Some b → i < j → a < b.
Proof.
  revert c0 i j. induction row as [|v row IH]; intros c0 i j; simpl; [done|].
  assert (Hlow : ∀ k x, nz_row (S c0) row !! k = Some x → c0 < x).
  { intros k x Hx. apply list_elem_of_lookup_2, elem_of_nz_row in Hx as (? & ? & _). lia. }
  case_decide.
  - apply IH.
  - destruct i as [|i], j as [|j]; simpl; try lia.
    + intros [= <-] Hb _. by eapply Hlow.
    + intros Ha Hb Hij. eapply IH; [done..|lia].
Qed.

Lemma elem_of_zero_rows col r : r ∈ zero_rows col ↔ col !! r = Some 0%Z.
Proof.
  unfold zero_rows. rewrite elem_of_nz_row. rewrite Nat.sub_0_r. split.
  - intros (v & _ & Hv & Hnz). rewrite list_lookup_fmap in Hv.
    destruct (col !! r) as [u|]; simplify_eq/=. by case_decide; simplify_eq.
  - intros Hr. exists 1%Z. split; [lia|]. rewrite list_lookup_fmap, Hr. simpl.
    done.
Qed.

Lemma argmin_spec l k :
  argmin l = Some k →
  ∃ m, l !! k = Some m ∧
       ∀ j v, l !! j = Some v → (m ≤ v)%Z ∧ (j < k → (m < v)%Z).
Proof.
  intros Hk. apply argmax_spec in Hk as (m & Hm & Hbest).
  rewrite list_lookup_fmap in Hm. destruct (l !! k) as [m'|] eqn:Hm'; simplify_eq/=.
  exists m'. split; [done|]. intros j v Hj.
  destruct (Hbest j (- v)%Z) as [H1 H2]; [by rewrite list_lookup_fmap, Hj|]. lia.
Qed.

Lemma length_get_column ws c col : get_column ws c = Some col → length col = length ws.
Proof.
  unfold get_column. destruct (py_index _ _) as [j|]; simpl; [|done].
  intros Hcol. by apply length_mapM in Hcol.
Qed.

Lemma is_free_bound ws c r : is_free ws c r = true → (0 ≤ r < Z.of_nat (length ws))%Z.
Proof.
  unfold is_free. destruct (get_column ws c) as [col|] eqn:Hcol; [|done].
  intros [H0 Hr]%andb_prop. apply bool_decide_eq_true in H0, Hr.
  apply lookup_lt_Some in Hr. rewrite (length_get_column _ _ _ Hcol) in Hr. lia.
Qed.

Lemma relocate_spec ws x c f c' :
  relocate ws (x, c) = Some (f, c') →
  c' = c ∧ is_free ws c f = true ∧
  ∀ g, is_free ws c g = true →
       (Z.abs (f - x) ≤ Z.abs (g - x))%Z ∧ (Z.abs (g - x) = Z.abs (f - x) → f ≤ g)%Z.
Proof.
  unfold relocate, is_free; simpl.
  destruct (get_column ws c) as [col|]; simpl; [|done].
  destruct (argmin _) as [k|] eqn:Hk; simpl; [|done].
  destruct (zero_rows col !! k) as [r|] eqn:Hr; simpl; [|done].
  intros [= <- <-]. split; [done|].
  apply argmin_spec in Hk as (m & Hm & Hbest).
  rewrite !list_lookup_fmap, Hr in Hm. simpl in Hm. injection Hm as <-.
  split.
  - rewrite bool_decide_eq_true_2 by lia. simpl. apply bool_decide_eq_true_2.
    rewrite Nat2Z.id. apply elem_of_zero_rows. by eapply list_elem_of_lookup_2.
  - intros g [H0 Hg]%andb_prop. apply bool_decide_eq_true in H0, Hg.
    apply elem_of_zero_rows, list_elem_of_lookup_1 in Hg. destruct Hg as [j Hj].
    destruct (Hbest j (Z.abs (Z.of_nat (Z.to_nat g) - x))) as [Hle Hlt].
    { by rewrite !list_lookup_fmap, Hj. }
    rewrite Z2Nat.id in Hle, Hlt by done. split; [done|]. intros Heq.
    destruct (decide (j < k)) as [Hjk|Hjk]; [specialize (Hlt Hjk); lia|].
    destruct (decide (j = k)) as [->|Hne]; [simplify_eq; lia|].
    pose proof (nz_row_sorted _ _ _ _ _ _ Hr Hj ltac:(lia)). lia.
Qed.

(** ** Termination of the midpoint recursion *)

(** The recursion is ordered by two numbers.  [seg_class] is twice the
    column span of a segment, plus one when its second endpoint is not yet
    a free cell of the midpoint column (it is after one more step).
    [seg_rows] is the row span, plus two when the second endpoint lies
    below a first endpoint that is not a free cell of the same column. *)
Definition seg_class (ws : grid) (s : segment) : Z :=
  (2 * Z.abs (s.1.2 - s.2.2)
   + (if bool_decide (s.2.2 = (s.1.2 + s.2.2) ÷ 2) && is_free ws s.2.2 s.2.1
      then 0 else 1))%Z.

Definition seg_rows (ws : grid) (s : segment) : Z :=
  (Z.abs (s.1.1 - s.2.1)
   + (if bool_decide (s.1.1 < s.2.1)
         && negb (bool_decide (s.1.2 = s.2.2) && is_free ws s.1.2 s.1.1)
      then 2 else 0))%Z.

(** Columns: a child never has a larger class than twice the parent's
    column span, and reaches it only when the parent is vertical or spans
    two adjacent columns with the child's first endpoint off the midpoint
    column. *)
Lemma child_class_le (pc qc xc : Z) :
  xc = pc ∨ xc = qc →
  let cm := ((pc + qc) ÷ 2)%Z in
  let c' := (2 * Z.abs (xc - cm) + (if bool_decide (cm = (xc + cm) ÷ 2) then 0 else 1))%Z in
  (c' ≤ 2 * Z.abs (pc - qc))%Z ∧
  (c' = 2 * Z.abs (pc - qc) → pc = qc ∨ (Z.abs (pc - qc) = 1 ∧ xc ≠ cm))%Z.
Proof.
  intros HX cm c'. subst c'.
  pose proof (quot2_cases (pc + qc)) as Hcm. fold cm in Hcm.
  pose proof (quot2_cases (xc + cm)) as Hm.
  set (m := ((xc + cm) ÷ 2)%Z) in *. clearbody cm m.
  case_bool_decide; destruct HX; subst xc; lia.
Qed.

(** Rows, for the first endpoint [p]: [q] is free in the midpoint column,
    [f] is the nearest free row to the middle [x] and differs from [q];
    [bP] tells whether [p] is a free cell of that same column. *)
Lemma child_rows_lt_first (p q f x : Z) (bP : bool) :
  ((0 ≤ p + q → 2 * x ≤ p + q ≤ 2 * x + 1) ∧ (p + q ≤ 0 → 2 * x - 1 ≤ p + q ≤ 2 * x))%Z →
  (0 ≤ q)%Z → (0 ≤ f)%Z → f ≠ q →
  (Z.abs (f - x) ≤ Z.abs (q - x))%Z → (Z.abs (q - x) = Z.abs (f - x) → f ≤ q)%Z →
  (bP = true → 0 ≤ p ∧ f ≠ p ∧ Z.abs (f - x) ≤ Z.abs (p - x))%Z →
  (Z.abs (p - f) + (if bool_decide (p < f)%Z && negb bP then 2 else 0)
   < Z.abs (p - q) + (if bool_decide (p < q)%Z && negb bP then 2 else 0))%Z.
Proof.
  intros Hx Hq Hf Hfq Hnear Htie HbP.
  destruct bP; [specialize (HbP eq_refl)|clear HbP];
    rewrite ?andb_false_r, ?andb_true_r; repeat case_bool_decide; lia.
Qed.

(** Rows, for the second endpoint [q] of a vertical parent. *)
Lemma child_rows_lt_second (p q f x : Z) (bP : bool) :
  ((0 ≤ p + q → 2 * x ≤ p + q ≤ 2 * x + 1) ∧ (p + q ≤ 0 → 2 * x - 1 ≤ p + q ≤ 2 * x))%Z →
  (0 ≤ q)%Z → (0 ≤ f)%Z → f ≠ q →
  (Z.abs (f - x) ≤ Z.abs (q - x))%Z → (Z.abs (q - x) = Z.abs (f - x) → f ≤ q)%Z →
  (bP = true → 0 ≤ p ∧ f ≠ p ∧ Z.abs (f - x) ≤ Z.abs (p - x))%Z →
  (Z.abs (q - f) < Z.abs (p - q) + (if bool_decide (p < q)%Z && negb bP then 2 else 0))%Z.
Proof.
  intros Hx Hq Hf Hfq Hnear Htie HbP.
  destruct bP; [specialize (HbP eq_refl)|clear HbP];
    rewrite ?andb_false_r, ?andb_true_r; repeat case_bool_decide; lia.
Qed.

Lemma midpoint_child_decreases ws (P Q M X : Z * Z) :
  relocate ws (average P Q) = Some M → M ≠ P → M ≠ Q → X = P ∨ X = Q →
  (seg_class ws (X, M) < seg_class ws (P, Q))%Z ∨
  (seg_class ws (X, M) = seg_class ws (P, Q) ∧
   (seg_rows ws (X, M) < seg_rows ws (P, Q))%Z).
Proof.
  destruct P as [p pc], Q as [q qc], M as [f mc], X as [xr xc]. unfold average; simpl.
  intros Hrel HMP HMQ HX.
  apply relocate_spec in Hrel as (-> & Hf & Hnear).
  pose proof (is_free_bound _ _ _ Hf) as Hfb.
  pose proof (quot2_cases (p + q)) as Hx.
  assert (HXc : xc = pc ∨ xc = qc) by (destruct HX; simplify_eq; auto).
  destruct (child_class_le pc qc xc HXc) as [Hle Heq].
  unfold seg_class, seg_rows; simpl. rewrite Hf, andb_true_r.
  destruct (bool_decide (qc = (pc + qc) ÷ 2)%Z && is_free ws qc q) eqn:Hgood;
    [|left; lia].
  apply andb_prop in Hgood as [Hqc%bool_decide_eq_true Hq].
  destruct (decide (2 * Z.abs (xc - (pc + qc) ÷ 2)
                    + (if bool_decide ((pc + qc) ÷ 2 = (xc + (pc + qc) ÷ 2) ÷ 2)%Z
                       then 0 else 1) = 2 * Z.abs (pc - qc))%Z) as [Hsame|Hless];
    [|left; lia].
  right. split; [lia|]. specialize (Heq Hsame).
  rewrite <-Hqc in *.
  pose proof (is_free_bound _ _ _ Hq) as Hqb.
  destruct (Hnear q Hq) as [Hnq Htq].
  assert (Hfq : f ≠ q) by (intros ->; done).
  assert (HbP : bool_decide (pc = qc) && is_free ws pc p = true →
                (0 ≤ p ∧ f ≠ p ∧ Z.abs (f - (p + q) ÷ 2) ≤ Z.abs (p - (p + q) ÷ 2))%Z).
  { intros [Hpc%bool_decide_eq_true Hp]%andb_prop. subst pc.
    pose proof (is_free_bound _ _ _ Hp). split; [lia|]. split.
    - intros ->. done.
    - by apply Hnear. }
  destruct HX as [[= -> ->]|[= -> ->]].
  - apply (child_rows_lt_first p q f ((p + q) ÷ 2)%Z); try done; lia.
  - rewrite (bool_decide_eq_true_2 (qc = qc)) by done. rewrite Hq. simpl.
    rewrite andb_false_r, Z.add_0_r.
    destruct Heq as [->|[_ Hne]]; [|done].
    apply (child_rows_lt_second p q f ((p + q) ÷ 2)%Z
             (bool_decide (qc = qc) && is_free ws qc p)); try done; lia.
Qed.

Lemma seg_class_bounds ws (s : segment) :
  (0 ≤ seg_class ws s ≤ 2 * Z.abs (s.1.2 - s.2.2) + 1)%Z.
Proof. unfold seg_class. destruct (_ && _); lia. Qed.

Lemma seg_rows_bounds ws (s : segment) :
  (0 ≤ seg_rows ws s ≤ Z.abs (s.1.1 - s.2.1) + 2)%Z.
Proof. unfold seg_rows. destruct (_ && _); lia. Qed.

Section MidpointTermination.
Variable line : Z → Z → Z → Z → list (Z * Z).
Variable ws : grid.
Variables lo hi : Z.
Hypothesis lo_le : (lo ≤ 0)%Z.
Hypothesis hi_ge : (Z.of_nat (length ws) ≤ hi)%Z.

(** Both endpoints lie in the band of rows [lo, hi]. *)
Definition in_band (s : segment) : Prop :=
  (lo ≤ s.1.1 ≤ hi ∧ lo ≤ s.2.1 ≤ hi)%Z.

Lemma midpoint_terminates_in_band (n : nat) (s : segment) :
  in_band s →
  (seg_class ws s * (hi - lo + 3) + seg_rows ws s < Z.of_nat n)%Z →
  run_midpoint_recursion line n ws s ≠ OutOfFuel.
Proof using lo_le hi_ge.
  revert s. induction n as [|n IH]; intros s Hband Hmu.
  { pose proof (seg_class_bounds ws s). pose proof (seg_rows_bounds ws s). nia. }
  simpl. destruct (line_overlap line ws s) as [[|]|]; [|done..].
  destruct (relocate ws (average s.1 s.2)) as [mid_pt|] eqn:Hrel; [|done].
  case_decide as Hmid; [done|].
  assert (Hchild : ∀ X, X = s.1 ∨ X = s.2 →
            run_midpoint_recursion line n ws (X, mid_pt) ≠ OutOfFuel).
  { intros X HX. apply IH.
    - destruct s as [[p pc] [q qc]], mid_pt as [f mc]. simpl in *.
      apply relocate_spec in Hrel as (_ & Hf%is_free_bound & _).
      unfold in_band in *; simpl in *. destruct HX as [->| ->]; simpl; lia.
    - destruct s as [P Q]. simpl in *.
      pose proof (midpoint_child_decreases ws P Q mid_pt X Hrel
                    ltac:(tauto) ltac:(tauto) HX) as Hdec.
      pose proof (seg_rows_bounds ws (X, mid_pt)) as Hr1.
      pose proof (seg_rows_bounds ws (P, Q)) as Hr2.
      pose proof (seg_class_bounds ws (X, mid_pt)) as Hc1.
      assert (Z.abs ((X, mid_pt).1.1 - (X, mid_pt).2.1) ≤ hi - lo)%Z.
      { destruct P as [p pc], Q as [q qc], mid_pt as [f mc]. simpl in *.
        apply relocate_spec in Hrel as (_ & Hf%is_free_bound & _).
        unfold in_band in *; simpl in *. destruct HX as [->| ->]; simpl; lia. }
      nia. }
  destruct (run_midpoint_recursion line n ws (s.1, mid_pt)) eqn:H1;
    [|done|by exfalso; eapply (Hchild s.1); [left|]].
  destruct (run_midpoint_recursion line n ws (s.2, mid_pt)) eqn:H2;
    [done|done|by exfalso; eapply (Hchild s.2); [right|]].
Qed.
End MidpointTermination.

Lemma midpoint_fuel_suffices line ws (s : segment) (fuel : nat) :
  midpoint_fuel ws s ≤ fuel → run_midpoint_recursion line fuel ws s ≠ OutOfFuel.
Proof.
  intros Hfuel.
  apply (midpoint_terminates_in_band line ws
           (Z.min (Z.min s.1.1 s.2.1) 0)
           (Z.max (Z.max s.1.1 s.2.1) (Z.of_nat (length ws)))); [lia|lia|..].
  - unfold in_band. lia.
  - pose proof (seg_class_bounds ws s). pose proof (seg_rows_bounds ws s).
    unfold midpoint_fuel, midpoint_rows in Hfuel.
    set (R := (Z.max (Z.max s.1.1 s.2.1) (Z.of_nat (length ws))
               - Z.min (Z.min s.1.1 s.2.1) 0 + 3)%Z) in *.
    assert (Z.abs (s.1.1 - s.2.1) + 3 ≤ R)%Z by (unfold R; lia).
    nia.
Qed.

Lemma run_midpoint_recursion_nonempty line fuel ws s l :
  run_midpoint_recursion line fuel ws s = Done l → l ≠ [].
Proof.
  revert s l. induction fuel as [|fuel IH]; intros s l; simpl; [done|].
  destruct (line_overlap line ws s) as [[|]|]; [|by intros [= <-]|done].
  destruct (relocate ws (average s.1 s.2)) as [mid_pt|]; [|done].
  case_decide; [by intros [= <-]|].
  destruct (run_midpoint_recursion line fuel ws (s.1, mid_pt)) as [l1| |] eqn:H1; [|done..].
  destruct (run_midpoint_recursion line fuel ws (s.2, mid_pt)) as [l2| |] eqn:H2; [|done..].
  intros [= <-]. apply IH in H1. by destruct l1.
Qed.

(** More fuel does not change a result. *)
Lemma run_midpoint_recursion_fuel line fuel k ws s :
  run_midpoint_recursion line fuel ws s ≠ OutOfFuel →
  run_midpoint_recursion line (fuel + k) ws s = run_midpoint_recursion line fuel ws s.
Proof.
  revert s. induction fuel as [|fuel IH]; intros s; simpl; [done|].
  destruct (line_overlap line ws s) as [[|]|]; [|done..].
  destruct (relocate ws (average s.1 s.2)) as [mid_pt|]; [|done].
  case_decide; [done|].
  destruct (run_midpoint_recursion line fuel ws (s.1, mid_pt)) as [l1| |] eqn:H1.
  - rewrite (IH (s.1, mid_pt)) by (by rewrite H1). rewrite H1.
    destruct (run_midpoint_recursion line fuel ws (s.2, mid_pt)) as [l2| |] eqn:H2.
    + rewrite (IH (s.2, mid_pt)) by (by rewrite H2). by rewrite H2.
    + rewrite (IH (s.2, mid_pt)) by (by rewrite H2). by rewrite H2.
    + done.
  - rewrite (IH (s.1, mid_pt)) by (by rewrite H1). by rewrite H1.
  - done.
Qed.

(** C8: the recursion ends on every branch: from [midpoint_fuel] on, the
    bound on the depth is never reached and the result no longer depends
    on it.  A call returns its segment unsplit in exactly two cases: the
    raster line between the endpoints meets no occupied cell, or it does
    and the relocated midpoint is one of the two endpoints; in the second
    case the segment is returned although its line overlaps. *)
Theorem run_midpoint_recursion_terminates
    (line : Z → Z → Z → Z → list (Z * Z)) (ws : grid) (s : segment) :
  (∀ fuel, midpoint_fuel ws s ≤ fuel →
     run_midpoint_recursion line fuel ws s ≠ OutOfFuel ∧
     run_midpoint_recursion line fuel ws s
       = run_midpoint_recursion line (midpoint_fuel ws s) ws s) ∧
  (∀ fuel,
     run_midpoint_recursion line (S fuel) ws s = Done [s] ↔
     line_overlap line ws s = Some false ∨
     (line_overlap line ws s = Some true ∧
      ∃ mid_pt, relocate ws (average s.1 s.2) = Some mid_pt ∧
                (mid_pt = s.1 ∨ mid_pt = s.2))).
Proof.
  split.
  - intros fuel Hfuel. split; [by apply midpoint_fuel_suffices|].
    replace fuel with (midpoint_fuel ws s + (fuel - midpoint_fuel ws s)) by lia.
    apply run_midpoint_recursion_fuel. by apply midpoint_fuel_suffices.
  - intros fuel. simpl.
    destruct (line_overlap line ws s) as [[|]|]; [|naive_solver..].
    destruct (relocate ws (average s.1 s.2)) as [mid_pt|]; [|naive_solver].
    case_decide as Hmid; [naive_solver|].
    split; [|naive_solver].
    destruct (run_midpoint_recursion line fuel ws (s.1, mid_pt)) as [l1| |] eqn:H1; [|done..].
    destruct (run_midpoint_recursion line fuel ws (s.2, mid_pt)) as [l2| |] eqn:H2; [|done..].
    apply run_midpoint_recursion_nonempty in H1, H2.
    intros [= Hl]. destruct l1 as [|? [|]], l2; simplify_eq/=.
Qed.

Lemma run_midpoint_recursion_terminates_witness :
  run_midpoint_recursion draw_line 271 demo_canvas ((2, 1), (8, 9))%Z ≠ OutOfFuel ∧
  run_midpoint_recursion draw_line 271 demo_canvas ((2, 1), (8, 9))%Z
    = run_midpoint_recursion draw_line
        (midpoint_fuel demo_canvas ((2, 1), (8, 9))%Z) demo_canvas ((2, 1), (8, 9))%Z.
Proof.
  apply (proj1 (run_midpoint_recursion_terminates draw_line demo_canvas
                  ((2, 1), (8, 9))%Z) 271).
  vm_compute. lia.
Defined.

(** ** Sheet curve generation and the gravity rule *)

(** [a[rr, cc] = v] over index arrays with Python integer indices. *)
Definition py_assign_const (g : grid) (idx : list (Z * Z)) (v : Z) : option grid :=
  foldl (λ acc rc, g' ← acc;
                   i ← py_index (shape g').1 rc.1; j ← py_index (shape g').2 rc.2;
                   set_cell g' i j v) (Some g) idx.

(** [a.min()] and [a.max()] of an integer array. *)
Definition z_min (l : list Z) : option Z :=
  match l with [] => None | x :: t => Some (foldl Z.min x t) end.

Definition z_max (l : list Z) : option Z :=
  match l with [] => None | x :: t => Some (foldl Z.max x t) end.

(** [np.clip(x, lo, hi)]. *)
Definition clip (x lo hi : Z) : Z := Z.min (Z.max x lo) hi.

(** The bounds [_adjust_for_boundaries] and the ground line use. *)
Definition lower_bound (b : Bag) : Z * Z :=
  match extents b with
  | None => (size b / 2 - bb_h b, size b / 2 - bb_h b)%Z
  | Some e => (size b / 2 - e.1 / 2, size b / 2 - e.2 / 2)%Z
  end.

Definition upper_bound (b : Bag) : Z * Z :=
  match extents b with
  | None => (size b / 2 + bb_h b, size b / 2 + bb_h b)%Z
  | Some e => (size b / 2 + e.1 / 2, size b / 2 + e.2 / 2)%Z
  end.

(** [BaggageImage2D._adjust_for_boundaries]. *)
Definition _adjust_for_boundaries (b : Bag) (bag_obj : Object2D) : Object2D :=
  let lower := lower_bound b in
  let upper := upper_bound b in
  let bag_obj :=
    if decide ((pose bag_obj).1 ≤ lower.1)%Z then
      let pose_diff_0 := (lower.1 - (pose bag_obj).1)%Z in
      let o := set_pose bag_obj (lower.1, (pose bag_obj).2) in
      let o := set_dim o ((dim o).1 - pose_diff_0, (dim o).2)%Z in
      set_data o (slice2 (data o) (Some (- (dim o).1)%Z) None None None)
    else bag_obj in
  let bag_obj :=
    if decide (upper.1 ≤ (pose bag_obj).1 + (dim bag_obj).1)%Z then
      let pose_diff_0 := ((pose bag_obj).1 + (dim bag_obj).1 - upper.1)%Z in
      let o := set_dim bag_obj ((dim bag_obj).1 - pose_diff_0, (dim bag_obj).2)%Z in
      set_data o (slice2 (data o) None (Some (dim o).1) None None)
    else bag_obj in
  let bag_obj :=
    if decide ((pose bag_obj).2 ≤ lower.2)%Z then
      let pose_diff_0 := (lower.2 - (pose bag_obj).2)%Z in
      let o := set_pose bag_obj ((pose bag_obj).1, lower.2) in
      let o := set_dim o ((dim o).1, (dim o).2 - pose_diff_0)%Z in
      set_data o (slice2 (data o) None None (Some (- (dim o).2)%Z) None)
    else bag_obj in
  if decide (upper.2 ≤ (pose bag_obj).2 + (dim bag_obj).2)%Z then
    let pose_diff_0 := ((pose bag_obj).2 + (dim bag_obj).2 - upper.2)%Z in
    let o := set_dim bag_obj ((dim bag_obj).1, (dim bag_obj).2 - pose_diff_0)%Z in
    set_data o (slice2 (data o) None None None (Some (dim o).2))
  else bag_obj.

(** The four blocks of [_adjust_for_boundaries], one per side of the
    container, named so that proofs can go through them one at a time. *)
Definition clamp_top (b : Bag) (bag_obj : Object2D) : Object2D :=
  let lower := lower_bound b in
  if decide ((pose bag_obj).1 ≤ lower.1)%Z then
    let pose_diff_0 := (lower.1 - (pose bag_obj).1)%Z in
    let o := set_pose bag_obj (lower.1, (pose bag_obj).2) in
    let o := set_dim o ((dim o).1 - pose_diff_0, (dim o).2)%Z in
    set_data o (slice2 (data o) (Some (- (dim o).1)%Z) None None None)
  else bag_obj.

Definition clamp_bottom (b : Bag) (bag_obj : Object2D) : Object2D :=
  let upper := upper_bound b in
  if decide (upper.1 ≤ (pose bag_obj).1 + (dim bag_obj).1)%Z then
    let pose_diff_0 := ((pose bag_obj).1 + (dim bag_obj).1 - upper.1)%Z in
    let o := set_dim bag_obj ((dim bag_obj).1 - pose_diff_0, (dim bag_obj).2)%Z in
    set_data o (slice2 (data o) None (Some (dim o).1) None None)
  else bag_obj.

Definition clamp_left (b : Bag) (bag_obj : Object2D) : Object2D :=
  let lower := lower_bound b in
  if decide ((pose bag_obj).2 ≤ lower.2)%Z then
    let pose_diff_0 := (lower.2 - (pose bag_obj).2)%Z in
    let o := set_pose bag_obj ((pose bag_obj).1, lower.2) in
    let o := set_dim o ((dim o).1, (dim o).2 - pose_diff_0)%Z in
    set_data o (slice2 (data o) None None (Some (- (dim o).2)%Z) None)
  else bag_obj.

Definition clamp_right (b : Bag) (bag_obj : Object2D) : Object2D :=
  let upper := upper_bound b in
  if decide (upper.2 ≤ (pose bag_obj).2 + (dim bag_obj).2)%Z then
    let pose_diff_0 := ((pose bag_obj).2 + (dim bag_obj).2 - upper.2)%Z in
    let o := set_dim bag_obj ((dim bag_obj).1, (dim bag_obj).2 - pose_diff_0)%Z in
    set_data o (slice2 (data o) None None None (Some (dim o).2))
  else bag_obj.

Lemma adjust_for_boundaries_stages b bag_obj :
  _adjust_for_boundaries b bag_obj
  = clamp_right b (clamp_left b (clamp_bottom b (clamp_top b bag_obj))).
Proof. reflexivity. Qed.

(** Turning an [option] into an [outcome]: [None] is a raised exception. *)
Definition raised_if_none {A} (o : option A) : outcome A :=
  match o with Some a => Done a | None => Raised end.

Definition obind {A B} (m : outcome A) (k : A → outcome B) : outcome B :=
  match m with Done a => k a | Raised => Raised | OutOfFuel => OutOfFuel end.

Notation "'do' x '<-' m ';' k" := (obind m (λ x, k))
  (at level 10, x binder, m at level 100, k at level 200).

Section GravityRule.
Variable label_components : grid → grid.
Variable line : Z → Z → Z → Z → list (Z * Z).
(** [binary_dilation(data, disk(radius))] of skimage. *)
Variable binary_dilation : grid → Z → grid.

(** An endpoint on an occupied cell moves to the nearest free cell of its
    column (the loop body of [generate_sheet_curve]). *)
Definition free_endpoint (ws : grid) (pt : Z * Z) : option (Z * Z) :=
  v ← py_cell ws pt;
  if decide (0 < v)%Z then relocate ws pt else Some pt.

(** [BaggageImage2D.generate_sheet_curve].  The float midpoint of the two
    endpoints is truncated by the [astype(int)] at the head of
    [run_midpoint_recursion]; the recursion runs with the fuel that
    [midpoint_fuel] computes for its segment. *)
Definition generate_sheet_curve (b : Bag) (bag_obj : Object2D) : outcome Object2D :=
  let ws := ws_bag b in
  let hi := (2 * bb_h b - 1)%Z in
  let to_bag (pt : Z * Z) : Z * Z :=
    (clip (pt.1 + (pose bag_obj).1) 0 hi, clip (pt.2 + (pose bag_obj).2) 0 hi) in
  do pt0 <- raised_if_none (free_endpoint ws (to_bag (curve_pts bag_obj).1));
  do pt1 <- raised_if_none (free_endpoint ws (to_bag (curve_pts bag_obj).2));
  let mid_pt := average pt0 pt1 in
  let simplex_1 := (pt0, mid_pt) in
  let simplex_2 := (pt1, mid_pt) in
  do fin_curve_pts_1 <-
    run_midpoint_recursion line (midpoint_fuel ws simplex_1) ws simplex_1;
  do fin_curve_pts_2 <-
    run_midpoint_recursion line (midpoint_fuel ws simplex_2) ws simplex_2;
  let fin_curve_pts := fin_curve_pts_1 ++ fin_curve_pts_2 in
  let rows := fin_curve_pts ≫= (λ s : segment, [s.1.1; s.2.1]) in
  let cols := fin_curve_pts ≫= (λ s : segment, [s.1.2; s.2.2]) in
  do cpt_row_min <- raised_if_none (z_min rows);
  do cpt_row_max <- raised_if_none (z_max rows);
  do cpt_col_min <- raised_if_none (z_min cols);
  do cpt_col_max <- raised_if_none (z_max cols);
  let bin_data := zeros (Z.to_nat (cpt_row_max - cpt_row_min + 1))
                        (Z.to_nat (cpt_col_max - cpt_col_min + 1)) in
  do bin_data <- raised_if_none
    (foldl (λ acc (s : segment),
              d ← acc;
              py_assign_const d (line (s.1.1 - cpt_row_min) (s.1.2 - cpt_col_min)
                                      (s.2.1 - cpt_row_min) (s.2.2 - cpt_col_min))%Z 1)
           (Some bin_data) fin_curve_pts);
  Done (set_data (set_pose bag_obj (cpt_row_min, cpt_col_min)) bin_data).

(** [BaggageImage2D.inflate_sheet]. *)
Definition inflate_sheet (b : Bag) (bag_obj : Object2D) : outcome Object2D :=
  let bag_obj := set_data bag_obj
                   (binary_dilation (astype_bool (data bag_obj)) (axes bag_obj).1) in
  do ov <- raised_if_none (get_overlap b bag_obj);
  do d <- raised_if_none (assign_const (data bag_obj) (np_where ov.2) 0);
  Done (set_data bag_obj
          ((λ row : list Z, (λ v, v * label bag_obj)%Z <$> row) <$> astype_bool d)).

(** The inner loop of the gravity rule,

      while OVERLAP_FLAG:
          ol_ctr +=1
          bag_obj = self.run_shape_grammar_overlap(bag_obj, fix_obj=False)
          OVERLAP_FLAG, temp = self.get_overlap(bag_obj)
          osc_cond = ...
          if ol_ctr>10: ol_ctr = 0; OVERLAP_FLAG = False; break

    entered with [OVERLAP_FLAG] set and run with a bound [fuel] on its
    passes ([fuel_in] is the bound handed to the overlap rule); it
    returns the bag, the object, [ol_ctr] and [osc_cond]. *)
Fixpoint resolve_loop (fuel fuel_in : nat) (b : Bag) (bag_obj : Object2D)
    (ol_ctr : nat) (prev_pose : pose_ref) : outcome (Bag * Object2D * nat * bool) :=
  match fuel with
  | 0 => OutOfFuel
  | S fuel' =>
      let ol_ctr := S ol_ctr in
      do r <- run_shape_grammar_overlap label_components fuel_in b bag_obj
                false true true;
      let '(b, bag_obj, _) := r in
      do ov <- raised_if_none (get_overlap b bag_obj);
      let osc_cond := bool_decide ((pose bag_obj).1 = (deref bag_obj prev_pose).1) &&
                      bool_decide ((pose bag_obj).2 = (deref bag_obj prev_pose).2) in
      if decide (10 < ol_ctr) then Done (b, bag_obj, 0, osc_cond)
      else if ov.1 : bool then resolve_loop fuel' fuel_in b bag_obj ol_ctr prev_pose
      else Done (b, bag_obj, ol_ctr, osc_cond)
  end.

(** The local variables of [run_shape_grammar_overlap_and_gravity] that
    live across passes of its outer loop; [COLL_FLAG] is unbound until
    its assignment first succeeds. *)
Record GravityState := {
  g_bag : Bag;
  g_obj : Object2D;
  g_ol_ctr : nat;
  drop_ctr : nat;
  COLL_FLAG : option bool;
}.

(** One pass of [while drop_ctr < 50], after [drop_ctr += 1] and the
    downward step [bag_obj.pose[0] += z_inc]: the branch of sheet objects
    and the branch of all others.  [b] is the bag with [LATERAL_OSC_FLAG]
    reset, [prev_pose] the copy of the pose before the step.  The boolean
    tells whether the pass left the loop by [break]. *)
Definition gravity_pass_sheet (s : GravityState) (b : Bag) (bag_obj : Object2D)
    : outcome (GravityState * bool) :=
  let ground_y := (upper_bound (g_bag s)).1 in
  let x_dist := ((pose bag_obj).1 + (curve_pts bag_obj).1.1,
                 (pose bag_obj).1 + (curve_pts bag_obj).2.1)%Z in
  let SHEET_GROUND_FLAG :=
    bool_decide (ground_y ≤ x_dist.1)%Z || bool_decide (ground_y ≤ x_dist.2)%Z in
  let coll :=
    match py_cell (ws_bag b) (curve_pts bag_obj).1 with
    | None => COLL_FLAG s
    | Some v0 =>
        if decide (0 < v0)%Z then Some true
        else match py_cell (ws_bag b) (curve_pts bag_obj).2 with
             | None => COLL_FLAG s
             | Some v1 => Some (bool_decide (0 < v1)%Z)
             end
    end in
  do go <- (if SHEET_GROUND_FLAG then Done true else raised_if_none coll);
  if go : bool then
    let ground_diff := Z.max (Z.max (x_dist.1 - ground_y) (x_dist.2 - ground_y)) 0 in
    let c0 := if decide (ground_y < x_dist.1)%Z
              then ((curve_pts bag_obj).1.1 - ground_diff, (curve_pts bag_obj).1.2)%Z
              else (curve_pts bag_obj).1 in
    let c1 := if decide (ground_y < x_dist.2)%Z
              then ((curve_pts bag_obj).2.1 - ground_diff, (curve_pts bag_obj).2.2)%Z
              else (curve_pts bag_obj).2 in
    let bag_obj := set_curve_pts bag_obj (c0, c1) in
    do bag_obj <- generate_sheet_curve b bag_obj;
    do bag_obj <- inflate_sheet b bag_obj;
    do ws <- raised_if_none (place_object_in_bag (ws_bag b) bag_obj);
    Done ({| g_bag := set_ws_bag b ws; g_obj := bag_obj; g_ol_ctr := g_ol_ctr s;
             drop_ctr := S (drop_ctr s); COLL_FLAG := coll |}, true)
  else
    Done ({| g_bag := b; g_obj := bag_obj; g_ol_ctr := g_ol_ctr s;
             drop_ctr := S (drop_ctr s); COLL_FLAG := coll |}, false).

Definition gravity_pass_rigid (fuel : nat) (s : GravityState) (b : Bag)
    (bag_obj : Object2D) (prev_pose : pose_ref) : outcome (GravityState * bool) :=
  let ground_y := (upper_bound (g_bag s)).1 in
  let GROUND_FLAG := bool_decide (ground_y ≤ (pose bag_obj).1 + (dim bag_obj).1)%Z in
  do ov <- raised_if_none (get_overlap b bag_obj);
  if GROUND_FLAG then
    let g_diff := ((pose bag_obj).1 + (dim bag_obj).1 - ground_y)%Z in
    let bag_obj := set_pose bag_obj ((pose bag_obj).1 - g_diff, (pose bag_obj).2)%Z in
    do ov <- raised_if_none (get_overlap b bag_obj);
    if ov.1 : bool then
      do r <- run_shape_grammar_overlap label_components fuel b bag_obj
                false false true;
      let '(b, bag_obj, _) := r in
      do ws <- raised_if_none (place_object_in_bag (ws_bag b) bag_obj);
      Done ({| g_bag := set_ws_bag b ws; g_obj := bag_obj; g_ol_ctr := g_ol_ctr s;
               drop_ctr := S (drop_ctr s); COLL_FLAG := COLL_FLAG s |}, true)
    else
      Done ({| g_bag := b; g_obj := bag_obj; g_ol_ctr := g_ol_ctr s;
               drop_ctr := S (drop_ctr s); COLL_FLAG := COLL_FLAG s |}, true)
  else
    do r <- (if ov.1 : bool
             then resolve_loop fuel fuel (set_LATERAL_OSC_FLAG b false) bag_obj
                               (g_ol_ctr s) prev_pose
             else Done (b, bag_obj, g_ol_ctr s, false));
    let '(b, bag_obj, ol_ctr, osc_cond) := r in
    Done ({| g_bag := b; g_obj := bag_obj; g_ol_ctr := ol_ctr;
             drop_ctr := S (drop_ctr s); COLL_FLAG := COLL_FLAG s |},
          osc_cond || LATERAL_OSC_FLAG b).

Definition gravity_pass (fuel : nat) (z_inc : Z) (s : GravityState)
    : outcome (GravityState * bool) :=
  let b := set_LATERAL_OSC_FLAG (g_bag s) false in
  let prev_pose := Copy (pose (g_obj s)) in
  let bag_obj := set_pose (g_obj s) ((pose (g_obj s)).1 + z_inc, (pose (g_obj s)).2)%Z in
  match obj_shape bag_obj with
  | ShS => gravity_pass_sheet s b bag_obj
  | _ => gravity_pass_rigid fuel s b bag_obj prev_pose
  end.

(** [while drop_ctr < 50: ...], run with a bound [fuel] on its passes. *)
Fixpoint gravity_loop (fuel fuel_in : nat) (z_inc : Z) (s : GravityState)
    : outcome GravityState :=
  if decide (drop_ctr s < 50) then
    match fuel with
    | 0 => OutOfFuel
    | S fuel' =>
        do r <- gravity_pass fuel_in z_inc s;
        if r.2 : bool then Done r.1 else gravity_loop fuel' fuel_in z_inc r.1
    end
  else Done s.

(** [BaggageImage2D.run_shape_grammar_overlap_and_gravity]: it returns
    the bag, the object and the number of passes of the descent loop
    ([drop_ctr]). *)
Definition run_shape_grammar_overlap_and_gravity (fuel : nat) (b : Bag)
    (bag_obj : Object2D) (z_inc : Z) : outcome (Bag * Object2D * nat) :=
  let s0 := {| g_bag := b; g_obj := bag_obj; g_ol_ctr := 0; drop_ctr := 0;
               COLL_FLAG := None |} in
  do s <- gravity_loop fuel fuel z_inc s0;
  let bag_obj := _adjust_for_boundaries (g_bag s) (g_obj s) in
  do ws <- raised_if_none (place_object_in_bag (ws_bag (g_bag s)) bag_obj);
  Done (set_ws_bag (g_bag s) ws, bag_obj, drop_ctr s).
End GravityRule.

(** ** Iteration bounds *)

Lemma obind_not_out_of_fuel {A B} (m : outcome A) (k : A → outcome B) :
  m ≠ OutOfFuel → (∀ a, m = Done a → k a ≠ OutOfFuel) → obind m k ≠ OutOfFuel.
Proof. destruct m; simpl; eauto. Qed.

Lemma obind_Done {A B} (m : outcome A) (k : A → outcome B) r :
  obind m k = Done r → ∃ a, m = Done a ∧ k a = Done r.
Proof. destruct m; simpl; [eauto|done..]. Qed.

Lemma raised_if_none_not_out_of_fuel {A} (o : option A) : raised_if_none o ≠ OutOfFuel.
Proof. by destruct o. Qed.

Lemma raised_if_none_Done {A} (o : option A) a : raised_if_none o = Done a → o = Some a.
Proof. destruct o; simpl; congruence. Qed.

#[local] Hint Resolve raised_if_none_not_out_of_fuel : core.

Ltac obind_step :=
  apply obind_not_out_of_fuel; [try apply raised_if_none_not_out_of_fuel|intros ? ?].

Lemma overlap_pass_counts label_components s s' brk :
  overlap_pass label_components s = Some (s', brk) →
  length (passes s') = S (length (passes s)) ∧
  (brk = false → ol_ctr s' = S (ol_ctr s) ∧ S (ol_ctr s) ≠ 10).
Proof.
  unfold overlap_pass.
  destruct (select_component _) as [[max_ind bin]|]; simpl; [|done].
  destruct (arr_min (np_where bin).*1) as [rmin|]; simpl; [|done].
  destruct (arr_max (np_where bin).*1) as [rmax|]; simpl; [|done].
  destruct (arr_min (np_where bin).*2) as [cmin|]; simpl; [|done].
  destruct (arr_max (np_where bin).*2) as [cmax|]; simpl; [|done].
  case_bool_decide as Hground.
  { intros [= <- <-]. simpl. rewrite length_app. simpl. split; [lia|done]. }
  match goal with |- context [mbind ?k ?m] => destruct m as [osc_cond|] end; simpl; [|done].
  destruct (get_overlap _ _) as [[flag int]|]; simpl; [|done].
  intros [= <- <-]. simpl. rewrite length_app. simpl. split; [lia|].
  intros Hbrk%bool_decide_eq_false. done.
Qed.

Lemma overlap_loop_bounded label_components (fuel : nat) (s : OverlapState) :
  ol_ctr s < 10 → 10 ≤ fuel + ol_ctr s →
  overlap_loop label_components fuel s ≠ OutOfFuel ∧
  ∀ s', overlap_loop label_components fuel s = Done s' →
        length (passes s') + ol_ctr s ≤ length (passes s) + 10.
Proof.
  revert s. induction fuel as [|fuel IH]; intros s Hctr Hfuel; [lia|].
  simpl. destruct (OVERLAP_FLAG s).
  - destruct (overlap_pass label_components s) as [[s1 [|]]|] eqn:Hpass.
    + apply overlap_pass_counts in Hpass as [Hlen _].
      split; [done|]. intros s' [= <-]. lia.
    + apply overlap_pass_counts in Hpass as [Hlen Hc]. destruct (Hc eq_refl) as [Hc1 Hc2].
      destruct (IH s1) as [Hoof Hdone]; [lia|lia|]. split; [done|].
      intros s' Hs'. specialize (Hdone s' Hs'). lia.
    + done.
  - split; [done|]. intros s' [= <-]. lia.
Qed.

Lemma run_shape_grammar_overlap_bounded label_components fuel b bag_obj fix_obj rs cs :
  10 ≤ fuel →
  run_shape_grammar_overlap label_components fuel b bag_obj fix_obj rs cs ≠ OutOfFuel ∧
  ∀ b' o' ps,
    run_shape_grammar_overlap label_components fuel b bag_obj fix_obj rs cs
      = Done (b', o', ps) → length ps ≤ 10.
Proof.
  intros Hfuel. unfold run_shape_grammar_overlap.
  destruct (get_overlap b bag_obj) as [[flag int]|]; [|done].
  match goal with |- context [overlap_loop _ _ ?s0] =>
    destruct (overlap_loop_bounded label_components fuel s0) as [Hoof Hdone];
      [simpl; lia|simpl; lia|];
    destruct (overlap_loop label_components fuel s0) as [s| |] eqn:Hloop; [|done..]
  end.
  specialize (Hdone s eq_refl). simpl in Hdone.
  destruct fix_obj.
  - destruct (place_object_in_bag _ _); [|done]. split; [done|].
    intros b' o' ps [= <- <- <-]. lia.
  - split; [done|]. intros b' o' ps [= <- <- <-]. lia.
Qed.

Lemma resolve_loop_bounded label_components (fuel fuel_in : nat) b bag_obj ol prev :
  10 ≤ fuel_in → ol ≤ 10 → 11 ≤ fuel + ol →
  resolve_loop label_components fuel fuel_in b bag_obj ol prev ≠ OutOfFuel ∧
  ∀ b' o' ol' osc,
    resolve_loop label_components fuel fuel_in b bag_obj ol prev = Done (b', o', ol', osc) →
    ol' ≤ 10.
Proof.
  intros Hin. revert b bag_obj ol. induction fuel as [|fuel IH]; intros b o ol Hol Hfuel; [lia|].
  simpl.
  destruct (run_shape_grammar_overlap_bounded label_components fuel_in b o false true true Hin)
    as [Hoof _].
  destruct (run_shape_grammar_overlap _ _ _ _ _ _ _) as [[[b1 o1] ps]| |]; [|done..].
  simpl. destruct (get_overlap b1 o1) as [[flag int]|]; simpl; [|done].
  case_decide as Hcap.
  - split; [done|]. intros b' o' ol' osc [= <- <- <- <-]. lia.
  - destruct flag.
    + apply IH; lia.
    + split; [done|]. intros b' o' ol' osc [= <- <- <- <-]. lia.
Qed.

Lemma generate_sheet_curve_terminates line b bag_obj :
  generate_sheet_curve line b bag_obj ≠ OutOfFuel.
Proof.
  unfold generate_sheet_curve. cbv zeta.
  obind_step. obind_step.
  apply obind_not_out_of_fuel; [by apply midpoint_fuel_suffices|intros ? ?].
  apply obind_not_out_of_fuel; [by apply midpoint_fuel_suffices|intros ? ?].
  repeat obind_step. done.
Qed.

Lemma inflate_sheet_terminates dil b bag_obj : inflate_sheet dil b bag_obj ≠ OutOfFuel.
Proof. unfold inflate_sheet. cbv zeta. repeat obind_step. done. Qed.

Lemma gravity_pass_rigid_bounded label_components fuel s b bag_obj prev :
  11 ≤ fuel → g_ol_ctr s ≤ 10 →
  gravity_pass_rigid label_components fuel s b bag_obj prev ≠ OutOfFuel ∧
  ∀ s' brk,
    gravity_pass_rigid label_components fuel s b bag_obj prev = Done (s', brk) →
    drop_ctr s' = S (drop_ctr s) ∧ g_ol_ctr s' ≤ 10.
Proof.
  intros Hfuel Hol. unfold gravity_pass_rigid. cbv zeta.
  destruct (get_overlap b bag_obj) as [[flag int]|]; simpl; [|done].
  case_bool_decide.
  - destruct (get_overlap b _) as [[flag' int']|]; simpl; [|done].
    destruct flag'; simpl.
    + match goal with |- context [run_shape_grammar_overlap _ _ _ ?o _ _ _] =>
        destruct (run_shape_grammar_overlap_bounded label_components fuel b o
                    false false true ltac:(lia)) as [Hoof _];
        destruct (run_shape_grammar_overlap label_components fuel b o false false true)
          as [[[b1 o1] ps]| |]; [|done..]
      end.
      simpl. destruct (place_object_in_bag _ _); simpl; [|done].
      split; [done|]. by intros s' brk [= <- <-].
    + split; [done|]. by intros s' brk [= <- <-].
  - destruct flag; simpl.
    + destruct (resolve_loop_bounded label_components fuel fuel
                  (set_LATERAL_OSC_FLAG b false) bag_obj (g_ol_ctr s)
                  prev ltac:(lia) Hol ltac:(lia)) as [Hoof Hdone].
      destruct (resolve_loop _ _ _ _ _ _ _) as [[[[b1 o1] ol1] osc]| |]; [|done..].
      simpl. split; [done|]. intros s' brk [= <- <-]. simpl.
      split; [done|]. by eapply Hdone.
    + split; [done|]. by intros s' brk [= <- <-].
Qed.

Lemma gravity_pass_sheet_bounded line dil s b bag_obj :
  g_ol_ctr s ≤ 10 →
  gravity_pass_sheet line dil s b bag_obj ≠ OutOfFuel ∧
  ∀ s' brk,
    gravity_pass_sheet line dil s b bag_obj = Done (s', brk) →
    drop_ctr s' = S (drop_ctr s) ∧ g_ol_ctr s' ≤ 10.
Proof.
  intros Hol. unfold gravity_pass_sheet. cbv zeta.
  match goal with |- context [obind ?m _] => destruct m as [[|]| |] eqn:Hgo end; simpl.
  - match goal with |- context [generate_sheet_curve line b ?o] =>
      pose proof (generate_sheet_curve_terminates line b o) as Hgen;
      destruct (generate_sheet_curve line b o) as [o1| |]
    end; [|done..].
    simpl. pose proof (inflate_sheet_terminates dil b o1) as Hinf.
    destruct (inflate_sheet _ _ _) as [o2| |]; [|done..].
    simpl. destruct (place_object_in_bag _ _); simpl; [|done].
    split; [done|]. by intros s' brk [= <- <-].
  - split; [done|]. by intros s' brk [= <- <-].
  - done.
  - exfalso. revert Hgo. case_match; [done|]. apply raised_if_none_not_out_of_fuel.
Qed.

Lemma gravity_pass_bounded label_components line dil fuel z_inc s :
  11 ≤ fuel → g_ol_ctr s ≤ 10 →
  gravity_pass label_components line dil fuel z_inc s ≠ OutOfFuel ∧
  ∀ s' brk,
    gravity_pass label_components line dil fuel z_inc s = Done (s', brk) →
    drop_ctr s' = S (drop_ctr s) ∧ g_ol_ctr s' ≤ 10.
Proof.
  intros Hfuel Hol. unfold gravity_pass. cbv zeta.
  destruct (obj_shape _);
    first [by apply gravity_pass_rigid_bounded | by apply gravity_pass_sheet_bounded].
Qed.

Lemma gravity_loop_bounded label_components line dil (fuel fuel_in : nat) z_inc s :
  11 ≤ fuel_in → g_ol_ctr s ≤ 10 → drop_ctr s ≤ 50 → 50 ≤ fuel + drop_ctr s →
  gravity_loop label_components line dil fuel fuel_in z_inc s ≠ OutOfFuel ∧
  ∀ s', gravity_loop label_components line dil fuel fuel_in z_inc s = Done s' →
        drop_ctr s' ≤ 50.
Proof.
  intros Hin. revert s. induction fuel as [|fuel IH]; intros s Hol Hdrop Hfuel; simpl.
  - rewrite decide_False by lia. split; [done|]. by intros s' [= <-].
  - case_decide as Hlt; [|split; [done|by intros s' [= <-]]].
    destruct (gravity_pass_bounded label_components line dil fuel_in z_inc s Hin Hol)
      as [Hoof Hdone].
    destruct (gravity_pass _ _ _ _ _ _) as [[s1 brk]| |]; [|done..].
    destruct (Hdone s1 brk eq_refl) as [Hd Ho]. simpl. destruct brk.
    + split; [done|]. intros s' [= <-]. lia.
    + apply IH; lia.
Qed.

(** C4: the placement pipeline runs a bounded number of passes.  With any
    bound of at least 50 on its loops neither rule runs out of it: the
    overlap rule ends, by a result or an exception, within 10 passes of its
    loop, and the gravity rule within 50 passes of its descent loop, for
    every object, bag and choice of the library functions. *)
Theorem placement_loops_bounded
    (label_components : grid → grid) (line : Z → Z → Z → Z → list (Z * Z))
    (binary_dilation : grid → Z → grid)
    (fuel : nat) (b : Bag) (bag_obj : Object2D) (fix_obj rs cs : bool) (z_inc : Z) :
  50 ≤ fuel →
  (run_shape_grammar_overlap label_components fuel b bag_obj fix_obj rs cs ≠ OutOfFuel ∧
   ∀ b' o' ps,
     run_shape_grammar_overlap label_components fuel b bag_obj fix_obj rs cs
       = Done (b', o', ps) → length ps ≤ 10) ∧
  (run_shape_grammar_overlap_and_gravity label_components line binary_dilation
     fuel b bag_obj z_inc ≠ OutOfFuel ∧
   ∀ b' o' n,
     run_shape_grammar_overlap_and_gravity label_components line binary_dilation
       fuel b bag_obj z_inc = Done (b', o', n) → n ≤ 50).
Proof.
  intros Hfuel. split; [apply run_shape_grammar_overlap_bounded; lia|].
  unfold run_shape_grammar_overlap_and_gravity. cbv zeta.
  match goal with |- context [gravity_loop _ _ _ _ _ _ ?s0] =>
    destruct (gravity_loop_bounded label_components line binary_dilation
                fuel fuel z_inc s0) as [Hoof Hdone]; [lia|simpl; lia..|];
    destruct (gravity_loop label_components line binary_dilation fuel fuel z_inc s0)
      as [s| |]; [|done..]
  end.
  specialize (Hdone s eq_refl). simpl.
  destruct (place_object_in_bag _ _); simpl; [|done].
  split; [done|]. intros b' o' n [= <- <- <-]. done.
Qed.

Lemma placement_loops_bounded_witness :
  (run_shape_grammar_overlap label8 50 demo_bag gapped_object false true true ≠ OutOfFuel ∧
   ∀ b' o' ps,
     run_shape_grammar_overlap label8 50 demo_bag gapped_object false true true
       = Done (b', o', ps) → length ps ≤ 10) ∧
  (run_shape_grammar_overlap_and_gravity label8 draw_line (λ g _, g)
     50 demo_bag gapped_object 50 ≠ OutOfFuel ∧
   ∀ b' o' n,
     run_shape_grammar_overlap_and_gravity label8 draw_line (λ g _, g)
       50 demo_bag gapped_object 50 = Done (b', o', n) → n ≤ 50).
Proof.
  apply (placement_loops_bounded label8 draw_line (λ g _, g) 50 demo_bag gapped_object
           false true true 50).
  lia.
Defined.

(** ** The gravity rule in an empty container *)

(** The container is empty when the canvas holds nothing besides the
    boundary: masking the boundary cells, as [get_overlap] does, leaves
    no nonzero cell. *)
Definition empty_container (b : Bag) : Prop :=
  ∃ bag_data, assign_const (ws_bag b) (np_where (boundary b)) 0 = Some bag_data ∧
              np_where bag_data = [].

Lemma np_where_nil g :
  np_where g = [] ↔ ∀ i j v, cell g i j = Some v → v = 0%Z.
Proof.
  split.
  - intros Hnil i j v Hv. destruct (decide (v = 0%Z)) as [|Hnz]; [done|].
    assert ((i, j) ∈ np_where g) as Hin by (apply elem_of_np_where; eauto).
    rewrite Hnil in Hin. by apply elem_of_nil in Hin.
  - intros Hz. destruct (np_where g) as [|[i j] l] eqn:Hw; [done|].
    assert ((i, j) ∈ np_where g) as Hin by (rewrite Hw; left).
    apply elem_of_np_where in Hin as (v & Hv & Hnz). by apply Hz in Hv.
Qed.


Lemma cell_astype_bool g i j :
  cell (astype_bool g) i j = (λ v, if decide (v = 0%Z) then 0%Z else 1%Z) <$> cell g i j.
Proof.
  unfold cell, astype_bool. rewrite list_lookup_fmap.
  destruct (g !! i) as [row|]; simpl; [|done]. by rewrite list_lookup_fmap.
Qed.



Lemma length_slice2 g r0 r1 c0 c1 :
  length (slice2 g r0 r1 c0 c1) = length (py_slice g r0 r1).
Proof. unfold slice2. by rewrite length_fmap. Qed.

Lemma py_slice_all {A} (l : list A) : py_slice l None None = l.
Proof. unfold py_slice. simpl. by rewrite drop_0, Nat.sub_0_r, firstn_all. Qed.




Lemma clamp_left_rows b o :
  let o' := clamp_left b o in
  (pose o').1 = (pose o).1 ∧ (dim o').1 = (dim o).1 ∧
  length (data o') = length (data o).
Proof.
  unfold clamp_left. cbv zeta. case_decide; [|done].
  cbn [pose dim data set_pose set_dim set_data fst snd].
  by rewrite length_slice2, py_slice_all.
Qed.

Lemma clamp_right_rows b o :
  let o' := clamp_right b o in
  (pose o').1 = (pose o).1 ∧ (dim o').1 = (dim o).1 ∧
  length (data o') = length (data o).
Proof.
  unfold clamp_right. cbv zeta. case_decide; [|done].
  cbn [pose dim data set_pose set_dim set_data fst snd].
  by rewrite length_slice2, py_slice_all.
Qed.











(** An empty 12 x 12 container (boundary ring only, ground row 11), a
    2 x 3 box with a full raster, and the box that [create_rectanguloid]
    makes of the dimensions (2, 6): its raster has four rows, the last one
    empty, and [dim] is the shape of the raster. *)
Definition empty_bag : Bag :=
  {| ws_bag := (λ row : list Z, (λ v, 3 * v)%Z <$> row) <$> demo_boundary;
     boundary := demo_boundary; size := 12; bb_h := 5; extents := None;
     LATERAL_OSC_FLAG := false |}.

Definition small_box : Object2D :=
  mk_object ShB 7 [[7; 7; 7]; [7; 7; 7]]%Z (2, 3)%Z (1, 4)%Z.





(** * Further properties of the placement code *)

(** ** Commits compose *)

(** Two rectangular arrays of the same height with the same cells are the
    same array. *)
Lemma grid_eq W g g' :
  rect W g → rect W g' → length g = length g' →
  (∀ i j, cell g i j = cell g' i j) → g = g'.
Proof.
  intros Hg Hg' Hlen Hcell. apply list_eq. intros i.
  destruct (g !! i) as [row|] eqn:Hrow.
  - destruct (lookup_lt_is_Some_2 g' i) as [row' Hrow'].
    { rewrite <-Hlen. by eapply lookup_lt_Some. }
    rewrite Hrow'. f_equal. apply list_eq. intros j.
    specialize (Hcell i j). unfold cell in Hcell. by rewrite Hrow, Hrow' in Hcell.
  - symmetry. apply lookup_ge_None. rewrite <-Hlen. by apply lookup_ge_None.
Qed.

Lemma shape_rect_eq W g g' :
  rect W g → rect W g' → length g = length g' → shape g = shape g'.
Proof.
  intros Hg Hg' Hlen. unfold shape. rewrite Hlen. f_equal.
  destruct g as [|row g], g' as [|row' g']; try done.
  simpl. inversion Hg; inversion Hg'; congruence.
Qed.

(** What an object writes depends on the canvas through its shape only. *)
Lemma written_shape ws ws' bag_obj i j :
  shape ws = shape ws' → written ws bag_obj i j = written ws' bag_obj i j.
Proof.
  intros Hs. unfold written.
  assert (length ws = length ws') as -> by (by injection Hs).
  by rewrite Hs.
Qed.

(** X1: committing an object is idempotent: a second commit of the same
    object, at the same pose, returns the canvas the first one produced. *)
Theorem place_object_in_bag_idempotent W ws_bag bag_obj ws' :
  rect W ws_bag →
  place_object_in_bag ws_bag bag_obj = Some ws' →
  place_object_in_bag ws' bag_obj = Some ws'.
Proof.
  intros Hws Hrun.
  destruct (place_object_in_bag_cells W ws_bag bag_obj Hws)
    as (ws1 & Hrun1 & Hlen1 & Hrect1 & Hcell1).
  assert (ws1 = ws') as -> by congruence.
  destruct (place_object_in_bag_cells W ws' bag_obj Hrect1)
    as (ws2 & Hrun2 & Hlen2 & Hrect2 & Hcell2).
  rewrite Hrun2. f_equal. apply (grid_eq W); [done|done|done|].
  intros i j. rewrite Hcell2, Hcell1.
  rewrite <-(written_shape ws_bag ws') by (by apply (shape_rect_eq W)).
  by destruct (written ws_bag bag_obj i j).
Qed.

Lemma place_object_in_bag_idempotent_witness :
  place_object_in_bag [[3; 7]; [0; 7]]%Z
    (mk_object ShB 7 [[7]; [7]]%Z (2, 1)%Z (0, 1)%Z) = Some [[3; 7]; [0; 7]]%Z.
Proof.
  apply (place_object_in_bag_idempotent 2 [[3; 5]; [0; 0]]%Z).
  - repeat constructor.
  - reflexivity.
Defined.

(** X2: two commits that write no cell in common can be made in either
    order: the other order also returns, with the same canvas. *)
Theorem place_object_in_bag_commutes W ws_bag o1 o2 ws1 ws12 :
  rect W ws_bag →
  (∀ i j, written ws_bag o1 i j = None ∨ written ws_bag o2 i j = None) →
  place_object_in_bag ws_bag o1 = Some ws1 → place_object_in_bag ws1 o2 = Some ws12 →
  ∃ ws2, place_object_in_bag ws_bag o2 = Some ws2 ∧
         place_object_in_bag ws2 o1 = Some ws12.
Proof.
  intros Hws Hdisj H1 H12.
  destruct (place_object_in_bag_cells W ws_bag o1 Hws) as (x1 & Hx1 & Hl1 & Hr1 & Hc1).
  assert (x1 = ws1) as -> by congruence.
  destruct (place_object_in_bag_cells W ws_bag o2 Hws) as (ws2 & Hx2 & Hl2 & Hr2 & Hc2).
  destruct (place_object_in_bag_cells W ws1 o2 Hr1) as (x12 & Hx12 & Hl12 & Hr12 & Hc12).
  assert (x12 = ws12) as -> by congruence.
  destruct (place_object_in_bag_cells W ws2 o1 Hr2) as (ws21 & Hx21 & Hl21 & Hr21 & Hc21).
  exists ws2. split; [done|]. rewrite Hx21. f_equal.
  apply (grid_eq W); [done|done|congruence|].
  intros i j. rewrite Hc12, Hc21, Hc1, Hc2.
  rewrite <-(written_shape ws_bag ws1) by (by apply (shape_rect_eq W)).
  rewrite <-(written_shape ws_bag ws2) by (by apply (shape_rect_eq W)).
  destruct (Hdisj i j) as [-> | ->]; by destruct (written ws_bag _ i j).
Qed.

Lemma place_object_in_bag_commutes_witness :
  ∃ ws2, place_object_in_bag [[0; 3]; [0; 0]]%Z
           (mk_object ShB 7 [[7]]%Z (1, 1)%Z (1, 1)%Z) = Some ws2 ∧
         place_object_in_bag ws2 (mk_object ShB 4 [[4]]%Z (1, 1)%Z (0, 0)%Z)
           = Some [[4; 3]; [0; 7]]%Z.
Proof.
  apply (place_object_in_bag_commutes 2 [[0; 3]; [0; 0]]%Z
           (mk_object ShB 4 [[4]]%Z (1, 1)%Z (0, 0)%Z)
           (mk_object ShB 7 [[7]]%Z (1, 1)%Z (1, 1)%Z)
           [[4; 3]; [0; 0]]%Z).
  - repeat constructor.
  - intros [|[|i]] [|[|j]]; vm_compute; tauto.
  - reflexivity.
  - reflexivity.
Defined.
(** ** The overlap test *)

Lemma set_cell_rect W g r c v g' :
  rect W g → set_cell g r c v = Some g' → rect W g' ∧ length g' = length g.
Proof.
  intros Hg. unfold set_cell. destruct (g !! r) as [row|] eqn:Hrow; simpl; [|done].
  case_decide; [|done]. intros [= <-]. split; [|by rewrite length_insert].
  apply Forall_insert; [done|]. rewrite length_insert. by eapply rect_lookup.
Qed.

Lemma assign_const_rect W g idx v g' :
  rect W g → assign_const g idx v = Some g' → rect W g' ∧ length g' = length g.
Proof.
  unfold assign_const. revert g. induction idx as [|[r c] idx IH]; intros g Hg; simpl.
  - by intros [= <-].
  - destruct (set_cell g r c v) as [g1|] eqn:Hset; simpl.
    + intros Hrun. destruct (set_cell_rect _ _ _ _ _ _ Hg Hset) as [Hg1 Hl1].
      destruct (IH g1 Hg1 Hrun) as [? ?]. split; [done|congruence].
    + by rewrite assign_const_None.
Qed.

(** The cells of a window [a[r0:r1, c0:c1]] of a rectangular array. *)
Lemma cell_slice2_window W g a b c d i j :
  rect W g →
  cell (slice2 g (Some a) (Some b) (Some c) (Some d)) i j =
    if decide (i < slice_index (length g) b - slice_index (length g) a ∧
               j < slice_index W d - slice_index W c)
    then cell g (slice_index (length g) a + i) (slice_index W c + j) else None.
Proof.
  intros Hg. unfold cell, slice2. rewrite list_lookup_fmap.
  destruct (decide (i < slice_index (length g) b - slice_index (length g) a)) as [Hi|Hi].
  - rewrite lookup_py_slice by done.
    destruct (g !! (slice_index (length g) a + i)) as [row|] eqn:Hrow; simpl.
    + rewrite <-(rect_lookup _ _ _ _ Hg Hrow).
      destruct (decide (j < slice_index (length row) d - slice_index (length row) c))
        as [Hj|Hj].
      * rewrite decide_True by done. by apply lookup_py_slice.
      * rewrite decide_False by tauto. apply lookup_ge_None_2.
        rewrite length_py_slice. lia.
    + by case_decide.
  - rewrite decide_False by tauto.
    rewrite (lookup_ge_None_2 (py_slice g (Some a) (Some b))); [done|].
    rewrite length_py_slice. lia.
Qed.

Lemma cell_mul_eq a b i j :
  cell (mul a b) i j =
    match cell a i j, cell b i j with
    | Some x, Some y => Some (x * y)%Z
    | _, _ => None
    end.
Proof.
  unfold cell, mul. rewrite lookup_zip_with.
  destruct (a !! i) as [ra|]; simpl; [|done].
  destruct (b !! i) as [rb|]; simpl; [|by destruct (ra !! j)].
  rewrite lookup_zip_with.
  destruct (ra !! j) as [x|]; simpl; [|done].
  by destruct (rb !! j) as [y|].
Qed.

(** The cells of [obj_int], for a pose that is not negative: the raster
    cell times the truth value of the masked canvas cell below it. *)
Lemma get_overlap_cells W wd b bag_obj bag_data flag obj_int r c :
  rect W (ws_bag b) → rect wd (data bag_obj) →
  (0 ≤ (pose bag_obj).1)%Z → (0 ≤ (pose bag_obj).2)%Z →
  assign_const (ws_bag b) (np_where (boundary b)) 0 = Some bag_data →
  get_overlap b bag_obj = Some (flag, obj_int) →
  flag = bool_decide (np_where obj_int ≠ []) ∧
  cell obj_int r c =
    match cell (data bag_obj) r c,
          cell bag_data (Z.to_nat (pose bag_obj).1 + r) (Z.to_nat (pose bag_obj).2 + c) with
    | Some v, Some u => Some (v * (if decide (u = 0) then 0 else 1))%Z
    | _, _ => None
    end.
Proof.
  intros Hws Hd H0 H1 Hmask. unfold get_overlap. rewrite Hmask.
  cbn [mbind option_bind].
  destruct (pose bag_obj) as [p0 p1]; cbn [fst snd] in *.
  destruct (shape (data bag_obj)) as [h w] eqn:Hsh. cbv beta iota zeta.
  match goal with |- Some (np_any ?m, _) = _ → _ => set (oi := m) end.
  intros Heq. assert (flag = np_any oi ∧ obj_int = oi) as [-> ->] by (split; congruence).
  clear Heq. split; [done|]. unfold oi. clear oi.
  destruct (assign_const_rect _ _ _ _ _ Hws Hmask) as [Hbd Hlen].
  destruct (shape_window bag_data p0 h p1 w W Hbd) as (Hs1 & Hs2 & Hs0 & Hm).
  set (s := shape (slice2 bag_data (Some p0) (Some (p0 + Z.of_nat h)%Z)
                          (Some p1) (Some (p1 + Z.of_nat w)%Z))) in *.
  rewrite cell_mul_eq, cell_slice2_to, cell_astype_bool, (cell_slice2_window W) by done.
  rewrite !slice_index_nonneg in * by lia.
  set (n := length bag_data) in *.
  destruct (cell (data bag_obj) r c) as [v|] eqn:Hv.
  - apply cell_Some in Hv as Hv'. destruct Hv' as (row & Hrow & Hc).
    apply lookup_lt_Some in Hrow as Hr. apply lookup_lt_Some in Hc as Hc'.
    rewrite (rect_lookup _ _ _ _ Hd Hrow) in Hc'.
    assert (h = length (data bag_obj) ∧ w = wd) as [Hh Hw].
    { unfold shape in Hsh. injection Hsh as <- <-. split; [done|].
      apply (shape_rect wd (data bag_obj)); [done|]. intros Hnil. by rewrite Hnil in Hrow. }
    destruct (cell bag_data (Z.to_nat p0 + r) (Z.to_nat p1 + c)) as [u|] eqn:Hu.
    + apply cell_Some in Hu as Hu'. destruct Hu' as (brow & Hbrow & Hbc).
      apply lookup_lt_Some in Hbrow as Hbr. apply lookup_lt_Some in Hbc as Hbc'.
      rewrite (rect_lookup _ _ _ _ Hbd Hbrow) in Hbc'. fold n in Hbr.
      assert (s.1 ≠ 0) as Hnz by lia.
      rewrite Hm in Hs2 by (intros ->; simpl in *; lia). rewrite (Hs2 Hnz).
      rewrite decide_True by lia. rewrite decide_True by lia.
      replace (Z.to_nat p0 `min` n + r) with (Z.to_nat p0 + r) by lia.
      replace (Z.to_nat p1 `min` W + c) with (Z.to_nat p1 + c) by lia.
      rewrite Hu. done.
    + case_decide as Hin; [|done]. case_decide as Hwin; [|done].
      destruct Hwin as [Hw0 Hw1].
      assert (Z.to_nat p0 `min` n = Z.to_nat p0) as -> by (clear -Hw0; lia).
      assert (Z.to_nat p1 `min` W = Z.to_nat p1) as -> by (clear -Hw1; lia).
      by rewrite Hu.
  - by case_decide.
Qed.

(** X3: what [get_overlap] reports.  For a pose that is not negative the
    flag is set exactly when some nonzero cell of the raster lies over a
    nonzero cell of the canvas that is not a boundary cell: contact with
    the bag's own wall is never an overlap. *)
Theorem get_overlap_flag W wd b bag_obj flag obj_int :
  rect W (ws_bag b) → rect wd (data bag_obj) →
  (0 ≤ (pose bag_obj).1)%Z → (0 ≤ (pose bag_obj).2)%Z →
  get_overlap b bag_obj = Some (flag, obj_int) →
  (flag = true ↔
   ∃ r c v u,
     cell (data bag_obj) r c = Some v ∧ v ≠ 0%Z ∧
     cell (ws_bag b) (Z.to_nat (pose bag_obj).1 + r) (Z.to_nat (pose bag_obj).2 + c)
       = Some u ∧ u ≠ 0%Z ∧
     (Z.to_nat (pose bag_obj).1 + r, Z.to_nat (pose bag_obj).2 + c)
       ∉ np_where (boundary b)).
Proof.
  intros Hws Hd H0 H1 Hrun.
  destruct (assign_const (ws_bag b) (np_where (boundary b)) 0) as [bag_data|] eqn:Hmask;
    [|by unfold get_overlap in Hrun; rewrite Hmask in Hrun].
  pose proof (assign_const_cells _ _ _ _ Hmask) as Hbd.
  assert (Hcells := λ r c, proj2 (get_overlap_cells W wd b bag_obj bag_data flag obj_int
                                    r c Hws Hd H0 H1 Hmask Hrun)).
  destruct (get_overlap_cells W wd b bag_obj bag_data flag obj_int 0 0 Hws Hd H0 H1
              Hmask Hrun) as [-> _].
  rewrite bool_decide_eq_true. split.
  - intros Hne. destruct (np_where obj_int) as [|[r c] l] eqn:Hw; [done|].
    assert ((r, c) ∈ np_where obj_int) as Hin by (rewrite Hw; left).
    apply elem_of_np_where in Hin as (x & Hx & Hxnz). rewrite Hcells in Hx.
    destruct (cell (data bag_obj) r c) as [v|] eqn:Hv; [|done].
    destruct (cell bag_data _ _) as [u|] eqn:Hu; [|done].
    injection Hx as <-. rewrite Hbd in Hu.
    destruct (decide (u = 0%Z)) as [->|Hunz]; [lia|].
    destruct (decide (_ ∈ np_where (boundary b))) as [|Hnb]; [congruence|].
    exists r, c, v, u. split; [done|]. split; [lia|]. done.
  - intros (r & c & v & u & Hv & Hvnz & Hu & Hunz & Hnb) Hnil.
    assert ((r, c) ∈ np_where obj_int) as Hin; [|by rewrite Hnil in Hin; apply elem_of_nil in Hin].
    apply elem_of_np_where. exists v. rewrite Hcells, Hv, Hbd.
    rewrite decide_False by done. rewrite Hu. rewrite decide_False by done.
    split; [f_equal; lia|done].
Qed.

Lemma get_overlap_flag_witness :
  true = true ↔
  ∃ r c v u,
    cell (data gapped_object) r c = Some v ∧ v ≠ 0%Z ∧
    cell (ws_bag demo_bag) (Z.to_nat (pose gapped_object).1 + r)
         (Z.to_nat (pose gapped_object).2 + c) = Some u ∧ u ≠ 0%Z ∧
    (Z.to_nat (pose gapped_object).1 + r, Z.to_nat (pose gapped_object).2 + c)
      ∉ np_where (boundary demo_bag).
Proof.
  apply (get_overlap_flag 12 3 demo_bag gapped_object true [[7; 0; 7]]%Z).
  - repeat (constructor; [reflexivity|]). constructor.
  - repeat constructor.
  - simpl. lia.
  - simpl. lia.
  - vm_compute. reflexivity.
Defined.
(** ** The adjustment to the container *)

(** Each block moves one side of the box onto its bound when the box
    reaches it, and leaves the other sides where they are. *)
Lemma clamp_top_exact b o :
  pose (clamp_top b o) = (Z.max (pose o).1 (lower_bound b).1, (pose o).2) ∧
  ((pose (clamp_top b o)).1 + (dim (clamp_top b o)).1 = (pose o).1 + (dim o).1)%Z ∧
  (dim (clamp_top b o)).2 = (dim o).2.
Proof.
  unfold clamp_top. cbv zeta. case_decide; simpl.
  - split; [f_equal; lia|]. split; [lia|done].
  - split; [|done]. destruct (pose o) as [p0 p1]; simpl in *. f_equal; lia.
Qed.

Lemma clamp_bottom_exact b o :
  pose (clamp_bottom b o) = pose o ∧
  ((pose o).1 + (dim (clamp_bottom b o)).1
   = Z.min ((pose o).1 + (dim o).1) (upper_bound b).1)%Z ∧
  (dim (clamp_bottom b o)).2 = (dim o).2.
Proof. unfold clamp_bottom. cbv zeta. case_decide; simpl; (split; [done|split; [lia|done]]). Qed.

Lemma clamp_left_exact b o :
  pose (clamp_left b o) = ((pose o).1, Z.max (pose o).2 (lower_bound b).2) ∧
  ((pose (clamp_left b o)).2 + (dim (clamp_left b o)).2 = (pose o).2 + (dim o).2)%Z ∧
  (dim (clamp_left b o)).1 = (dim o).1.
Proof.
  unfold clamp_left. cbv zeta. case_decide; simpl.
  - split; [f_equal; lia|]. split; [lia|done].
  - split; [|done]. destruct (pose o) as [p0 p1]; simpl in *. f_equal; lia.
Qed.

Lemma clamp_right_exact b o :
  pose (clamp_right b o) = pose o ∧
  ((pose o).2 + (dim (clamp_right b o)).2
   = Z.min ((pose o).2 + (dim o).2) (upper_bound b).2)%Z ∧
  (dim (clamp_right b o)).1 = (dim o).1.
Proof. unfold clamp_right. cbv zeta. case_decide; simpl; (split; [done|split; [lia|done]]). Qed.

(** The box of an adjusted object: its first corner and its far corner. *)
Lemma adjust_for_boundaries_corners b bag_obj :
  let o := _adjust_for_boundaries b bag_obj in
  pose o = (Z.max (pose bag_obj).1 (lower_bound b).1,
            Z.max (pose bag_obj).2 (lower_bound b).2) ∧
  ((pose o).1 + (dim o).1 = Z.min ((pose bag_obj).1 + (dim bag_obj).1) (upper_bound b).1)%Z ∧
  ((pose o).2 + (dim o).2 = Z.min ((pose bag_obj).2 + (dim bag_obj).2) (upper_bound b).2)%Z.
Proof.
  cbv zeta. rewrite adjust_for_boundaries_stages.
  set (o1 := clamp_top b bag_obj). set (o2 := clamp_bottom b o1).
  set (o3 := clamp_left b o2).
  destruct (clamp_top_exact b bag_obj) as (Ht1 & Ht2 & Ht3). fold o1 in Ht1, Ht2, Ht3.
  destruct (clamp_bottom_exact b o1) as (Hb1 & Hb2 & Hb3). fold o2 in Hb1, Hb2, Hb3.
  destruct (clamp_left_exact b o2) as (Hl1 & Hl2 & Hl3). fold o3 in Hl1, Hl2, Hl3.
  destruct (clamp_right_exact b o3) as (Hr1 & Hr2 & Hr3).
  rewrite Hr1, Hl1, Hb1, Ht1. cbn [fst snd]. split; [done|].
  rewrite Hr3, Hl3. rewrite Hl1, Hb1, Ht1 in Hr2. cbn [fst snd] in Hr2.
  rewrite Hb1, Ht1 in Hl2. cbn [fst snd] in Hl2.
  rewrite Ht1 in Hb2, Ht2. cbn [fst snd] in Hb2, Ht2.
  split; [lia|]. rewrite Hr2. rewrite Hl1, Hb1, Ht1 in Hl2. cbn [fst snd] in Hl2.
  rewrite Hl2, Hb3, Ht3. done.
Qed.

(** X4: the box of an adjusted object, whatever the object was.  On each
    axis the adjustment moves [pose] to the larger of [pose] and the lower
    bound, and [pose + dim] to the smaller of [pose + dim] and the upper
    bound.  So [pose] is never before the lower bound and [pose + dim]
    never past the upper bound; but [dim] is not negative, and the box
    lies between the bounds, exactly when the box of the call met the
    container on that axis.  An object that lies wholly past the upper
    bound comes out with a negative [dim] and its pose still past that
    bound. *)
Theorem adjust_for_boundaries_within_bounds b bag_obj :
  let o := _adjust_for_boundaries b bag_obj in
  let lower := lower_bound b in
  let upper := upper_bound b in
  pose o = (Z.max (pose bag_obj).1 lower.1, Z.max (pose bag_obj).2 lower.2) ∧
  ((pose o).1 + (dim o).1 = Z.min ((pose bag_obj).1 + (dim bag_obj).1) upper.1)%Z ∧
  ((pose o).2 + (dim o).2 = Z.min ((pose bag_obj).2 + (dim bag_obj).2) upper.2)%Z ∧
  ((0 ≤ (dim o).1)%Z ↔
   (0 ≤ (dim bag_obj).1 ∧ lower.1 ≤ upper.1 ∧
    (pose bag_obj).1 ≤ upper.1 ∧ lower.1 ≤ (pose bag_obj).1 + (dim bag_obj).1)%Z) ∧
  ((0 ≤ (dim o).2)%Z ↔
   (0 ≤ (dim bag_obj).2 ∧ lower.2 ≤ upper.2 ∧
    (pose bag_obj).2 ≤ upper.2 ∧ lower.2 ≤ (pose bag_obj).2 + (dim bag_obj).2)%Z) ∧
  ((upper.1 < (pose bag_obj).1)%Z → (upper.1 < (pose o).1)%Z ∧ ((dim o).1 < 0)%Z) ∧
  ((upper.2 < (pose bag_obj).2)%Z → (upper.2 < (pose o).2)%Z ∧ ((dim o).2 < 0)%Z).
Proof.
  cbv zeta. destruct (adjust_for_boundaries_corners b bag_obj) as (Hp & H0 & H1).
  cbv zeta in Hp, H0, H1. rewrite Hp in H0, H1 |- *. cbn [fst snd] in *.
  repeat split; try done; lia.
Qed.

Lemma slice2_rows g r0 r1 : slice2 g r0 r1 None None = py_slice g r0 r1.
Proof.
  unfold slice2. rewrite <-(list_fmap_id (py_slice g r0 r1)) at 2.
  apply list_fmap_ext. intros i row _. apply py_slice_all.
Qed.

Lemma slice2_cols g c0 c1 :
  slice2 g None None c0 c1 = (λ row, py_slice row c0 c1) <$> g.
Proof. unfold slice2. by rewrite py_slice_all. Qed.

(** [l[-k:]] keeps the last [k] entries, [l[:k]] the first [k]. *)
Lemma py_slice_last {A} (l : list A) (k : Z) :
  (0 < k ≤ Z.of_nat (length l))%Z →
  py_slice l (Some (- k)%Z) None = drop (length l - Z.to_nat k) l.
Proof.
  intros Hk. unfold py_slice. simpl.
  assert (slice_index (length l) (- k) = length l - Z.to_nat k) as ->.
  { unfold slice_index. destruct (Z.ltb_spec (- k) 0); lia. }
  apply take_ge. rewrite length_drop. lia.
Qed.

Lemma py_slice_first {A} (l : list A) (k : Z) :
  (0 ≤ k)%Z → py_slice l None (Some k) = take (Z.to_nat k) l.
Proof.
  intros Hk. unfold py_slice. simpl. rewrite drop_0, Nat.sub_0_r.
  rewrite slice_index_nonneg by done.
  destruct (decide (Z.to_nat k ≤ length l)).
  - by rewrite Nat.min_l.
  - rewrite Nat.min_r by lia. by rewrite !take_ge by lia.
Qed.

Lemma cell_drop_rows g a r c : cell (drop a g) r c = cell g (a + r) c.
Proof. unfold cell. by rewrite lookup_drop. Qed.

Lemma cell_take_rows g k r c : r < k → cell (take k g) r c = cell g r c.
Proof. intros Hr. unfold cell. by rewrite lookup_take_lt. Qed.

Lemma cell_drop_cols g a r c : cell (drop a <$> g) r c = cell g r (a + c).
Proof.
  unfold cell. rewrite list_lookup_fmap. destruct (g !! r) as [row|]; simpl; [|done].
  apply lookup_drop.
Qed.

Lemma cell_take_cols g k r c : c < k → cell (take k <$> g) r c = cell g r c.
Proof.
  intros Hc. unfold cell. rewrite list_lookup_fmap.
  destruct (g !! r) as [row|]; simpl; [|done]. by apply lookup_take_lt.
Qed.

(** The four blocks on an object whose raster has the shape [dim] and
    whose box meets the container: each cuts the raster to the part on its
    side of the bound. *)
Lemma clamp_top_crop b o :
  Z.of_nat (length (data o)) = (dim o).1 →
  ((lower_bound b).1 < (pose o).1 + (dim o).1)%Z →
  let p := Z.max (pose o).1 (lower_bound b).1 in
  pose (clamp_top b o) = (p, (pose o).2) ∧
  dim (clamp_top b o) = ((pose o).1 + (dim o).1 - p, (dim o).2)%Z ∧
  data (clamp_top b o) = drop (Z.to_nat (p - (pose o).1)) (data o).
Proof.
  intros Hlen Hmeet. unfold clamp_top. cbv zeta. case_decide as Hfire.
  - cbn [pose dim data set_pose set_dim set_data fst snd].
    rewrite Z.max_r by done. split; [done|]. split; [f_equal; lia|].
    rewrite slice2_rows, py_slice_last by lia. f_equal. lia.
  - rewrite Z.max_l by lia. rewrite Z.sub_diag. simpl.
    destruct (pose o), (dim o); simpl. repeat split; f_equal; lia.
Qed.

Lemma clamp_bottom_crop b o :
  Z.of_nat (length (data o)) = (dim o).1 →
  ((pose o).1 < (upper_bound b).1)%Z →
  let q := Z.min ((pose o).1 + (dim o).1) (upper_bound b).1 in
  pose (clamp_bottom b o) = pose o ∧
  dim (clamp_bottom b o) = (q - (pose o).1, (dim o).2)%Z ∧
  data (clamp_bottom b o) = take (Z.to_nat (q - (pose o).1)) (data o).
Proof.
  intros Hlen Hmeet. unfold clamp_bottom. cbv zeta. case_decide as Hfire.
  - cbn [pose dim data set_pose set_dim set_data fst snd].
    rewrite Z.min_r by done. split; [done|]. split; [f_equal; lia|].
    rewrite slice2_rows, py_slice_first by lia. f_equal. lia.
  - rewrite Z.min_l by lia. split; [done|].
    split; [destruct (dim o); simpl; f_equal; lia|].
    rewrite take_ge; [done|]. lia.
Qed.

Lemma clamp_left_crop wd b o :
  rect wd (data o) → Z.of_nat wd = (dim o).2 →
  ((lower_bound b).2 < (pose o).2 + (dim o).2)%Z →
  let p := Z.max (pose o).2 (lower_bound b).2 in
  pose (clamp_left b o) = ((pose o).1, p) ∧
  dim (clamp_left b o) = ((dim o).1, (pose o).2 + (dim o).2 - p)%Z ∧
  data (clamp_left b o) = drop (Z.to_nat (p - (pose o).2)) <$> data o.
Proof.
  intros Hrect Hlen Hmeet. unfold clamp_left. cbv zeta. case_decide as Hfire.
  - cbn [pose dim data set_pose set_dim set_data fst snd].
    rewrite Z.max_r by done. split; [done|]. split; [f_equal; lia|].
    rewrite slice2_cols. apply list_fmap_ext. intros i row Hrow.
    pose proof (rect_lookup _ _ _ _ Hrect Hrow) as Hrl.
    rewrite py_slice_last by lia. f_equal. lia.
  - rewrite Z.max_l by lia. rewrite Z.sub_diag. simpl.
    split; [by destruct (pose o)|]. split; [destruct (dim o); simpl; f_equal; lia|].
    rewrite <-(list_fmap_id (data o)) at 1. apply list_fmap_ext. intros i row _.
    by rewrite drop_0.
Qed.

Lemma clamp_right_crop wd b o :
  rect wd (data o) → Z.of_nat wd = (dim o).2 →
  ((pose o).2 < (upper_bound b).2)%Z →
  let q := Z.min ((pose o).2 + (dim o).2) (upper_bound b).2 in
  pose (clamp_right b o) = pose o ∧
  dim (clamp_right b o) = ((dim o).1, q - (pose o).2)%Z ∧
  data (clamp_right b o) = take (Z.to_nat (q - (pose o).2)) <$> data o.
Proof.
  intros Hrect Hlen Hmeet. unfold clamp_right. cbv zeta. case_decide as Hfire.
  - cbn [pose dim data set_pose set_dim set_data fst snd].
    rewrite Z.min_r by done. split; [done|]. split; [f_equal; lia|].
    rewrite slice2_cols. apply list_fmap_ext. intros i row Hrow.
    rewrite py_slice_first by lia. f_equal. lia.
  - rewrite Z.min_l by lia. split; [done|].
    split; [destruct (dim o); simpl; f_equal; lia|].
    rewrite <-(list_fmap_id (data o)) at 1. apply list_fmap_ext. intros i row Hrow.
    pose proof (rect_lookup _ _ _ _ Hrect Hrow) as Hrl. simpl.
    rewrite take_ge; [done|]. lia.
Qed.

Lemma rect_take w g k : rect w g → rect w (take k g).
Proof. apply Forall_take. Qed.

Lemma rect_drop w g k : rect w g → rect w (drop k g).
Proof. apply Forall_drop. Qed.

Lemma rect_drop_cols w g k : rect w g → rect (w - k) (drop k <$> g).
Proof.
  unfold rect. intros Hg. apply Forall_fmap. eapply Forall_impl; [done|].
  intros row Hrow. simpl. by rewrite length_drop, Hrow.
Qed.

Lemma rect_take_cols w g k : rect w g → k ≤ w → rect k (take k <$> g).
Proof.
  unfold rect. intros Hg Hk. apply Forall_fmap. eapply Forall_impl; [done|].
  intros row Hrow. simpl. rewrite length_take, Hrow. lia.
Qed.

(** X5: the adjustment crops an object to the container.  For an object
    whose raster has the shape [dim] and whose box meets the container on
    both axes, the new pose is the corner of the intersection of the box
    with the container, the new [dim] is the size of that intersection,
    the raster has that shape, and each of its cells is the cell of the
    old raster at the same position of the canvas. *)
Theorem adjust_for_boundaries_crops wd b bag_obj :
  let p0 := Z.max (pose bag_obj).1 (lower_bound b).1 in
  let p1 := Z.max (pose bag_obj).2 (lower_bound b).2 in
  let q0 := Z.min ((pose bag_obj).1 + (dim bag_obj).1) (upper_bound b).1 in
  let q1 := Z.min ((pose bag_obj).2 + (dim bag_obj).2) (upper_bound b).2 in
  Z.of_nat (length (data bag_obj)) = (dim bag_obj).1 →
  rect wd (data bag_obj) → Z.of_nat wd = (dim bag_obj).2 →
  (p0 < q0)%Z → (p1 < q1)%Z →
  let o := _adjust_for_boundaries b bag_obj in
  pose o = (p0, p1) ∧ dim o = (q0 - p0, q1 - p1)%Z ∧
  length (data o) = Z.to_nat (q0 - p0) ∧ rect (Z.to_nat (q1 - p1)) (data o) ∧
  ∀ r c, r < Z.to_nat (q0 - p0) → c < Z.to_nat (q1 - p1) →
    cell (data o) r c
    = cell (data bag_obj) (Z.to_nat (p0 - (pose bag_obj).1) + r)
                          (Z.to_nat (p1 - (pose bag_obj).2) + c).
Proof.
  intros p0 p1 q0 q1 Hlen Hrect Hwd H0 H1. cbv zeta.
  rewrite adjust_for_boundaries_stages.
  destruct (clamp_top_crop b bag_obj) as (Hp1 & Hd1 & Hdat1); [done|lia|].
  fold p0 in Hp1, Hd1, Hdat1. set (o1 := clamp_top b bag_obj) in *.
  destruct (clamp_bottom_crop b o1) as (Hp2 & Hd2 & Hdat2).
  { rewrite Hdat1, Hd1, length_drop. simpl. lia. }
  { rewrite Hp1. simpl. lia. }
  rewrite Hp1 in Hp2. rewrite Hp1, Hd1 in Hd2. rewrite Hp1, Hd1 in Hdat2. cbn [fst snd] in Hp2, Hd2, Hdat2.
  replace (Z.min (p0 + ((pose bag_obj).1 + (dim bag_obj).1 - p0)) (upper_bound b).1)
    with q0 in Hd2, Hdat2 by lia.
  set (o2 := clamp_bottom b o1) in *.
  assert (Hrect2 : rect wd (data o2)).
  { rewrite Hdat2, Hdat1. by apply rect_take, rect_drop. }
  destruct (clamp_left_crop wd b o2) as (Hp3 & Hd3 & Hdat3).
  { done. } { by rewrite Hd2. } { rewrite Hp2, Hd2. simpl. lia. }
  rewrite Hp2 in Hp3. rewrite Hp2, Hd2 in Hd3. rewrite Hp2 in Hdat3. cbn [fst snd] in Hp3, Hd3, Hdat3.
  fold p1 in Hp3, Hd3, Hdat3. set (o3 := clamp_left b o2) in *.
  assert (Hrect3 : rect (wd - Z.to_nat (p1 - (pose bag_obj).2)) (data o3)).
  { rewrite Hdat3. by apply rect_drop_cols. }
  destruct (clamp_right_crop _ b o3 Hrect3) as (Hp4 & Hd4 & Hdat4).
  { rewrite Hd3. simpl. lia. } { rewrite Hp3. simpl. lia. }
  rewrite Hp3 in Hp4. rewrite Hp3, Hd3 in Hd4. rewrite Hp3, Hd3 in Hdat4. cbn [fst snd] in Hp4, Hd4, Hdat4.
  replace (Z.min (p1 + ((pose bag_obj).2 + (dim bag_obj).2 - p1)) (upper_bound b).2)
    with q1 in Hd4, Hdat4 by lia.
  split; [done|]. split; [done|]. rewrite Hdat4. split.
  { rewrite length_fmap, Hdat3, length_fmap, Hdat2, length_take, Hdat1, length_drop. lia. }
  split.
  { apply (rect_take_cols _ _ _ Hrect3). lia. }
  intros r c Hr Hc.
  rewrite cell_take_cols by done. rewrite Hdat3, cell_drop_cols.
  rewrite Hdat2, cell_take_rows by done. by rewrite Hdat1, cell_drop_rows.
Qed.

(** A 3 x 4 raster placed at (0, 2) in a container that spans rows and
    columns 1 to 10: the first row is cut off. *)
Lemma adjust_for_boundaries_crops_witness :
  pose (_adjust_for_boundaries empty_bag
          (mk_object ShB 7 [[7; 7; 0; 7]; [7; 0; 0; 7]; [7; 7; 7; 7]]%Z (3, 4)%Z (0, 2)%Z))
    = (1, 2)%Z ∧
  dim (_adjust_for_boundaries empty_bag
         (mk_object ShB 7 [[7; 7; 0; 7]; [7; 0; 0; 7]; [7; 7; 7; 7]]%Z (3, 4)%Z (0, 2)%Z))
    = (2, 4)%Z ∧
  data (_adjust_for_boundaries empty_bag
          (mk_object ShB 7 [[7; 7; 0; 7]; [7; 0; 0; 7]; [7; 7; 7; 7]]%Z (3, 4)%Z (0, 2)%Z))
    = [[7; 0; 0; 7]; [7; 7; 7; 7]]%Z.
Proof.
  destruct (adjust_for_boundaries_crops 4 empty_bag
              (mk_object ShB 7 [[7; 7; 0; 7]; [7; 0; 0; 7]; [7; 7; 7; 7]]%Z
                 (3, 4)%Z (0, 2)%Z))
    as (Hp & Hd & _).
  - reflexivity.
  - repeat constructor.
  - reflexivity.
  - vm_compute. reflexivity.
  - vm_compute. reflexivity.
  - split; [exact Hp|]. split; [exact Hd|]. vm_compute. reflexivity.
Defined.

(** X6: an edge of the row crop.  When the box of the object ends exactly
    on the lower bound of the rows ([pose[0] + dim[0] == lower_bound[0]]),
    the first block sets [dim[0]] to 0 but leaves every row of the raster
    in place: [data[-0:, :]] is the whole array. *)
Theorem adjust_for_boundaries_zero_height b bag_obj :
  ((pose bag_obj).1 + (dim bag_obj).1 = (lower_bound b).1)%Z →
  (0 < (dim bag_obj).1)%Z → ((lower_bound b).1 < (upper_bound b).1)%Z →
  let o := _adjust_for_boundaries b bag_obj in
  (pose o).1 = (lower_bound b).1 ∧ (dim o).1 = 0%Z ∧
  length (data o) = length (data bag_obj).
Proof.
  intros Hend Hdim Hbounds. cbv zeta. rewrite adjust_for_boundaries_stages.
  assert (Htop : (pose (clamp_top b bag_obj)).1 = (lower_bound b).1 ∧
                 (dim (clamp_top b bag_obj)).1 = 0%Z ∧
                 data (clamp_top b bag_obj) = data bag_obj).
  { unfold clamp_top. cbv zeta. rewrite decide_True by lia.
    cbn [pose dim data set_pose set_dim set_data fst snd].
    split; [done|]. split; [lia|].
    replace (- ((dim bag_obj).1 - ((lower_bound b).1 - (pose bag_obj).1)))%Z with 0%Z by lia.
    rewrite slice2_rows. unfold py_slice. simpl.
    rewrite slice_index_nonneg by done. simpl.
    rewrite drop_0, Nat.sub_0_r. apply firstn_all. }
  destruct Htop as (Hp1 & Hd1 & Hdat1). set (o1 := clamp_top b bag_obj) in *.
  assert (Hbot : clamp_bottom b o1 = o1).
  { unfold clamp_bottom. cbv zeta. rewrite decide_False; [done|lia]. }
  destruct (clamp_left_rows b (clamp_bottom b o1)) as (Hp3 & Hd3 & Hl3).
  destruct (clamp_right_rows b (clamp_left b (clamp_bottom b o1))) as (Hp4 & Hd4 & Hl4).
  rewrite Hp4, Hd4, Hl4, Hp3, Hd3, Hl3, Hbot. by rewrite Hdat1.
Qed.

Lemma adjust_for_boundaries_zero_height_witness :
  (pose (_adjust_for_boundaries empty_bag
           (mk_object ShB 7 [[7; 7]; [7; 7]]%Z (2, 2)%Z (-1, 4)%Z))).1 = 1%Z ∧
  (dim (_adjust_for_boundaries empty_bag
          (mk_object ShB 7 [[7; 7]; [7; 7]]%Z (2, 2)%Z (-1, 4)%Z))).1 = 0%Z ∧
  length (data (_adjust_for_boundaries empty_bag
                  (mk_object ShB 7 [[7; 7]; [7; 7]]%Z (2, 2)%Z (-1, 4)%Z))) = 2.
Proof.
  apply (adjust_for_boundaries_zero_height empty_bag
           (mk_object ShB 7 [[7; 7]; [7; 7]]%Z (2, 2)%Z (-1, 4)%Z)).
  - reflexivity.
  - reflexivity.
  - reflexivity.
Defined.
(** ** The rasterizers: the crop to the bounding box *)

Lemma foldl_min_spec (l : list nat) x :
  let m := foldl Nat.min x l in (m = x ∨ m ∈ l) ∧ m ≤ x ∧ ∀ v, v ∈ l → m ≤ v.
Proof.
  revert x. induction l as [|y l IH]; intros x; simpl.
  - split; [by left|]. split; [lia|]. intros v Hv. by apply elem_of_nil in Hv.
  - destruct (IH (x `min` y)) as (Hin & Hle & Hall). split; [|split].
    + destruct Hin as [Hin|Hin]; [|right; by right].
      rewrite Hin. destruct (Nat.min_spec x y) as [[_ ->]|[_ ->]]; [by left|right; left].
    + lia.
    + intros v [->|Hv]%elem_of_cons; [lia|by apply Hall].
Qed.

Lemma foldl_nat_max_spec (l : list nat) x :
  let m := foldl Nat.max x l in (m = x ∨ m ∈ l) ∧ x ≤ m ∧ ∀ v, v ∈ l → v ≤ m.
Proof.
  revert x. induction l as [|y l IH]; intros x; simpl.
  - split; [by left|]. split; [lia|]. intros v Hv. by apply elem_of_nil in Hv.
  - destruct (IH (x `max` y)) as (Hin & Hle & Hall). split; [|split].
    + destruct Hin as [Hin|Hin]; [|right; by right].
      rewrite Hin. destruct (Nat.max_spec x y) as [[_ ->]|[_ ->]]; [right; left|by left].
    + lia.
    + intros v [->|Hv]%elem_of_cons; [lia|by apply Hall].
Qed.

Lemma arr_min_spec l m : arr_min l = Some m → m ∈ l ∧ ∀ v, v ∈ l → m ≤ v.
Proof.
  destruct l as [|x l]; [done|]. intros [= <-].
  destruct (foldl_min_spec l x) as (Hin & Hle & Hall). split.
  - destruct Hin as [->|Hin]; [left|by right].
  - intros v [->|Hv]%elem_of_cons; [done|by apply Hall].
Qed.

Lemma arr_max_spec l m : arr_max l = Some m → m ∈ l ∧ ∀ v, v ∈ l → v ≤ m.
Proof.
  destruct l as [|x l]; [done|]. intros [= <-].
  destruct (foldl_nat_max_spec l x) as (Hin & Hle & Hall). split.
  - destruct Hin as [->|Hin]; [left|by right].
  - intros v [->|Hv]%elem_of_cons; [done|by apply Hall].
Qed.

Lemma Forall_py_slice {A} (P : A → Prop) (l : list A) a b :
  Forall P l → Forall P (py_slice l a b).
Proof. intros Hl. unfold py_slice. by apply Forall_take, Forall_drop. Qed.

(** The crop, cell by cell: it returns when the mask has a foreground
    cell, and then it is the window of the mask that starts at the
    smallest foreground row and column. *)
Lemma crop_to_bbox_cells W mask :
  rect W mask →
  (crop_to_bbox mask = None ↔ np_where mask = []) ∧
  ∀ img, crop_to_bbox mask = Some img →
    ∃ r0 c0 r1 c1,
      (∀ i j, (i, j) ∈ np_where mask → r0 ≤ i ≤ r1 ∧ c0 ≤ j ≤ c1) ∧
      (∃ j, (r0, j) ∈ np_where mask) ∧ (∃ i, (i, c0) ∈ np_where mask) ∧
      length img = (r1 + 2) `min` length mask - r0 ∧
      rect ((c1 + 2) `min` W - c0) img ∧
      ∀ i j, cell img i j =
        if decide (r0 + i < r1 + 2 ∧ c0 + j < c1 + 2)
        then cell mask (r0 + i) (c0 + j) else None.
Proof.
  intros Hrect. unfold crop_to_bbox. cbv zeta.
  destruct (np_where mask) as [|[i0 j0] l] eqn:Hw; [done|].
  rewrite <-Hw.
  destruct (arr_min (np_where mask).*1) as [r0|] eqn:Hr0; [|by rewrite Hw in Hr0].
  destruct (arr_max (np_where mask).*1) as [r1|] eqn:Hr1; [|by rewrite Hw in Hr1].
  destruct (arr_min (np_where mask).*2) as [c0|] eqn:Hc0; [|by rewrite Hw in Hc0].
  destruct (arr_max (np_where mask).*2) as [c1|] eqn:Hc1; [|by rewrite Hw in Hc1].
  simpl. split; [split; [done|by rewrite Hw]|]. intros img [= <-].
  apply arr_min_spec in Hr0 as [Hr0in Hr0], Hc0 as [Hc0in Hc0].
  apply arr_max_spec in Hr1 as [Hr1in Hr1], Hc1 as [Hc1in Hc1].
  exists r0, c0, r1, c1.
  assert (Hbox : ∀ i j, (i, j) ∈ np_where mask → r0 ≤ i ≤ r1 ∧ c0 ≤ j ≤ c1).
  { intros i j Hin.
    assert (i ∈ (np_where mask).*1) by (apply list_elem_of_fmap; by exists (i, j)).
    assert (j ∈ (np_where mask).*2) by (apply list_elem_of_fmap; by exists (i, j)).
    split; split; eauto. }
  apply list_elem_of_fmap in Hr0in as ([ir jr] & Heq & Hinr). simpl in Heq. subst ir.
  apply list_elem_of_fmap in Hc0in as ([ic jc] & Heq & Hinc). simpl in Heq. subst jc.
  split; [done|]. split; [by exists jr|]. split; [by exists ic|].
  destruct (Hbox _ _ Hinr) as [[_ Hr01] _]. destruct (Hbox _ _ Hinc) as [_ [_ Hc01]].
  assert (Hr0n : r0 < length mask).
  { apply elem_of_np_where in Hinr as (v & Hv & _).
    apply cell_Some in Hv as (row & Hrow & _). by eapply lookup_lt_Some. }
  assert (Hc0W : c0 < W).
  { apply elem_of_np_where in Hinc as (v & Hv & _).
    apply cell_Some in Hv as (row & Hrow & Hjj).
    apply lookup_lt_Some in Hjj. by rewrite (rect_lookup _ _ _ _ Hrect Hrow) in Hjj. }
  assert (Hs0 : slice_index (length mask) (Z.of_nat r0) = r0)
    by (rewrite slice_index_nonneg by lia; lia).
  assert (Hs1 : slice_index (length mask)
                  (Z.of_nat r0 + (Z.of_nat r1 - Z.of_nat r0 + 1) + 1)
                = (r1 + 2) `min` length mask)
    by (rewrite slice_index_nonneg by lia; lia).
  assert (Hs2 : slice_index W (Z.of_nat c0) = c0)
    by (rewrite slice_index_nonneg by lia; lia).
  assert (Hs3 : slice_index W (Z.of_nat c0 + (Z.of_nat c1 - Z.of_nat c0 + 1) + 1)
                = (c1 + 2) `min` W)
    by (rewrite slice_index_nonneg by lia; lia).
  split; [|split].
  - by rewrite length_slice2, length_py_slice, Hs0, Hs1.
  - unfold rect, slice2. apply Forall_fmap, Forall_py_slice.
    eapply Forall_impl; [exact Hrect|]. intros row' Hrow'. simpl.
    by rewrite length_py_slice, Hrow', Hs2, Hs3.
  - intros a b. rewrite (cell_slice2_window W) by done.
    rewrite Hs0, Hs1, Hs2, Hs3.
    destruct (decide (r0 + a < r1 + 2 ∧ c0 + b < c1 + 2)) as [[Ha Hb]|Hout].
    + destruct (decide (r0 + a < length mask ∧ c0 + b < W)) as [[Ha' Hb']|Hout'].
      * rewrite decide_True by lia. done.
      * rewrite decide_False by lia. symmetry. unfold cell.
        destruct (mask !! (r0 + a)) as [rw|] eqn:Hrw; simpl; [|done].
        apply lookup_ge_None_2. rewrite (rect_lookup _ _ _ _ Hrect Hrw).
        apply lookup_lt_Some in Hrw. lia.
    + rewrite decide_False by lia. done.
Qed.

(** X7: the crop shared by the rasterizers.  It raises exactly when the
    mask has no foreground cell ([max] of an empty array).  Otherwise the
    mask image is a window of the mask that starts at the first foreground
    row and column: every foreground cell of the mask is in it, at its
    offset from that corner, and its first row and its first column each
    hold a foreground cell. *)
Theorem crop_to_bbox_keeps_foreground W mask :
  rect W mask →
  (crop_to_bbox mask = None ↔ np_where mask = []) ∧
  ∀ img, crop_to_bbox mask = Some img →
    ∃ r0 c0,
      (∀ i j v, cell mask i j = Some v → v ≠ 0%Z →
         r0 ≤ i ∧ c0 ≤ j ∧ cell img (i - r0) (j - c0) = Some v) ∧
      (∀ i j v, cell img i j = Some v → cell mask (r0 + i) (c0 + j) = Some v) ∧
      (∃ j v, cell img 0 j = Some v ∧ v ≠ 0%Z) ∧
      (∃ i v, cell img i 0 = Some v ∧ v ≠ 0%Z).
Proof.
  intros Hrect. destruct (crop_to_bbox_cells W mask Hrect) as [Hnone Hsome].
  split; [done|]. intros img Himg.
  destruct (Hsome img Himg) as (r0 & c0 & r1 & c1 & Hbox & [jr Hjr] & [ic Hic] & _ & _ & Hcell).
  exists r0, c0. split; [|split; [|split]].
  - intros i j v Hv Hnz.
    destruct (Hbox i j) as [[? ?] [? ?]]; [apply elem_of_np_where; eauto|].
    split; [done|]. split; [done|]. rewrite Hcell. rewrite decide_True by lia.
    replace (r0 + (i - r0)) with i by lia. replace (c0 + (j - c0)) with j by lia. done.
  - intros i j v. rewrite Hcell. by case_decide.
  - destruct (Hbox _ _ Hjr) as [[? ?] [? ?]].
    apply elem_of_np_where in Hjr as (v & Hv & Hnz). exists (jr - c0), v.
    split; [|done]. rewrite Hcell. rewrite decide_True by lia.
    rewrite Nat.add_0_r. replace (c0 + (jr - c0)) with jr by lia. done.
  - destruct (Hbox _ _ Hic) as [[? ?] [? ?]].
    apply elem_of_np_where in Hic as (v & Hv & Hnz). exists (ic - r0), v.
    split; [|done]. rewrite Hcell. rewrite decide_True by lia.
    rewrite Nat.add_0_r. replace (r0 + (ic - r0)) with ic by lia. done.
Qed.

Lemma crop_to_bbox_keeps_foreground_witness :
  (crop_to_bbox [[0; 0; 0]; [0; 0; 5]; [0; 2; 0]]%Z = None
   ↔ np_where [[0; 0; 0]; [0; 0; 5]; [0; 2; 0]]%Z = []) ∧
  ∀ img, crop_to_bbox [[0; 0; 0]; [0; 0; 5]; [0; 2; 0]]%Z = Some img →
    ∃ r0 c0,
      (∀ i j v, cell [[0; 0; 0]; [0; 0; 5]; [0; 2; 0]]%Z i j = Some v → v ≠ 0%Z →
         r0 ≤ i ∧ c0 ≤ j ∧ cell img (i - r0) (j - c0) = Some v) ∧
      (∀ i j v, cell img i j = Some v →
         cell [[0; 0; 0]; [0; 0; 5]; [0; 2; 0]]%Z (r0 + i) (c0 + j) = Some v) ∧
      (∃ j v, cell img 0 j = Some v ∧ v ≠ 0%Z) ∧
      (∃ i v, cell img i 0 = Some v ∧ v ≠ 0%Z).
Proof.
  apply (crop_to_bbox_keeps_foreground 3). repeat constructor.
Defined.

Lemma cell_zeros n m i j :
  cell (zeros n m) i j = if decide (i < n ∧ j < m) then Some 0%Z else None.
Proof.
  unfold cell, zeros. destruct (decide (i < n)) as [Hi|Hi].
  - rewrite lookup_replicate_2 by done. simpl.
    destruct (decide (j < m)) as [Hj|Hj].
    + rewrite lookup_replicate_2 by done. by rewrite decide_True.
    + rewrite decide_False by tauto. apply lookup_replicate_None. lia.
  - rewrite decide_False by tauto.
    assert (replicate n (replicate m 0%Z) !! i = None) as ->; [|done].
    apply lookup_replicate_None. lia.
Qed.

Lemma rect_zeros n m : rect m (zeros n m).
Proof.
  unfold rect, zeros. apply Forall_replicate. apply length_replicate.
Qed.

Lemma assign_const_in_range g idx v g' :
  assign_const g idx v = Some g' → ∀ rc, rc ∈ idx → is_Some (cell g rc.1 rc.2).
Proof.
  unfold assign_const. revert g. induction idx as [|[r c] idx IH]; intros g; simpl.
  - intros _ rc Hrc. by apply elem_of_nil in Hrc.
  - destruct (set_cell g r c v) as [g1|] eqn:Hset; simpl; [|by rewrite assign_const_None].
    intros Hrun rc [->|Hrc]%elem_of_cons.
    + simpl. unfold set_cell in Hset. unfold cell.
      destruct (g !! r) as [row|]; simpl in *; [|done].
      case_decide; [|done]. by apply lookup_lt_is_Some_2.
    + specialize (IH g1 Hrun rc Hrc). rewrite (set_cell_cells _ _ _ _ _ Hset) in IH.
      case_decide as Heq; [|done]. destruct Heq as [-> ->].
      unfold set_cell in Hset. unfold cell.
      destruct (g !! r) as [row|]; simpl in *; [|done].
      case_decide; [|done]. by apply lookup_lt_is_Some_2.
Qed.

(** What the two rasterizers return from a mask image: the raster is the
    image as 0/1, [dim] is its shape. *)
Lemma raster_of_crop W mask data dm :
  rect W mask →
  (bin_image ← crop_to_bbox mask; Some (astype_bool bin_image, shape bin_image))
    = Some (data, dm) →
  dm = shape data ∧
  (∀ i j v, cell data i j = Some v → v = 0%Z ∨ v = 1%Z) ∧
  (∃ j, cell data 0 j = Some 1%Z) ∧ (∃ i, cell data i 0 = Some 1%Z).
Proof.
  intros Hrect Hrun.
  destruct (crop_to_bbox mask) as [img|] eqn:Himg; simpl in Hrun; [|done].
  injection Hrun as <- <-.
  destruct (proj2 (crop_to_bbox_cells W mask Hrect) img Himg)
    as (r0 & c0 & r1 & c1 & Hbox & [jr Hjr] & [ic Hic] & _ & _ & Hcell).
  assert (∃ j v, cell img 0 j = Some v ∧ v ≠ 0%Z) as (j & v & Hv & Hnz).
  { destruct (Hbox _ _ Hjr) as [[? ?] [? ?]].
    apply elem_of_np_where in Hjr as (v & Hv & Hnz). exists (jr - c0), v.
    split; [|done]. rewrite Hcell. rewrite decide_True by lia.
    rewrite Nat.add_0_r. replace (c0 + (jr - c0)) with jr by lia. done. }
  assert (∃ i v, cell img i 0 = Some v ∧ v ≠ 0%Z) as (i & u & Hu & Hunz).
  { destruct (Hbox _ _ Hic) as [[? ?] [? ?]].
    apply elem_of_np_where in Hic as (v' & Hv' & Hnz'). exists (ic - r0), v'.
    split; [|done]. rewrite Hcell. rewrite decide_True by lia.
    rewrite Nat.add_0_r. replace (r0 + (ic - r0)) with ic by lia. done. }
  split; [|split; [|split]].
  - unfold shape, astype_bool. rewrite length_fmap. f_equal.
    destruct img as [|row img]; [done|]. simpl. by rewrite length_fmap.
  - intros a b x. rewrite cell_astype_bool.
    destruct (cell img a b); simpl; [|done]. intros [= <-]. case_decide; tauto.
  - exists j. rewrite cell_astype_bool, Hv. simpl. by rewrite decide_False.
  - exists i. rewrite cell_astype_bool, Hu. simpl. by rewrite decide_False.
Qed.

Lemma np_where_zeros n m : np_where (zeros n m) = [].
Proof.
  apply np_where_nil. intros i j v. rewrite cell_zeros. case_decide; congruence.
Qed.

(** X8: [create_ellipse] returns exactly when the library call yields at
    least one pixel and every pixel lies inside the drawing buffer of side
    [2 * max(axes) + 1]; otherwise it raises.  When it returns, [dim] is
    the shape of the raster, the raster holds only 0 and 1, and its first
    row and its first column each hold a 1. *)
Theorem create_ellipse_returns (angle : Type)
    (ellipse : Z → Z → Z → Z → angle → nat * nat → list (nat * nat))
    (axes : Z * Z) (theta : angle) :
  let m := Z.max axes.1 axes.2 in
  let n := Z.to_nat (2 * m + 1) in
  let e := ellipse (m + 1)%Z (m + 1)%Z axes.1 axes.2 theta (n, n) in
  (is_Some (create_ellipse angle ellipse axes theta) ↔
   e ≠ [] ∧ ∀ px, px ∈ e → px.1 < n ∧ px.2 < n) ∧
  ∀ data dm, create_ellipse angle ellipse axes theta = Some (data, dm) →
    dm = shape data ∧
    (∀ i j v, cell data i j = Some v → v = 0%Z ∨ v = 1%Z) ∧
    (∃ j, cell data 0 j = Some 1%Z) ∧ (∃ i, cell data i 0 = Some 1%Z).
Proof.
  intros m n e. unfold create_ellipse, set_pixels. fold m. fold n. fold e.
  destruct (assign_const (zeros n n) e 1) as [mask|] eqn:Hmask; simpl.
  - destruct (assign_const_rect n _ _ _ _ (rect_zeros n n) Hmask) as [Hrect _].
    pose proof (assign_const_cells _ _ _ _ Hmask) as Hcells.
    pose proof (assign_const_in_range _ _ _ _ Hmask) as Hrange.
    assert (Hin : ∀ px, px ∈ e → px.1 < n ∧ px.2 < n).
    { intros px Hpx. specialize (Hrange px Hpx). rewrite cell_zeros in Hrange.
      case_decide; [done|]. by destruct Hrange. }
    split.
    + split.
      * intros Hsome. split; [|done]. intros He.
        assert (crop_to_bbox mask = None) as Hnone.
        { apply (crop_to_bbox_cells n mask Hrect). apply np_where_nil.
          intros i j v. rewrite Hcells, He. rewrite decide_False by apply not_elem_of_nil.
          rewrite cell_zeros. case_decide; congruence. }
        rewrite Hnone in Hsome. by destruct Hsome.
      * intros [He _]. destruct e as [|[i j] e'] eqn:Hee; [done|].
        destruct (crop_to_bbox mask) as [img|] eqn:Himg; [by eexists|]. exfalso.
        apply (crop_to_bbox_cells n mask Hrect) in Himg.
        assert ((i, j) ∈ np_where mask) as Hmem; [|by rewrite Himg in Hmem; apply elem_of_nil in Hmem].
        apply elem_of_np_where. exists 1%Z. split; [|done].
        rewrite Hcells. rewrite decide_True; [done|left].
    + intros data dm Hrun. by apply (raster_of_crop n mask).
  - split; [|done]. split; [by intros [? ?]|]. intros [_ Hin]. exfalso.
    destruct (assign_const_is_Some (zeros n n) e 1) as [g Hg]; [|congruence].
    intros px Hpx. rewrite cell_zeros. rewrite decide_True; [eauto|by apply Hin].
Qed.

(** X9: whatever the rotation does to the mask, as long as it returns
    rectangular arrays: when [create_rectanguloid] returns, [dim] is the
    shape of the raster, the raster holds only 0 and 1, and its first row
    and its first column each hold a 1. *)
Theorem create_rectanguloid_raster (angle : Type) (rotate : grid → angle → grid)
    (dim : Z * Z) (theta : angle) :
  (∀ g w, rect w g → ∃ W, rect W (rotate g theta)) →
  ∀ data dm, create_rectanguloid angle rotate dim theta = Some (data, dm) →
    dm = shape data ∧
    (∀ i j v, cell data i j = Some v → v = 0%Z ∨ v = 1%Z) ∧
    (∃ j, cell data 0 j = Some 1%Z) ∧ (∃ i, cell data i 0 = Some 1%Z).
Proof.
  intros Hrot data dm. unfold create_rectanguloid. cbv zeta.
  match goal with |- context [rotate ?g theta] =>
    destruct (Hrot g (Z.to_nat (2 * (Z.sqrt (dim.1 ^ 2 + dim.2 ^ 2) / 2) + 1))) as [W HW]
  end.
  - unfold fill_slice2, fill_slice, rect. apply Forall_forall. intros row Hrow.
    apply list_elem_of_lookup in Hrow as [i Hi].
    rewrite list_lookup_imap in Hi.
    destruct (zeros _ _ !! i) as [row0|] eqn:Hrow0; simpl in Hi; [|done].
    pose proof (rect_lookup _ _ _ _ (rect_zeros _ _) Hrow0) as Hlen.
    injection Hi as <-. case_decide; [|done]. by rewrite length_imap.
  - intros Hrun. by apply (raster_of_crop W _ _ _ HW).
Qed.

Lemma create_rectanguloid_raster_witness :
  (6, 4) = shape [[1; 1; 1; 0]; [1; 1; 1; 0]; [1; 1; 1; 0];
                  [1; 1; 1; 0]; [1; 1; 1; 0]; [1; 1; 1; 0]]%Z ∧
  (∀ i j v, cell [[1; 1; 1; 0]; [1; 1; 1; 0]; [1; 1; 1; 0];
                  [1; 1; 1; 0]; [1; 1; 1; 0]; [1; 1; 1; 0]]%Z i j = Some v →
            v = 0%Z ∨ v = 1%Z) ∧
  (∃ j, cell [[1; 1; 1; 0]; [1; 1; 1; 0]; [1; 1; 1; 0];
              [1; 1; 1; 0]; [1; 1; 1; 0]; [1; 1; 1; 0]]%Z 0 j = Some 1%Z) ∧
  (∃ i, cell [[1; 1; 1; 0]; [1; 1; 1; 0]; [1; 1; 1; 0];
              [1; 1; 1; 0]; [1; 1; 1; 0]; [1; 1; 1; 0]]%Z i 0 = Some 1%Z).
Proof.
  apply (create_rectanguloid_raster unit rotate_by_zero (6, 2)%Z tt).
  - intros g w Hg. by exists w.
  - vm_compute. reflexivity.
Defined.
(** ** The overlap rule: what it leaves alone and how it ends *)

Lemma set_pose_set_pose o p q : set_pose (set_pose o p) q = set_pose o q.
Proof. done. Qed.

Lemma set_pose_pose o : set_pose o (pose o) = o.
Proof. by destruct o. Qed.

Lemma set_flag_set_flag b f g :
  set_LATERAL_OSC_FLAG (set_LATERAL_OSC_FLAG b f) g = set_LATERAL_OSC_FLAG b g.
Proof. done. Qed.

Lemma set_flag_flag b : set_LATERAL_OSC_FLAG b (LATERAL_OSC_FLAG b) = b.
Proof. by destruct b. Qed.

(** One pass changes the pose of the object and the oscillation flag of
    the bag, nothing else; after a pass that did not stop at the floor the
    state holds the overlap of the object as it now lies. *)
Lemma overlap_pass_frame label_components s s' brk :
  overlap_pass label_components s = Some (s', brk) →
  st_obj s' = set_pose (st_obj s) (pose (st_obj s')) ∧
  st_bag s' = set_LATERAL_OSC_FLAG (st_bag s) (LATERAL_OSC_FLAG (st_bag s')) ∧
  (brk = true ∧ (∃ p, passes s' = passes s ++ [HitGround p]) ∨
   (∃ p osc, passes s' = passes s ++ [Shifted p osc]) ∧
   ol_ctr s' = S (ol_ctr s) ∧ brk = bool_decide (S (ol_ctr s) = 10) ∧
   get_overlap (st_bag s') (st_obj s') = Some (OVERLAP_FLAG s', obj_int s')).
Proof.
  unfold overlap_pass.
  destruct (select_component _) as [[max_ind bin]|]; simpl; [|done].
  destruct (arr_min (np_where bin).*1) as [rmin|]; simpl; [|done].
  destruct (arr_max (np_where bin).*1) as [rmax|]; simpl; [|done].
  destruct (arr_min (np_where bin).*2) as [cmin|]; simpl; [|done].
  destruct (arr_max (np_where bin).*2) as [cmax|]; simpl; [|done].
  case_bool_decide as Hground.
  { intros [= <- <-]. simpl. split; [done|]. split; [by rewrite set_flag_flag|].
    left. eauto. }
  match goal with |- context [mbind ?k ?m] => destruct m as [osc_cond|] end; simpl; [|done].
  destruct (get_overlap _ _) as [[flag int]|] eqn:Hov; simpl; [|done].
  intros [= <- <-]. simpl. split; [by destruct osc_cond|].
  split; [destruct osc_cond; [done|by rewrite set_flag_flag]|].
  right. split; [eauto|]. split; [done|]. split; [done|]. exact Hov.
Qed.

Lemma overlap_loop_frame label_components fuel s s' :
  overlap_loop label_components fuel s = Done s' →
  get_overlap (st_bag s) (st_obj s) = Some (OVERLAP_FLAG s, obj_int s) →
  length (passes s) = ol_ctr s →
  st_obj s' = set_pose (st_obj s) (pose (st_obj s')) ∧
  st_bag s' = set_LATERAL_OSC_FLAG (st_bag s) (LATERAL_OSC_FLAG (st_bag s')) ∧
  ((∃ int, get_overlap (st_bag s') (st_obj s') = Some (false, int)) ∨
   (∃ p, last (passes s') = Some (HitGround p)) ∨
   length (passes s') = 10).
Proof.
  revert s. induction fuel as [|fuel IH]; intros s; simpl.
  - destruct (OVERLAP_FLAG s) eqn:Hflag; [done|]. intros [= <-] Hov Hlen.
    split; [by rewrite set_pose_pose|]. split; [by rewrite set_flag_flag|].
    left. eauto.
  - destruct (OVERLAP_FLAG s) eqn:Hflag.
    + destruct (overlap_pass label_components s) as [[s1 brk]|] eqn:Hpass; [|done].
      apply overlap_pass_frame in Hpass as (Ho & Hb & Hev).
      destruct brk.
      * intros [= <-] Hov Hlen. split; [done|]. split; [done|]. right.
        destruct Hev as [[_ [p ->]]|([p [osc ->]] & Hctr & Hbrk & _)].
        -- left. exists p. by rewrite last_snoc.
        -- right. symmetry in Hbrk. apply bool_decide_eq_true in Hbrk.
           rewrite length_app. simpl. lia.
      * intros Hrun Hov Hlen.
        destruct Hev as [[? _]|([p [osc Hp]] & Hctr & Hbrk & Hov1)]; [done|].
        destruct (IH s1 Hrun Hov1) as (Ho' & Hb' & Hend).
        { rewrite Hp, length_app. simpl. lia. }
        split; [by rewrite Ho', Ho|]. split; [by rewrite Hb', Hb|]. done.
    + intros [= <-] Hov Hlen.
      split; [by rewrite set_pose_pose|]. split; [by rewrite set_flag_flag|].
      left. eauto.
Qed.

(** X10: the overlap rule moves the object and does nothing else.  When
    it returns, the object is the one it was given at a new pose: raster,
    [dim], label and the other attributes are as before.  The bag keeps
    its boundary and geometry; without [fix_obj] the canvas is as it was,
    with [fix_obj] it is the canvas of the call with the moved object
    committed. *)
Theorem run_shape_grammar_overlap_moves_only
    (label_components : grid → grid) (fuel : nat) (b : Bag) (bag_obj : Object2D)
    (fix_obj rs cs : bool) (b' : Bag) (o' : Object2D) (ps : list pass_event) :
  run_shape_grammar_overlap label_components fuel b bag_obj fix_obj rs cs
    = Done (b', o', ps) →
  o' = set_pose bag_obj (pose o') ∧
  boundary b' = boundary b ∧ size b' = size b ∧ bb_h b' = bb_h b ∧
  extents b' = extents b ∧
  (if fix_obj then place_object_in_bag (ws_bag b) o' = Some (ws_bag b')
   else ws_bag b' = ws_bag b).
Proof.
  unfold run_shape_grammar_overlap.
  destruct (get_overlap b bag_obj) as [[flag int]|] eqn:Hov; [|done].
  match goal with |- context [overlap_loop _ _ ?s0] =>
    destruct (overlap_loop label_components fuel s0) as [s| |] eqn:Hloop; [|done..];
    apply overlap_loop_frame in Hloop as (Ho & Hb & _); [|done..]
  end.
  simpl in Ho, Hb. destruct fix_obj.
  - destruct (place_object_in_bag _ _) as [ws|] eqn:Hplace; [|done].
    intros [= <- <- <-]. rewrite Hb in Hplace |- *. done.
  - intros [= <- <- <-]. rewrite Hb. done.
Qed.

Lemma run_shape_grammar_overlap_moves_only_witness :
  set_pose gapped_object (2, 6)%Z = set_pose gapped_object (pose (set_pose gapped_object (2, 6)%Z)) ∧
  boundary (set_LATERAL_OSC_FLAG demo_bag true) = boundary demo_bag ∧
  size (set_LATERAL_OSC_FLAG demo_bag true) = size demo_bag ∧
  bb_h (set_LATERAL_OSC_FLAG demo_bag true) = bb_h demo_bag ∧
  extents (set_LATERAL_OSC_FLAG demo_bag true) = extents demo_bag ∧
  ws_bag (set_LATERAL_OSC_FLAG demo_bag true) = ws_bag demo_bag.
Proof.
  apply (run_shape_grammar_overlap_moves_only label8 50 demo_bag gapped_object
           false true true (set_LATERAL_OSC_FLAG demo_bag true)
           (set_pose gapped_object (2, 6)%Z)
           [Shifted (5, 4)%Z false; Shifted (5, 5)%Z false; Shifted (5, 6)%Z true;
            Shifted (4, 6)%Z true; Shifted (3, 6)%Z true]).
  vm_compute. reflexivity.
Defined.

(** X11: how the overlap rule ends.  When it returns, the object at its
    new pose overlaps nothing on the canvas of the call, unless the loop
    was left at the floor test or after its tenth pass.  If there was no
    overlap at the call, no pass is made and the pose is unchanged. *)
Theorem run_shape_grammar_overlap_exit
    (label_components : grid → grid) (fuel : nat) (b : Bag) (bag_obj : Object2D)
    (fix_obj rs cs : bool) (b' : Bag) (o' : Object2D) (ps : list pass_event) :
  run_shape_grammar_overlap label_components fuel b bag_obj fix_obj rs cs
    = Done (b', o', ps) →
  ((∃ int, get_overlap b o' = Some (false, int)) ∨
   (∃ p, last ps = Some (HitGround p)) ∨
   length ps = 10) ∧
  ((∃ int, get_overlap b bag_obj = Some (false, int)) → ps = [] ∧ o' = bag_obj).
Proof.
  unfold run_shape_grammar_overlap.
  destruct (get_overlap b bag_obj) as [[flag int]|] eqn:Hov; [|done].
  match goal with |- context [overlap_loop _ _ ?s0] =>
    destruct (overlap_loop label_components fuel s0) as [s| |] eqn:Hloop; [|done..]
  end.
  intros Hrun.
  assert (o' = st_obj s ∧ ps = passes s) as [-> ->].
  { destruct fix_obj; [destruct (place_object_in_bag _ _)|]; by simplify_eq. }
  clear Hrun. split.
  - apply overlap_loop_frame in Hloop as (_ & Hb & Hend); [|done..].
    simpl in Hb. rewrite Hb in Hend. done.
  - intros [int' [= -> ->]]. destruct fuel; simpl in Hloop; by simplify_eq.
Qed.

Lemma run_shape_grammar_overlap_exit_witness :
  ((∃ int, get_overlap demo_bag (set_pose gapped_object (2, 6)%Z) = Some (false, int)) ∨
   (∃ p, last [Shifted (5, 4)%Z false; Shifted (5, 5)%Z false; Shifted (5, 6)%Z true;
               Shifted (4, 6)%Z true; Shifted (3, 6)%Z true] = Some (HitGround p)) ∨
   length [Shifted (5, 4)%Z false; Shifted (5, 5)%Z false; Shifted (5, 6)%Z true;
           Shifted (4, 6)%Z true; Shifted (3, 6)%Z true] = 10) ∧
  ((∃ int, get_overlap demo_bag gapped_object = Some (false, int)) →
   [Shifted (5, 4)%Z false; Shifted (5, 5)%Z false; Shifted (5, 6)%Z true;
    Shifted (4, 6)%Z true; Shifted (3, 6)%Z true] = [] ∧
   set_pose gapped_object (2, 6)%Z = gapped_object).
Proof.
  apply (run_shape_grammar_overlap_exit label8 50 demo_bag gapped_object
           false true true (set_LATERAL_OSC_FLAG demo_bag true)).
  vm_compute. reflexivity.
Defined.
(** ** The sheet fitter: the polyline of the midpoint recursion *)

(** Two points are joined by a list of segments when a chain of its
    segments, each taken in either direction, leads from one to the
    other. *)
Inductive joined (l : list segment) : Z * Z → Z * Z → Prop :=
  | joined_refl p : joined l p p
  | joined_step p q r : (p, q) ∈ l ∨ (q, p) ∈ l → joined l q r → joined l p r.

Lemma joined_mono l l' p q : l ⊆ l' → joined l p q → joined l' p q.
Proof.
  intros Hsub. induction 1 as [|p q r Hpq _ IH]; [constructor|].
  apply (joined_step _ p q); [|done]. destruct Hpq; [left|right]; by apply Hsub.
Qed.

Lemma joined_trans l p q r : joined l p q → joined l q r → joined l p r.
Proof.
  induction 1 as [|p q' r' Hpq _ IH]; [done|]. intros Hr.
  apply (joined_step _ p q'); [done|]. by apply IH.
Qed.

Lemma joined_sym l p q : joined l p q → joined l q p.
Proof.
  induction 1 as [|p q' r' Hpq _ IH]; [constructor|].
  apply (joined_trans _ _ q'); [done|].
  apply (joined_step _ q' p); [tauto|constructor].
Qed.

(** X12: the segments the midpoint recursion returns hang together: a
    chain of them leads from the first endpoint of the segment it was
    given to the second. *)
Theorem run_midpoint_recursion_joined
    (line : Z → Z → Z → Z → list (Z * Z)) (fuel : nat) (ws : grid) (s : segment)
    (l : list segment) :
  run_midpoint_recursion line fuel ws s = Done l → joined l s.1 s.2.
Proof.
  revert s l. induction fuel as [|fuel IH]; intros s l; simpl; [done|].
  assert (Hleaf : joined [s] s.1 s.2).
  { apply (joined_step _ _ s.2); [|constructor]. left. destruct s. left. }
  destruct (line_overlap line ws s) as [[|]|]; [|by intros [= <-]|done].
  destruct (relocate ws (average s.1 s.2)) as [mid_pt|]; [|done].
  case_decide; [by intros [= <-]|].
  destruct (run_midpoint_recursion line fuel ws (s.1, mid_pt)) as [l1| |] eqn:H1; [|done..].
  destruct (run_midpoint_recursion line fuel ws (s.2, mid_pt)) as [l2| |] eqn:H2; [|done..].
  intros [= <-]. apply IH in H1, H2. simpl in H1, H2.
  apply (joined_trans _ _ mid_pt).
  - eapply joined_mono; [|done]. intros x Hx. apply elem_of_app. by left.
  - apply joined_sym. eapply joined_mono; [|done]. intros x Hx. apply elem_of_app. by right.
Qed.

Lemma run_midpoint_recursion_joined_witness :
  joined [((2, 1), (2, 3)); ((7, 5), (2, 4)); ((2, 3), (2, 4)); ((8, 9), (7, 5))]%Z
         (2, 1)%Z (8, 9)%Z.
Proof.
  apply (run_midpoint_recursion_joined draw_line 50 demo_canvas ((2, 1), (8, 9))%Z).
  vm_compute. reflexivity.
Defined.

(** X13: the pieces of the polyline.  Every segment the recursion returns
    is one it could not or need not split: its raster line meets no
    occupied cell, or the nearest free cell of its midpoint column is one
    of its own ends.  And the polyline bends only at free cells: each end
    of a returned segment is an end of the segment given or a free cell of
    the canvas. *)
Theorem run_midpoint_recursion_pieces
    (line : Z → Z → Z → Z → list (Z * Z)) (fuel : nat) (ws : grid) (s : segment)
    (l : list segment) :
  run_midpoint_recursion line fuel ws s = Done l →
  ∀ t, t ∈ l →
    (line_overlap line ws t = Some false ∨
     line_overlap line ws t = Some true ∧
     ∃ m, relocate ws (average t.1 t.2) = Some m ∧ (m = t.1 ∨ m = t.2)) ∧
    (t.1 = s.1 ∨ t.1 = s.2 ∨ is_free ws t.1.2 t.1.1 = true) ∧
    (t.2 = s.1 ∨ t.2 = s.2 ∨ is_free ws t.2.2 t.2.1 = true).
Proof.
  revert s l. induction fuel as [|fuel IH]; intros s l; simpl; [done|].
  destruct (line_overlap line ws s) as [[|]|] eqn:Hov; [|..|done].
  - destruct (relocate ws (average s.1 s.2)) as [mid_pt|] eqn:Hmid; [|done].
    case_decide as Hend.
    { intros [= <-] t ->%list_elem_of_singleton. split; [right; eauto|tauto]. }
    destruct (run_midpoint_recursion line fuel ws (s.1, mid_pt)) as [l1| |] eqn:H1; [|done..].
    destruct (run_midpoint_recursion line fuel ws (s.2, mid_pt)) as [l2| |] eqn:H2; [|done..].
    assert (Hfree : is_free ws mid_pt.2 mid_pt.1 = true).
    { destruct mid_pt as [f c']. unfold average in Hmid.
      apply relocate_spec in Hmid as (-> & Hf & _). done. }
    intros [= <-] t [Ht|Ht]%elem_of_app.
    + destruct (IH _ _ H1 t Ht) as (Hacc & Ht1 & Ht2). simpl in Ht1, Ht2.
      split; [done|]. split.
      * destruct Ht1 as [->| [->|?]]; tauto.
      * destruct Ht2 as [->| [->|?]]; tauto.
    + destruct (IH _ _ H2 t Ht) as (Hacc & Ht1 & Ht2). simpl in Ht1, Ht2.
      split; [done|]. split.
      * destruct Ht1 as [->| [->|?]]; tauto.
      * destruct Ht2 as [->| [->|?]]; tauto.
  - intros [= <-] t ->%list_elem_of_singleton. split; [by left|tauto].
Qed.

Lemma run_midpoint_recursion_pieces_witness :
  (line_overlap draw_line demo_canvas ((7, 5), (2, 4))%Z = Some false ∨
   line_overlap draw_line demo_canvas ((7, 5), (2, 4))%Z = Some true ∧
   ∃ m, relocate demo_canvas (average (7, 5)%Z (2, 4)%Z) = Some m ∧
        (m = (7, 5)%Z ∨ m = (2, 4)%Z)) ∧
  ((7, 5)%Z = (2, 1)%Z ∨ (7, 5)%Z = (8, 9)%Z ∨ is_free demo_canvas 5 7 = true) ∧
  ((2, 4)%Z = (2, 1)%Z ∨ (2, 4)%Z = (8, 9)%Z ∨ is_free demo_canvas 4 2 = true).
Proof.
  apply (run_midpoint_recursion_pieces draw_line 50 demo_canvas ((2, 1), (8, 9))%Z
           [((2, 1), (2, 3)); ((7, 5), (2, 4)); ((2, 3), (2, 4)); ((8, 9), (7, 5))]%Z).
  - vm_compute. reflexivity.
  - apply elem_of_cons. right. apply elem_of_cons. left. reflexivity.
Defined.

(** X14: where a point is relocated.  The relocation used for midpoints
    and for the endpoints of a sheet moves a point to the free cell of its
    column that is nearest by rows, the upper one when two are equally
    near; it raises exactly when the column has no free cell (or is not a
    column of the canvas). *)
Theorem relocate_nearest_free ws x c :
  match relocate ws (x, c) with
  | Some pt =>
      pt.2 = c ∧ is_free ws c pt.1 = true ∧
      ∀ g, is_free ws c g = true →
           (Z.abs (pt.1 - x) ≤ Z.abs (g - x))%Z ∧
           (Z.abs (g - x) = Z.abs (pt.1 - x) → pt.1 ≤ g)%Z
  | None => ∀ g, is_free ws c g = false
  end.
Proof.
  destruct (relocate ws (x, c)) as [[f c']|] eqn:Hrel.
  - by apply relocate_spec in Hrel.
  - intros g. unfold relocate, is_free in *. simpl in Hrel.
    destruct (get_column ws c) as [col|]; simpl in *; [|done].
    destruct (argmin _) as [k|] eqn:Hk; simpl in Hrel.
    + apply argmin_spec in Hk as (m & Hm & _).
      rewrite !list_lookup_fmap in Hm.
      destruct (zero_rows col !! k); simplify_eq/=.
    + assert (zero_rows col = []) as Hnil.
      { unfold argmin, argmax in Hk.
        destruct (zero_rows col) as [|r rs]; [done|]. simpl in Hk. done. }
      apply andb_false_iff. destruct (decide (0 ≤ g)%Z); [right|left].
      * apply bool_decide_eq_false. intros Hg%elem_of_zero_rows.
        rewrite Hnil in Hg. by apply elem_of_nil in Hg.
      * by apply bool_decide_eq_false.
Qed.
(** ** Inflating a sheet *)

Lemma cell_fmap (f : Z → Z) g i j :
  cell ((λ row : list Z, f <$> row) <$> g) i j = f <$> cell g i j.
Proof.
  unfold cell. rewrite list_lookup_fmap.
  destruct (g !! i) as [row|]; simpl; [|done]. by rewrite list_lookup_fmap.
Qed.

Lemma rect_fmap (f : Z → Z) w g : rect w g → rect w ((λ row : list Z, f <$> row) <$> g).
Proof.
  unfold rect. intros Hg. apply Forall_fmap. eapply Forall_impl; [done|].
  intros row Hrow. simpl. by rewrite length_fmap.
Qed.

Lemma get_overlap_is_Some b o o' :
  is_Some (get_overlap b o) → is_Some (get_overlap b o').
Proof.
  unfold get_overlap.
  destruct (assign_const (ws_bag b) (np_where (boundary b)) 0); simpl; [|by intros [? ?]].
  intros _. destruct (pose o'), (shape (data o')). eauto.
Qed.

(** X15: an inflated sheet overlaps nothing.  [inflate_sheet] dilates the
    raster, clears the cells that overlap the canvas and relabels: when
    it returns, with a pose that is not negative and a dilation that
    returns a rectangular array, every cell of the raster is 0 or the
    label of the sheet, the pose is as it was, and [get_overlap] finds
    no overlap. *)
Theorem inflate_sheet_clears_overlap (binary_dilation : grid → Z → grid)
    (W wd : nat) (b : Bag) (bag_obj o' : Object2D) :
  rect W (ws_bag b) →
  rect wd (binary_dilation (astype_bool (data bag_obj)) (axes bag_obj).1) →
  (0 ≤ (pose bag_obj).1)%Z → (0 ≤ (pose bag_obj).2)%Z →
  inflate_sheet binary_dilation b bag_obj = Done o' →
  pose o' = pose bag_obj ∧
  (∀ i j v, cell (data o') i j = Some v → v = 0%Z ∨ v = label bag_obj) ∧
  ∃ int, get_overlap b o' = Some (false, int).
Proof.
  intros Hws Hd H0 H1. unfold inflate_sheet. cbv zeta.
  set (d := binary_dilation (astype_bool (data bag_obj)) (axes bag_obj).1) in *.
  set (o1 := set_data bag_obj d).
  destruct (get_overlap b o1) as [[flag ov]|] eqn:Hov; simpl; [|done].
  destruct (assign_const d (np_where ov) 0) as [d'|] eqn:Hd'; simpl; [|done].
  intros [= <-]. split; [done|]. split.
  { intros i j v. simpl. rewrite cell_fmap, cell_astype_bool.
    destruct (cell d' i j) as [u|]; simpl; [|done]. intros [= <-].
    case_decide; [left|right]; lia. }
  set (o2 := set_data o1 _).
  destruct (get_overlap_is_Some b o1 o2) as [[flag2 ov2] Hov2]; [by rewrite Hov|].
  destruct (assign_const (ws_bag b) (np_where (boundary b)) 0) as [bag_data|] eqn:Hmask;
    [|by unfold get_overlap in Hov; rewrite Hmask in Hov].
  destruct (assign_const_rect _ _ _ _ _ Hd Hd') as [Hrect' _].
  assert (Hrect2 : rect wd (data o2)).
  { unfold o2. simpl. by apply rect_fmap, rect_fmap. }
  assert (Hc1 := λ r c, proj2 (get_overlap_cells W wd b o1 bag_data flag ov r c
                                 Hws Hd H0 H1 Hmask Hov)).
  assert (Hc2 := λ r c, proj2 (get_overlap_cells W wd b o2 bag_data flag2 ov2 r c
                                 Hws Hrect2 H0 H1 Hmask Hov2)).
  destruct (get_overlap_cells W wd b o2 bag_data flag2 ov2 0 0 Hws Hrect2 H0 H1
              Hmask Hov2) as [Hflag _].
  exists ov2. rewrite Hov2. f_equal. f_equal. rewrite Hflag.
  apply bool_decide_eq_false. intros Hne. apply Hne. apply np_where_nil.
  intros r c x. rewrite Hc2. unfold o2 at 1. cbn [data set_data].
  rewrite cell_fmap, cell_astype_bool.
  rewrite (assign_const_cells _ _ _ _ Hd').
  destruct (decide ((r, c) ∈ np_where ov)) as [Hin|Hnin].
  { simpl. destruct (cell bag_data _ _); [|done]. intros [= <-]. lia. }
  destruct (cell d r c) as [w|] eqn:Hw; simpl; [|done].
  change (pose o2) with (pose o1).
  destruct (cell bag_data _ _) as [u|] eqn:Hu; [|done]. intros [= <-].
  destruct (decide (u = 0%Z)); [lia|]. destruct (decide (w = 0%Z)); [lia|].
  exfalso. apply Hnin. apply elem_of_np_where. exists (w * 1)%Z.
  split; [|lia]. rewrite Hc1. unfold o1 at 1. cbn [data set_data].
  change (pose o1) with (pose bag_obj). rewrite Hw, Hu. by rewrite decide_False.
Qed.

(** A sheet of four cells lying half on the block of [demo_canvas]: the
    two cells on the block are cleared. *)
Definition flat_sheet : Object2D :=
  mk_object ShS 9 [[1; 1; 1; 1]]%Z (1, 4)%Z (5, 1)%Z.

Lemma inflate_sheet_clears_overlap_witness :
  pose (set_data flat_sheet [[9; 9; 0; 0]]%Z) = pose flat_sheet ∧
  (∀ i j v, cell (data (set_data flat_sheet [[9; 9; 0; 0]]%Z)) i j = Some v →
            v = 0%Z ∨ v = label flat_sheet) ∧
  ∃ int, get_overlap demo_bag (set_data flat_sheet [[9; 9; 0; 0]]%Z) = Some (false, int).
Proof.
  apply (inflate_sheet_clears_overlap (λ g _, g) 12 4 demo_bag flat_sheet).
  - repeat (constructor; [reflexivity|]). constructor.
  - repeat constructor.
  - simpl. lia.
  - simpl. lia.
  - vm_compute. reflexivity.
Defined.
(** ** The liquid rule, cell by cell *)

(** X16: what the liquid rule writes when it goes through.  With [e_min]
    and [e_max] the first and last row of the eroded cavity and [fill] the
    row [int((1 - lqd_level) * (e_max - e_min))] as the float arithmetic
    gives it, a cell outside the cavity keeps its value (the wall is not
    touched), a cavity cell in a row before [fill], counted from the top
    of the raster, becomes the void marker -1, and every other cavity cell
    takes the liquid label, which fits an [int64] cell. *)
Theorem liquid_rule_cells (erosion : grid → Z → option grid) (lbl : Z)
    (p : LiquidParam) (d d' eroded_img : grid) :
  erosion (floor_div d lbl) (cntr_thickness p) = Some eroded_img →
  liquid_rule_body erosion lbl p d = (d', Some tt) →
  int64 (lqd_label p) ∧
  ∃ e_min e_max fill,
    arr_min (np_where eroded_img).*1 = Some e_min ∧
    arr_max (np_where eroded_img).*1 = Some e_max ∧
    e_fill (lqd_level p) e_max e_min = Some fill ∧
    ∀ i j, cell d' i j =
      if decide ((i, j) ∈ np_where eroded_img) then
        if decide (i < slice_index (length eroded_img) fill)
        then Some (-1)%Z else Some (lqd_label p)
      else cell d i j.
Proof.
  intros Herode. unfold liquid_rule_body, bind, self_data, or_raise, data_assign.
  rewrite Herode.
  destruct (arr_max _) as [e_max|]; [|done]. destruct (arr_min _) as [e_min|]; [|done].
  destruct (e_fill _ _ _) as [fill|] eqn:Hrow; [|done].
  case_decide; [|done].
  destruct (assign_const d _ _) as [d1|] eqn:Hvoid; [|done].
  case_decide as Hfit; [|done].
  destruct (assign_const d1 _ _) as [d2|] eqn:Hfill; [|done].
  intros [= <-]. split; [done|].
  exists e_min, e_max, fill. split; [done|]. split; [done|]. split; [done|].
  intros i j. rewrite (assign_const_cells _ _ _ _ Hfill), (assign_const_cells _ _ _ _ Hvoid).
  assert (Hfilled : (i, j) ∈ np_where (clear_rows_to eroded_img fill)
                    ↔ (i, j) ∈ np_where eroded_img
                      ∧ ¬ i < slice_index (length eroded_img) fill).
  { rewrite !elem_of_np_where, cell_clear_rows_to. split.
    - intros (v & Hv & Hnz). case_decide; [destruct (cell eroded_img i j); simplify_eq/=|].
      split; [eauto|done].
    - intros [(v & Hv & Hnz) Hge]. exists v. by rewrite decide_False. }
  destruct (decide ((i, j) ∈ np_where eroded_img)) as [Hin|Hnin].
  - destruct (decide (i < slice_index (length eroded_img) fill)).
    + rewrite decide_False; [done|]. rewrite Hfilled. tauto.
    + rewrite decide_True; [done|]. rewrite Hfilled. tauto.
  - rewrite decide_False; [done|]. rewrite Hfilled. tauto.
Qed.

(** A tube of eleven rows filled to the level 0.9: the cavity is the whole
    tube, its extent is 10, and the float product
    [(1 - 0.9) * 10 = 0.9999999999999998] gives the fill row 0, so that no
    row is left void. *)
Definition tube : grid := replicate 11 [4%Z].

Lemma liquid_rule_cells_witness :
  int64 9 ∧
  ∃ e_min e_max fill,
    arr_min (np_where (replicate 11 [1%Z])).*1 = Some e_min ∧
    arr_max (np_where (replicate 11 [1%Z])).*1 = Some e_max ∧
    e_fill (float_div (float_of_int 9) (float_of_int 10)) e_max e_min = Some fill ∧
    ∀ i j, cell (replicate 11 [9%Z]) i j =
      if decide ((i, j) ∈ np_where (replicate 11 [1%Z])) then
        if decide (i < slice_index (length (replicate 11 [1%Z])) fill)
        then Some (-1)%Z else Some 9%Z
      else cell tube i j.
Proof.
  apply (liquid_rule_cells erode_disk 4
           (liquid_at (float_div (float_of_int 9) (float_of_int 10))) tube
           (replicate 11 [9%Z]) (replicate 11 [1%Z])).
  - vm_compute. reflexivity.
  - vm_compute. reflexivity.
Defined.
(** ** Adding an object to the bag *)

(** [a[r0:r1, c0:c1] = value] for a 2-D [value]: numpy broadcasts the
    value to the shape of the window, repeating an axis of length 1, and
    raises [ValueError] on any other mismatch of the shapes. *)
Definition slice_assign (g : grid) (r0 r1 c0 c1 : Z) (value : grid) : option grid :=
  let lo0 := slice_index (length g) r0 in
  let hi0 := slice_index (length g) r1 in
  let lo1 := slice_index (shape g).2 c0 in
  let hi1 := slice_index (shape g).2 c1 in
  let '(h, w) := shape value in
  if decide ((h = hi0 - lo0 ∨ h = 1) ∧ (w = hi1 - lo1 ∨ w = 1)) then
    Some (imap (λ i (row : list Z),
            if decide (lo0 ≤ i < hi0) then
              imap (λ j (x : Z),
                if decide (lo1 ≤ j < hi1)
                then default x (cell value (if decide (h = 1) then 0 else i - lo0)
                                           (if decide (w = 1) then 0 else j - lo1))
                else x) row
            else row) g)
  else None.

Section AddObject.
Variable label_components : grid → grid.
Variable line : Z → Z → Z → Z → list (Z * Z).
Variable binary_dilation : grid → Z → grid.

(** [BaggageImage2D.add_object]: the gravity rule (with its default
    [z_inc=50]), else the overlap rule (with its defaults, [fix_obj]
    set), else the raster written into the window of half the size of the
    object. *)
Definition add_object (fuel : nat) (b : Bag) (bag_obj : Object2D)
    (with_overlap_rule with_gravity_rule : bool) : outcome (Bag * Object2D) :=
  if with_gravity_rule then
    do r <- run_shape_grammar_overlap_and_gravity label_components line binary_dilation
              fuel b bag_obj 50;
    Done (r.1.1, r.1.2)
  else if with_overlap_rule then
    do r <- run_shape_grammar_overlap label_components fuel b bag_obj true true true;
    Done (r.1.1, r.1.2)
  else
    do ws <- raised_if_none
      (slice_assign (ws_bag b)
         (pose bag_obj).1 ((pose bag_obj).1 + (dim bag_obj).1 / 2)
         (pose bag_obj).2 ((pose bag_obj).2 + (dim bag_obj).2 / 2)
         (data bag_obj));
    Done (set_ws_bag b ws, bag_obj).
End AddObject.

Lemma slice_index_span n p k :
  (0 ≤ k)%Z → (Z.of_nat (slice_index n (p + k) - slice_index n p) ≤ k)%Z.
Proof.
  intros Hk. unfold slice_index.
  destruct (Z.ltb_spec (p + k) 0), (Z.ltb_spec p 0); lia.
Qed.

Lemma imap_id_ext {A} (f : nat → A → A) (l : list A) :
  (∀ i x, l !! i = Some x → f i x = x) → imap f l = l.
Proof.
  intros Hf. apply list_eq. intros i. rewrite list_lookup_imap.
  destruct (l !! i) as [x|] eqn:Hx; simpl; [|done]. by rewrite (Hf i x Hx).
Qed.

(** X17: [add_object] with both rules off.  The window it assigns to has
    half the height and half the width of the object, so for an object
    whose [dim] is the shape of its raster the assignment cannot be
    broadcast: the call raises for every raster of more than one cell.
    For a raster of a single row of at most one cell it returns and
    leaves the canvas as it was. *)
Theorem add_object_without_rules
    (label_components : grid → grid) (line : Z → Z → Z → Z → list (Z * Z))
    (binary_dilation : grid → Z → grid)
    (fuel wd : nat) (b : Bag) (bag_obj : Object2D) :
  data bag_obj ≠ [] → rect wd (data bag_obj) →
  dim bag_obj = (Z.of_nat (length (data bag_obj)), Z.of_nat wd) →
  add_object label_components line binary_dilation fuel b bag_obj false false
  = if decide (length (data bag_obj) = 1 ∧ wd ≤ 1) then Done (b, bag_obj) else Raised.
Proof.
  intros Hne Hrect Hdim. unfold add_object, slice_assign.
  rewrite Hdim. cbn [fst snd].
  assert (shape (data bag_obj) = (length (data bag_obj), wd)) as ->.
  { unfold shape. f_equal. by apply (shape_rect wd). }
  set (h := length (data bag_obj)) in *. cbv zeta beta iota.
  set (n := length (ws_bag b)). set (m := (shape (ws_bag b)).2).
  pose proof (slice_index_span n (pose bag_obj).1 (Z.of_nat h / 2)
                ltac:(apply Z.div_pos; lia)) as Hrows.
  pose proof (slice_index_span m (pose bag_obj).2 (Z.of_nat wd / 2)
                ltac:(apply Z.div_pos; lia)) as Hcols.
  assert (0 < h) by (subst h; destruct (data bag_obj); simpl in *; [done|lia]).
  destruct (decide (h = 1 ∧ wd ≤ 1)) as [[Hh Hw]|Hbig].
  - assert (Z.of_nat h / 2 = 0)%Z as Hh0 by (rewrite Hh; done).
    assert (Z.of_nat wd / 2 = 0)%Z as Hw0
      by (destruct wd as [|[|?]]; [done|done|lia]).
    rewrite Hh0, Hw0 in *. rewrite !Z.add_0_r.
    rewrite decide_True by lia. simpl. f_equal.
    rewrite imap_id_ext; [by destruct b|].
    intros i row _. case_decide; [lia|done].
  - rewrite decide_False; [done|].
    intros [Ha Hb]. apply Hbig.
    assert (Z.of_nat h / 2 < Z.of_nat h)%Z by (apply Z.div_lt; lia).
    split; [lia|].
    destruct (decide (wd = 0)); [lia|].
    assert (Z.of_nat wd / 2 < Z.of_nat wd)%Z by (apply Z.div_lt; lia). lia.
Qed.

Lemma add_object_without_rules_witness :
  add_object label8 draw_line (λ g _, g) 50 empty_bag small_box false false
  = if decide (length (data small_box) = 1 ∧ 3 ≤ 1) then Done (empty_bag, small_box)
    else Raised.
Proof.
  apply (add_object_without_rules label8 draw_line (λ g _, g) 50 3 empty_bag small_box).
  - discriminate.
  - repeat constructor.
  - reflexivity.
Defined.
(** ** The gravity rule only paints with the label of the object *)

(** A raster is labelled with [lbl] when its cells hold 0 or [lbl], as
    [self.data = self.label*self.data] leaves it. *)
Definition labelled (lbl : Z) (g : grid) : Prop :=
  ∀ r c v, cell g r c = Some v → v = 0%Z ∨ v = lbl.

(** [ws'] is [ws] with some of its cells painted with [lbl]. *)
Definition painted (W : nat) (lbl : Z) (ws ws' : grid) : Prop :=
  rect W ws' ∧ length ws' = length ws ∧
  ∀ i j, cell ws' i j = cell ws i j ∨ cell ws' i j = Some lbl ∧ lbl ≠ 0%Z.

Lemma painted_refl W lbl ws : rect W ws → painted W lbl ws ws.
Proof. intros Hws. split; [done|]. split; [done|]. by left. Qed.

Lemma painted_trans W lbl ws1 ws2 ws3 :
  painted W lbl ws1 ws2 → painted W lbl ws2 ws3 → painted W lbl ws1 ws3.
Proof.
  intros (_ & Hl1 & Hc1) (Hr2 & Hl2 & Hc2). split; [done|]. split; [congruence|].
  intros i j. destruct (Hc2 i j) as [->|?]; [apply Hc1|by right].
Qed.

Lemma written_from_raster ws o i j v :
  written ws o i j = Some v → v ≠ 0%Z ∧ ∃ r c, cell (data o) r c = Some v.
Proof.
  intros Hw. split; [by eapply written_nonzero|]. revert Hw. unfold written.
  destruct (pose o), (shape (data o)). cbv zeta.
  case_decide; [|done]. destruct (cell (data o) _ _) as [u|] eqn:Hu; [|done].
  case_decide; [done|]. intros [= <-]. eauto.
Qed.

Lemma place_painted W lbl ws o ws' :
  rect W ws → labelled lbl (data o) → place_object_in_bag ws o = Some ws' →
  painted W lbl ws ws'.
Proof.
  intros Hws Hlab Hrun.
  destruct (place_object_in_bag_cells W ws o Hws) as (x & Hx & Hlen & Hrect & Hcell).
  assert (x = ws') as -> by congruence.
  split; [done|]. split; [done|]. intros i j. rewrite Hcell.
  destruct (written ws o i j) as [v|] eqn:Hw; [|by left].
  apply written_from_raster in Hw as (Hnz & r & c & Hv).
  destruct (Hlab r c v Hv) as [->| ->]; [done|by right].
Qed.

Lemma lookup_py_slice_sub {A} (l : list A) a b i x :
  py_slice l a b !! i = Some x → ∃ k, l !! k = Some x.
Proof.
  unfold py_slice. intros [Hx _]%lookup_take_Some. rewrite lookup_drop in Hx. eauto.
Qed.

Lemma labelled_slice2 lbl g r0 r1 c0 c1 : labelled lbl g → labelled lbl (slice2 g r0 r1 c0 c1).
Proof.
  intros Hg r c v. unfold cell, slice2. rewrite list_lookup_fmap.
  destruct (py_slice g r0 r1 !! r) as [row|] eqn:Hrow; simpl; [|done].
  intros [k Hk]%lookup_py_slice_sub. apply lookup_py_slice_sub in Hrow as [i Hi].
  apply (Hg i k). unfold cell. by rewrite Hi.
Qed.

Lemma adjust_for_boundaries_labelled lbl b o :
  labelled lbl (data o) →
  labelled lbl (data (_adjust_for_boundaries b o)) ∧
  label (_adjust_for_boundaries b o) = label o.
Proof.
  intros Hlab. rewrite adjust_for_boundaries_stages.
  assert (Htop : labelled lbl (data (clamp_top b o)) ∧ label (clamp_top b o) = label o).
  { unfold clamp_top. cbv zeta. case_decide; [|done]. simpl.
    split; [by apply labelled_slice2|done]. }
  destruct Htop as [H1 L1]. set (o1 := clamp_top b o) in *.
  assert (Hbot : labelled lbl (data (clamp_bottom b o1)) ∧ label (clamp_bottom b o1) = label o1).
  { unfold clamp_bottom. cbv zeta. case_decide; [|done]. simpl.
    split; [by apply labelled_slice2|done]. }
  destruct Hbot as [H2 L2]. set (o2 := clamp_bottom b o1) in *.
  assert (Hleft : labelled lbl (data (clamp_left b o2)) ∧ label (clamp_left b o2) = label o2).
  { unfold clamp_left. cbv zeta. case_decide; [|done]. simpl.
    split; [by apply labelled_slice2|done]. }
  destruct Hleft as [H3 L3]. set (o3 := clamp_left b o2) in *.
  unfold clamp_right. cbv zeta. case_decide; simpl.
  - split; [by apply labelled_slice2|congruence].
  - split; [done|congruence].
Qed.

Lemma run_shape_grammar_overlap_frame label_components fuel b o fix_obj rs cs b' o' ps :
  run_shape_grammar_overlap label_components fuel b o fix_obj rs cs = Done (b', o', ps) →
  o' = set_pose o (pose o') ∧
  if fix_obj
  then ∃ ws, place_object_in_bag (ws_bag b) o' = Some ws ∧
             b' = set_ws_bag (set_LATERAL_OSC_FLAG b (LATERAL_OSC_FLAG b')) ws
  else b' = set_LATERAL_OSC_FLAG b (LATERAL_OSC_FLAG b').
Proof.
  unfold run_shape_grammar_overlap.
  destruct (get_overlap b o) as [[flag int]|] eqn:Hov; [|done].
  match goal with |- context [overlap_loop _ _ ?s0] =>
    destruct (overlap_loop label_components fuel s0) as [s| |] eqn:Hloop; [|done..];
    apply overlap_loop_frame in Hloop as (Ho & Hb & _); [|done..]
  end.
  simpl in Ho, Hb. destruct fix_obj.
  - destruct (place_object_in_bag _ _) as [ws|] eqn:Hplace; [|done].
    intros [= <- <- <-]. split; [done|]. exists ws. rewrite Hb in Hplace |- *.
    split; [done|]. done.
  - intros [= <- <- <-]. done.
Qed.

Lemma resolve_loop_frame label_components fuel fuel_in b o ol prev b' o' ol' osc :
  resolve_loop label_components fuel fuel_in b o ol prev = Done (b', o', ol', osc) →
  o' = set_pose o (pose o') ∧ b' = set_LATERAL_OSC_FLAG b (LATERAL_OSC_FLAG b').
Proof.
  revert b o ol. induction fuel as [|fuel IH]; intros b o ol; simpl; [done|].
  destruct (run_shape_grammar_overlap _ _ _ _ _ _ _) as [[[b1 o1] ps]| |] eqn:Hrun;
    simpl; [|done..].
  apply run_shape_grammar_overlap_frame in Hrun as [Ho1 Hb1].
  destruct (get_overlap b1 o1) as [[flag int]|]; simpl; [|done].
  case_decide.
  - intros [= <- <- <- <-]. done.
  - destruct flag.
    + intros Hrec. apply IH in Hrec as [Ho' Hb']. split.
      * rewrite Ho', Ho1. done.
      * rewrite Hb', Hb1. done.
    + intros [= <- <- <- <-]. done.
Qed.

Lemma generate_sheet_curve_label line b o o1 :
  generate_sheet_curve line b o = Done o1 → label o1 = label o ∧ axes o1 = axes o.
Proof.
  unfold generate_sheet_curve. cbv zeta. intros Hrun.
  repeat (apply obind_Done in Hrun as (? & _ & Hrun)).
  by injection Hrun as <-.
Qed.

Lemma inflate_sheet_labelled dil b o o' :
  inflate_sheet dil b o = Done o' → label o' = label o ∧ labelled (label o) (data o').
Proof.
  unfold inflate_sheet. cbv zeta. intros Hrun.
  repeat (apply obind_Done in Hrun as (? & _ & Hrun)).
  injection Hrun as <-. split; [done|].
  intros i j v. simpl. rewrite cell_fmap, cell_astype_bool.
  destruct (cell _ i j) as [u|]; simpl; [|done]. intros [= <-].
  case_decide; [left|right]; lia.
Qed.

(** Two bags with the same boundary mask and geometry. *)
Definition same_geometry (b b' : Bag) : Prop :=
  boundary b' = boundary b ∧ size b' = size b ∧ bb_h b' = bb_h b ∧
  extents b' = extents b.

(** What the passes of the descent loop keep: the label of the object,
    a raster labelled with it, a canvas that is the canvas of the call
    painted with it, and the geometry of the bag. *)
Definition gravity_inv (W : nat) (lbl : Z) (b0 : Bag) (s : GravityState) : Prop :=
  label (g_obj s) = lbl ∧ labelled lbl (data (g_obj s)) ∧
  painted W lbl (ws_bag b0) (ws_bag (g_bag s)) ∧ same_geometry b0 (g_bag s).

Lemma gravity_pass_rigid_inv label_components fuel W lbl b0 s b o prev s' brk :
  label o = lbl → labelled lbl (data o) → painted W lbl (ws_bag b0) (ws_bag b) →
  same_geometry b0 b →
  gravity_pass_rigid label_components fuel s b o prev = Done (s', brk) →
  gravity_inv W lbl b0 s'.
Proof.
  intros Hl Hlab Hp Hg. unfold gravity_pass_rigid. cbv zeta.
  destruct (get_overlap b o) as [[flag int]|]; simpl; [|done].
  case_bool_decide.
  - destruct (get_overlap b _) as [[flag' int']|]; simpl; [|done].
    destruct flag'; simpl.
    + destruct (run_shape_grammar_overlap _ _ _ _ _ _ _) as [[[b1 o1] ps]| |] eqn:Hrun;
        simpl; [|done..].
      apply run_shape_grammar_overlap_frame in Hrun as [Ho1 Hb1].
      destruct (place_object_in_bag _ _) as [ws|] eqn:Hplace; simpl; [|done].
      intros [= <- <-]. rewrite Ho1 in Hplace |- *. rewrite Hb1 in Hplace |- *.
      split; [done|]. split; [done|]. split; [|done]. simpl in *.
      apply (painted_trans _ _ _ (ws_bag b)); [done|].
      eapply place_painted; [exact (proj1 Hp)| |exact Hplace]. exact Hlab.
    + intros [= <- <-]. done.
  - destruct flag; simpl.
    + destruct (resolve_loop _ _ _ _ _ _ _) as [[[[b1 o1] ol1] osc]| |] eqn:Hres;
        simpl; [|done..].
      apply resolve_loop_frame in Hres as [Ho1 Hb1].
      intros [= <- <-]. rewrite Ho1, Hb1. done.
    + intros [= <- <-]. done.
Qed.

Lemma gravity_pass_sheet_inv line dil W lbl b0 s b o s' brk :
  label o = lbl → labelled lbl (data o) → painted W lbl (ws_bag b0) (ws_bag b) →
  same_geometry b0 b →
  gravity_pass_sheet line dil s b o = Done (s', brk) →
  gravity_inv W lbl b0 s'.
Proof.
  intros Hl Hlab Hp Hg. unfold gravity_pass_sheet. cbv zeta.
  match goal with |- context [obind ?m _] => destruct m as [[|]| |] end; simpl; [|..|done|done].
  - destruct (generate_sheet_curve _ _ _) as [o1| |] eqn:Hgen; simpl; [|done..].
    apply generate_sheet_curve_label in Hgen as [Hl1 _]. simpl in Hl1.
    destruct (inflate_sheet _ _ _) as [o2| |] eqn:Hinf; simpl; [|done..].
    apply inflate_sheet_labelled in Hinf as [Hl2 Hlab2].
    destruct (place_object_in_bag _ _) as [ws|] eqn:Hplace; simpl; [|done].
    intros [= <- <-]. rewrite Hl1, Hl in *.
    split; [done|]. split; [done|]. split; [|done]. simpl.
    apply (painted_trans _ _ _ (ws_bag b)); [done|].
    apply (place_painted W lbl _ _ _ (proj1 Hp) Hlab2 Hplace).
  - intros [= <- <-]. done.
Qed.

Lemma gravity_pass_inv label_components line dil fuel z_inc W lbl b0 s s' brk :
  gravity_inv W lbl b0 s →
  gravity_pass label_components line dil fuel z_inc s = Done (s', brk) →
  gravity_inv W lbl b0 s'.
Proof.
  intros (Hl & Hlab & Hp & Hg). unfold gravity_pass. cbv zeta.
  destruct (obj_shape _);
    first [by apply gravity_pass_rigid_inv | by apply gravity_pass_sheet_inv].
Qed.

Lemma gravity_loop_inv label_components line dil fuel fuel_in z_inc W lbl b0 s s' :
  gravity_inv W lbl b0 s →
  gravity_loop label_components line dil fuel fuel_in z_inc s = Done s' →
  gravity_inv W lbl b0 s'.
Proof.
  revert s. induction fuel as [|fuel IH]; intros s Hinv; simpl.
  - case_decide; [done|]. by intros [= <-].
  - case_decide; [|by intros [= <-]].
    destruct (gravity_pass _ _ _ _ _ _) as [[s1 brk]| |] eqn:Hpass; simpl; [|done..].
    apply (gravity_pass_inv _ _ _ _ _ W lbl b0) in Hpass; [|done].
    destruct brk; [by intros [= <-]|]. by apply IH.
Qed.

Lemma bounds_same_geometry b b' :
  same_geometry b b' → lower_bound b' = lower_bound b ∧ upper_bound b' = upper_bound b.
Proof.
  intros (_ & Hs & Hh & He). unfold lower_bound, upper_bound. by rewrite Hs, Hh, He.
Qed.

(** X18: the gravity rule only paints with the label of the object.  For
    an object of any shape whose raster holds 0 and its label, when the
    rule returns the bag has the boundary mask and the geometry it had,
    the canvas has the shape it had, and each of its cells is as it was
    at the call or holds the label of the object: no other label appears,
    and no occupied cell is cleared. *)
Theorem gravity_rule_paints_label
    (label_components : grid → grid) (line : Z → Z → Z → Z → list (Z * Z))
    (binary_dilation : grid → Z → grid)
    (fuel W : nat) (b : Bag) (bag_obj : Object2D) (z_inc : Z)
    (b' : Bag) (o' : Object2D) (n : nat) :
  rect W (ws_bag b) →
  (∀ r c v, cell (data bag_obj) r c = Some v → v = 0%Z ∨ v = label bag_obj) →
  run_shape_grammar_overlap_and_gravity label_components line binary_dilation
    fuel b bag_obj z_inc = Done (b', o', n) →
  boundary b' = boundary b ∧ size b' = size b ∧ bb_h b' = bb_h b ∧
  extents b' = extents b ∧
  shape (ws_bag b') = shape (ws_bag b) ∧
  label o' = label bag_obj ∧
  ∀ i j, cell (ws_bag b') i j = cell (ws_bag b) i j ∨
         cell (ws_bag b') i j = Some (label bag_obj) ∧ label bag_obj ≠ 0%Z.
Proof.
  intros Hws Hlab. unfold run_shape_grammar_overlap_and_gravity. cbv zeta.
  destruct (gravity_loop _ _ _ _ _ _ _) as [s| |] eqn:Hloop; simpl; [|done..].
  apply (gravity_loop_inv _ _ _ _ _ _ W (label bag_obj) b) in Hloop;
    [|by split; [|split; [|split; [apply painted_refl|]]]].
  destruct Hloop as (Hl & Hlab' & Hp & Hb & Hs & Hh & He).
  destruct (adjust_for_boundaries_labelled (label bag_obj) (g_bag s) (g_obj s) Hlab')
    as [Hlab2 Hl2].
  destruct (place_object_in_bag _ _) as [ws|] eqn:Hplace; simpl; [|done].
  intros [= <- <- <-].
  pose proof (place_painted W _ _ _ _ (proj1 Hp) Hlab2 Hplace) as Hp2.
  destruct (painted_trans _ _ _ _ _ Hp Hp2) as (Hr & Hlen & Hcells).
  repeat (split; [done|]).
  split; [by apply (shape_rect_eq W)|]. split; [congruence|]. exact Hcells.
Qed.

(** The bag, the box and the pass count after the drop of [small_box]
    into [empty_bag] in steps of 2. *)
Definition small_box_dropped : Bag * Object2D * nat :=
  Eval vm_compute in
    match run_shape_grammar_overlap_and_gravity label8 draw_line (λ g _, g)
            50 empty_bag small_box 2 with
    | Done r => r
    | _ => (empty_bag, small_box, 0)
    end.

Lemma gravity_rule_paints_label_witness :
  boundary small_box_dropped.1.1 = boundary empty_bag ∧
  size small_box_dropped.1.1 = size empty_bag ∧
  bb_h small_box_dropped.1.1 = bb_h empty_bag ∧
  extents small_box_dropped.1.1 = extents empty_bag ∧
  shape (ws_bag small_box_dropped.1.1) = shape (ws_bag empty_bag) ∧
  label small_box_dropped.1.2 = label small_box ∧
  ∀ i j, cell (ws_bag small_box_dropped.1.1) i j = cell (ws_bag empty_bag) i j ∨
         cell (ws_bag small_box_dropped.1.1) i j = Some (label small_box)
         ∧ label small_box ≠ 0%Z.
Proof.
  apply (gravity_rule_paints_label label8 draw_line (λ g _, g) 50 12 empty_bag small_box 2
           small_box_dropped.1.1 small_box_dropped.1.2 small_box_dropped.2).
  - repeat (constructor; [reflexivity|]). constructor.
  - intros [|[|r]] [|[|[|c]]] v; vm_compute; intros [= <-] || discriminate; by right.
  - vm_compute. reflexivity.
Defined.

Lemma gravity_pass_geometry label_components line dil fuel z_inc b0 s s' brk :
  same_geometry b0 (g_bag s) →
  gravity_pass label_components line dil fuel z_inc s = Done (s', brk) →
  same_geometry b0 (g_bag s').
Proof.
  intros Hg. unfold gravity_pass. cbv zeta.
  assert (Hrigid : ∀ o prev,
    gravity_pass_rigid label_components fuel s (set_LATERAL_OSC_FLAG (g_bag s) false) o prev
      = Done (s', brk) → same_geometry b0 (g_bag s')).
  { intros o prev. unfold gravity_pass_rigid. cbv zeta.
    destruct (get_overlap _ o) as [[flag int]|]; simpl; [|done].
    case_bool_decide.
    - destruct (get_overlap _ _) as [[flag' int']|]; simpl; [|done].
      destruct flag'; simpl.
      + destruct (run_shape_grammar_overlap _ _ _ _ _ _ _) as [[[b1 o1] ps]| |] eqn:Hrun;
          simpl; [|done..].
        apply run_shape_grammar_overlap_frame in Hrun as [_ Hb1].
        destruct (place_object_in_bag _ _) as [ws|]; simpl; [|done].
        intros [= <- <-]. rewrite Hb1. done.
      + intros [= <- <-]. done.
    - destruct flag; simpl.
      + destruct (resolve_loop _ _ _ _ _ _ _) as [[[[b1 o1] ol1] osc]| |] eqn:Hres;
          simpl; [|done..].
        apply resolve_loop_frame in Hres as [_ Hb1].
        intros [= <- <-]. rewrite Hb1. done.
      + intros [= <- <-]. done. }
  destruct (obj_shape _); try apply Hrigid.
  unfold gravity_pass_sheet. cbv zeta.
  match goal with |- context [obind ?m _] => destruct m as [[|]| |] end; simpl; [|..|done|done].
  - destruct (generate_sheet_curve _ _ _) as [o1| |]; simpl; [|done..].
    destruct (inflate_sheet _ _ _) as [o2| |]; simpl; [|done..].
    destruct (place_object_in_bag _ _) as [ws|]; simpl; [|done].
    intros [= <- <-]. done.
  - intros [= <- <-]. done.
Qed.

Lemma gravity_loop_geometry label_components line dil fuel fuel_in z_inc b0 s s' :
  same_geometry b0 (g_bag s) →
  gravity_loop label_components line dil fuel fuel_in z_inc s = Done s' →
  same_geometry b0 (g_bag s').
Proof.
  revert s. induction fuel as [|fuel IH]; intros s Hg; simpl.
  - case_decide; [done|]. by intros [= <-].
  - case_decide; [|by intros [= <-]].
    destruct (gravity_pass _ _ _ _ _ _) as [[s1 brk]| |] eqn:Hpass; simpl; [|done..].
    apply (gravity_pass_geometry _ _ _ _ _ b0) in Hpass; [|done].
    destruct brk; [by intros [= <-]|]. by apply IH.
Qed.

(** The descent moves an object that is not a sheet and does nothing
    else to it. *)
Lemma gravity_pass_rigid_moves label_components fuel s b o prev s' brk :
  gravity_pass_rigid label_components fuel s b o prev = Done (s', brk) →
  g_obj s' = set_pose o (pose (g_obj s')).
Proof.
  unfold gravity_pass_rigid. cbv zeta.
  destruct (get_overlap b o) as [[flag int]|]; simpl; [|done].
  case_bool_decide.
  - destruct (get_overlap _ _) as [[flag' int']|]; simpl; [|done].
    destruct flag'; simpl.
    + destruct (run_shape_grammar_overlap _ _ _ _ _ _ _) as [[[b1 o1] ps]| |] eqn:Hrun;
        simpl; [|done..].
      apply run_shape_grammar_overlap_frame in Hrun as [Ho1 _].
      destruct (place_object_in_bag _ _) as [ws|]; simpl; [|done].
      intros [= <- <-]. simpl. rewrite Ho1 at 1. done.
    + intros [= <- <-]. done.
  - destruct flag; simpl.
    + destruct (resolve_loop _ _ _ _ _ _ _) as [[[[b1 o1] ol1] osc]| |] eqn:Hres;
        simpl; [|done..].
      apply resolve_loop_frame in Hres as [Ho1 _].
      intros [= <- <-]. done.
    + intros [= <- <-]. simpl. by destruct o.
Qed.

Lemma gravity_loop_moves label_components line dil fuel fuel_in z_inc s s' :
  obj_shape (g_obj s) ≠ ShS →
  gravity_loop label_components line dil fuel fuel_in z_inc s = Done s' →
  g_obj s' = set_pose (g_obj s) (pose (g_obj s')).
Proof.
  revert s. induction fuel as [|fuel IH]; intros s Hshape; simpl.
  - case_decide; [done|]. intros [= <-]. by destruct (g_obj s).
  - case_decide; [|intros [= <-]; by destruct (g_obj s)].
    destruct (gravity_pass _ _ _ _ _ _) as [[s1 brk]| |] eqn:Hpass; simpl; [|done..].
    assert (Hs1 : g_obj s1 = set_pose (g_obj s) (pose (g_obj s1))).
    { revert Hpass. unfold gravity_pass. cbv zeta.
      change (obj_shape (set_pose (g_obj s) _)) with (obj_shape (g_obj s)).
      destruct (obj_shape (g_obj s)); try done;
        intros Hpass%gravity_pass_rigid_moves; by rewrite set_pose_set_pose in Hpass. }
    destruct brk; [by intros [= <-]|].
    intros Hloop. apply IH in Hloop; [|by rewrite Hs1].
    rewrite Hloop. rewrite Hs1 at 1. by rewrite set_pose_set_pose.
Qed.

Lemma adjust_for_boundaries_same_geometry b b' o :
  same_geometry b b' → _adjust_for_boundaries b' o = _adjust_for_boundaries b o.
Proof.
  intros [Hl Hu]%bounds_same_geometry. unfold _adjust_for_boundaries. by rewrite Hl, Hu.
Qed.

(** X19: what the gravity rule does to an object that is not a sheet: it
    moves it, crops it to the container, and commits it.  When the rule
    returns, the object is the object of the call set at some pose [q],
    where the descent and the collision passes left it, and adjusted to
    the container of the call; the canvas of the bag returned is a canvas
    with that object committed.  So the pose is the larger of [q] and the
    lower bound and [pose + dim] the smaller of [q + dim] and the upper
    bound on each axis.  Nothing keeps [q] inside the container: an
    object that starts past the upper bound of the columns stays there
    and is returned with a negative [dim]. *)
Theorem gravity_rule_moves_and_crops
    (label_components : grid → grid) (line : Z → Z → Z → Z → list (Z * Z))
    (binary_dilation : grid → Z → grid)
    (fuel : nat) (b : Bag) (bag_obj : Object2D) (z_inc : Z)
    (b' : Bag) (o' : Object2D) (n : nat) :
  obj_shape bag_obj ≠ ShS →
  run_shape_grammar_overlap_and_gravity label_components line binary_dilation
    fuel b bag_obj z_inc = Done (b', o', n) →
  ∃ q : Z * Z,
    o' = _adjust_for_boundaries b (set_pose bag_obj q) ∧
    (∃ ws, place_object_in_bag ws o' = Some (ws_bag b')) ∧
    pose o' = (Z.max q.1 (lower_bound b).1, Z.max q.2 (lower_bound b).2) ∧
    ((pose o').1 + (dim o').1 = Z.min (q.1 + (dim bag_obj).1) (upper_bound b).1)%Z ∧
    ((pose o').2 + (dim o').2 = Z.min (q.2 + (dim bag_obj).2) (upper_bound b).2)%Z.
Proof.
  intros Hshape. unfold run_shape_grammar_overlap_and_gravity. cbv zeta.
  destruct (gravity_loop _ _ _ _ _ _ _) as [s| |] eqn:Hloop; simpl; [|done..].
  pose proof Hloop as Hgeo.
  apply (gravity_loop_geometry _ _ _ _ _ _ b) in Hgeo; [|done].
  apply gravity_loop_moves in Hloop; [|done]. simpl in Hloop.
  destruct (place_object_in_bag _ _) as [ws|] eqn:Hplace; simpl; [|done].
  intros [= <- <- <-]. exists (pose (g_obj s)).
  rewrite (adjust_for_boundaries_same_geometry b (g_bag s)) in * by done.
  set (q := pose (g_obj s)) in *. rewrite Hloop in Hplace |- *.
  split; [done|]. split; [by exists (ws_bag (g_bag s))|].
  apply (adjust_for_boundaries_corners b (set_pose bag_obj q)).
Qed.

(** A box that starts in column 12, past the upper bound 11 of the
    columns of [empty_bag]: it comes to rest in that column with the
    width -1. *)
Definition far_right : Object2D := mk_object ShB 7 [[7; 7]; [7; 7]]%Z (2, 2)%Z (4, 12)%Z.

Definition far_right_dropped : Bag * Object2D * nat :=
  Eval vm_compute in
    match run_shape_grammar_overlap_and_gravity label8 draw_line (λ g _, g)
            50 empty_bag far_right 2 with
    | Done r => r
    | _ => (empty_bag, far_right, 0)
    end.

Lemma gravity_rule_moves_and_crops_witness :
  ∃ q : Z * Z,
    far_right_dropped.1.2 = _adjust_for_boundaries empty_bag (set_pose far_right q) ∧
    (∃ ws, place_object_in_bag ws far_right_dropped.1.2
           = Some (ws_bag far_right_dropped.1.1)) ∧
    pose far_right_dropped.1.2 = (Z.max q.1 1, Z.max q.2 1) ∧
    ((pose far_right_dropped.1.2).1 + (dim far_right_dropped.1.2).1 = Z.min (q.1 + 2) 11)%Z ∧
    ((pose far_right_dropped.1.2).2 + (dim far_right_dropped.1.2).2 = Z.min (q.2 + 2) 11)%Z.
Proof.
  apply (gravity_rule_moves_and_crops label8 draw_line (λ g _, g) 50 empty_bag
           far_right 2 far_right_dropped.1.1 far_right_dropped.1.2 far_right_dropped.2).
  - done.
  - vm_compute. reflexivity.
Defined.
(** ** The sheet rasterizer *)

(** [a[k, c0:c1] = v] with a row index that is not negative:
    [IndexError] when the row is outside the array. *)
Definition assign_row_slice (g : grid) (k : Z) (c0 c1 : Z) (v : Z) : option grid :=
  if decide (0 ≤ k < Z.of_nat (length g))%Z then
    Some (imap (λ i (row : list Z),
            if decide (i = Z.to_nat k) then fill_slice row c0 c1 (λ _, v) else row) g)
  else None.

(** [a > 0], as 0/1. *)
Definition positive_mask (g : grid) : grid :=
  (λ row : list Z, (λ v, if decide (0 < v)%Z then 1%Z else 0%Z) <$> row) <$> g.

Section SheetRasterizer.
Variable angle : Type.
(** [scipy.ndimage.rotate(mask, theta, axes=(1, 0), order=1, reshape=False)].
    The array it returns holds floats; the constructor only tests them
    against 0, so a cell is kept as an integer of the same sign. *)
Variable rotate_lin : grid → angle → grid.

(** [Object2D.create_sheet]: returns [(self.data, self.dim, self.axes,
    self.curve_pts)].  [mask] and [cpt_mask] are built by the same
    statements and are the same array. *)
Definition create_sheet (dim : Z * Z) (theta : angle)
    : option (grid * (nat * nat) * (Z * Z) * ((Z * Z) * (Z * Z))) :=
  let max_dim := (dim.2 + 10)%Z in
  if decide (max_dim < 0)%Z then None else
  let mask := zeros (Z.to_nat max_dim) (Z.to_nat max_dim) in
  mask ← assign_row_slice mask (max_dim / 2) 5 (-5) 1;
  let mask := rotate_lin mask theta in
  let cpt_mask := mask in
  let pts_coords := np_where (positive_mask cpt_mask) in
  first ← head pts_coords;
  final ← last pts_coords;
  let r_min := first.1 `min` final.1 in let r_max := first.1 `max` final.1 in
  let c_min := first.2 `min` final.2 in let c_max := first.2 `max` final.2 in
  let curve_pts := ((Z.of_nat first.1 - Z.of_nat r_min, Z.of_nat first.2 - Z.of_nat c_min),
                    (Z.of_nat final.1 - Z.of_nat r_min, Z.of_nat final.2 - Z.of_nat c_min))%Z in
  let bin_image := slice2 mask (Some (Z.of_nat r_min)) (Some (Z.of_nat r_max + 1)%Z)
                               (Some (Z.of_nat c_min)) (Some (Z.of_nat c_max + 1)%Z) in
  Some (astype_bool bin_image, shape bin_image, dim, curve_pts).
End SheetRasterizer.

Lemma elem_of_np_where_positive g i j :
  (i, j) ∈ np_where (positive_mask g) ↔ ∃ v, cell g i j = Some v ∧ (0 < v)%Z.
Proof.
  rewrite elem_of_np_where. unfold positive_mask. split.
  - intros (u & Hu & Hnz). rewrite cell_fmap in Hu.
    destruct (cell g i j) as [v|]; simplify_eq/=. exists v. split; [done|].
    by case_decide.
  - intros (v & Hv & Hpos). exists 1%Z. rewrite cell_fmap, Hv. simpl.
    by rewrite decide_True.
Qed.

(** X20: the curve points of a new sheet.  For a rotation that returns
    rectangular arrays, when [create_sheet] returns, [dim] is the shape of
    the raster, [axes] is the size asked for, the two curve points have
    coordinates that are not negative, with 0 as the smaller row and as
    the smaller column, and both are foreground cells of the raster. *)
Theorem create_sheet_curve_points (angle : Type) (rotate_lin : grid → angle → grid)
    (dim : Z * Z) (theta : angle) data dm ax (p q : Z * Z) :
  (∀ g w, rect w g → ∃ W, rect W (rotate_lin g theta)) →
  create_sheet angle rotate_lin dim theta = Some (data, dm, ax, (p, q)) →
  dm = shape data ∧ ax = dim ∧
  (Z.min p.1 q.1 = 0 ∧ Z.min p.2 q.2 = 0)%Z ∧
  cell data (Z.to_nat p.1) (Z.to_nat p.2) = Some 1%Z ∧
  cell data (Z.to_nat q.1) (Z.to_nat q.2) = Some 1%Z.
Proof.
  intros Hrot. unfold create_sheet. cbv zeta.
  case_decide as Hneg; [done|].
  destruct (assign_row_slice _ _ _ _ _) as [mask0|] eqn:Hmask0; simpl; [|done].
  assert (∃ w, rect w mask0) as [w0 Hw0].
  { exists (Z.to_nat (dim.2 + 10)). unfold assign_row_slice in Hmask0.
    case_decide; [|done]. injection Hmask0 as <-.
    unfold rect. apply Forall_forall. intros row Hrow.
    apply list_elem_of_lookup in Hrow as [i Hi]. rewrite list_lookup_imap in Hi.
    destruct (zeros _ _ !! i) as [row0|] eqn:Hrow0; simpl in Hi; [|done].
    pose proof (rect_lookup _ _ _ _ (rect_zeros _ _) Hrow0) as Hlen.
    injection Hi as <-. case_decide; [|done]. unfold fill_slice. by rewrite length_imap. }
  destruct (Hrot mask0 w0 Hw0) as [W HW].
  set (mask := rotate_lin mask0 theta) in *.
  destruct (head (np_where (positive_mask mask))) as [[r1 c1]|] eqn:Hfirst; simpl; [|done].
  destruct (last (np_where (positive_mask mask))) as [[r2 c2]|] eqn:Hlast; simpl; [|done].
  intros [= <- <- <- <- <-].
  assert (Hin1 : (r1, c1) ∈ np_where (positive_mask mask)).
  { destruct (np_where (positive_mask mask)); simplify_eq/=. left. }
  assert (Hin2 : (r2, c2) ∈ np_where (positive_mask mask)).
  { apply last_Some in Hlast as [l' ->]. apply elem_of_app. right. left. }
  apply elem_of_np_where_positive in Hin1 as (v1 & Hv1 & Hpos1).
  apply elem_of_np_where_positive in Hin2 as (v2 & Hv2 & Hpos2).
  assert (Hbound : ∀ r c v, cell mask r c = Some v → r < length mask ∧ c < W).
  { intros r c v Hv. apply cell_Some in Hv as (row & Hrow & Hc).
    apply lookup_lt_Some in Hrow as Hr. apply lookup_lt_Some in Hc.
    by rewrite (rect_lookup _ _ _ _ HW Hrow) in Hc. }
  destruct (Hbound _ _ _ Hv1) as [Hr1 Hc1]. destruct (Hbound _ _ _ Hv2) as [Hr2 Hc2].
  split; [|split; [done|split; [simpl; lia|]]].
  { unfold shape, astype_bool. rewrite length_fmap. f_equal.
    destruct (slice2 _ _ _ _ _) as [|row img]; [done|]. simpl. by rewrite length_fmap. }
  simpl. rewrite !cell_astype_bool, !(cell_slice2_window W) by done.
  assert (Hs : ∀ n k, k < n → slice_index n (Z.of_nat k) = k)
    by (intros n k Hk; rewrite slice_index_nonneg by lia; lia).
  assert (Hs' : ∀ n k, k < n → slice_index n (Z.of_nat k + 1) = S k)
    by (intros n k Hk; rewrite slice_index_nonneg by lia; lia).
  rewrite !Hs, !Hs' by lia.
  replace (Z.to_nat (Z.of_nat r1 - Z.of_nat (r1 `min` r2))) with (r1 - r1 `min` r2) by lia.
  replace (Z.to_nat (Z.of_nat r2 - Z.of_nat (r1 `min` r2))) with (r2 - r1 `min` r2) by lia.
  replace (Z.to_nat (Z.of_nat c1 - Z.of_nat (c1 `min` c2))) with (c1 - c1 `min` c2) by lia.
  replace (Z.to_nat (Z.of_nat c2 - Z.of_nat (c1 `min` c2))) with (c2 - c1 `min` c2) by lia.
  split.
  - rewrite decide_True by lia.
    replace (r1 `min` r2 + (r1 - r1 `min` r2)) with r1 by lia.
    replace (c1 `min` c2 + (c1 - c1 `min` c2)) with c1 by lia.
    rewrite Hv1. simpl. rewrite decide_False by lia. done.
  - rewrite decide_True by lia.
    replace (r1 `min` r2 + (r2 - r1 `min` r2)) with r2 by lia.
    replace (c1 `min` c2 + (c2 - c1 `min` c2)) with c2 by lia.
    rewrite Hv2. simpl. rewrite decide_False by lia. done.
Qed.

Lemma create_sheet_curve_points_witness :
  (1, 4) = shape [[1; 1; 1; 1]]%Z ∧ (3, 4)%Z = (3, 4)%Z ∧
  (Z.min 0 0 = 0 ∧ Z.min 0 3 = 0)%Z ∧
  cell [[1; 1; 1; 1]]%Z (Z.to_nat 0) (Z.to_nat 0) = Some 1%Z ∧
  cell [[1; 1; 1; 1]]%Z (Z.to_nat 0) (Z.to_nat 3) = Some 1%Z.
Proof.
  apply (create_sheet_curve_points unit rotate_by_zero (3, 4)%Z tt
           [[1; 1; 1; 1]]%Z (1, 4) (3, 4)%Z (0, 0)%Z (0, 3)%Z).
  - intros g w Hg. by exists w.
  - vm_compute. reflexivity.
Defined.
(** ** A new bag *)

(** One slice of the bag that [BaggageImage2D.__init__] builds, for the
    bag templates without a bag mask ([bag_b is None]): the boundary mask
    [bag_bound[:, :, z]] and the canvas [v_bag[:, :, z]].  [bb_h] and
    [bb_t] are the half width and the thickness of the bag that
    [get_bag_background] returns, [img_vol2] is [img_vol[2]], and [prior]
    is the slice [z] of the prior image when one is given.  The
    constructor reads [self.img_vol] before it is assigned when
    [gantry_dia] is left out: [None] stands for that [AttributeError]
    too. *)
Definition init_slice (gantry_dia : option Z) (img_vol2 bb_h bb_t : Z)
    (prior : option grid) (z : nat) : option Bag :=
  _ ← gantry_dia;
  let size := Z.max (2 * bb_h + 2 * bb_t) img_vol2 in
  if decide (size < 0)%Z then None else
  let n := Z.to_nat size in
  let v_bag := zeros n n in
  let bag_bound := v_bag in
  let within (a b : Z) := bool_decide (slice_index n a ≤ z < slice_index n b) in
  let o_lo := (size / 2 - bb_h - bb_t)%Z in let o_hi := (size / 2 + bb_h + bb_t)%Z in
  let i_lo := (size / 2 - bb_h)%Z in let i_hi := (size / 2 + bb_h)%Z in
  let bag_bound := if within o_lo o_hi
                   then fill_slice2 bag_bound o_lo o_hi o_lo o_hi 1 else bag_bound in
  let bag_bound := if within i_lo i_hi
                   then fill_slice2 bag_bound i_lo i_hi i_lo i_hi 0 else bag_bound in
  bag_bound ← match prior with
              | Some pr => assign_const bag_bound (np_where pr) 1
              | None => Some bag_bound
              end;
  let v_bag := zip_with (zip_with Z.add) v_bag
                 ((λ row : list Z, (λ v, 3 * v)%Z <$> row) <$> bag_bound) in
  Some {| ws_bag := v_bag; boundary := bag_bound; size := size; bb_h := bb_h;
          extents := None; LATERAL_OSC_FLAG := false |}.

Lemma cell_fill_slice2 W g r0 r1 c0 c1 v i j :
  rect W g →
  cell (fill_slice2 g r0 r1 c0 c1 v) i j =
    if decide (slice_index (length g) r0 ≤ i < slice_index (length g) r1 ∧
               slice_index W c0 ≤ j < slice_index W c1)
    then (λ _, v) <$> cell g i j else cell g i j.
Proof.
  intros Hg. unfold cell, fill_slice2, fill_slice. rewrite list_lookup_imap.
  destruct (g !! i) as [row|] eqn:Hrow; simpl; [|by case_decide].
  rewrite <-(rect_lookup _ _ _ _ Hg Hrow).
  destruct (decide (slice_index (length g) r0 ≤ i < slice_index (length g) r1)).
  - rewrite list_lookup_imap.
    destruct (row !! j) as [x|]; simpl; [|by case_decide].
    destruct (decide (slice_index (length row) c0 ≤ j < slice_index (length row) c1)).
    + by rewrite decide_True.
    + by rewrite decide_False by tauto.
  - by rewrite decide_False by tauto.
Qed.

Lemma rect_fill_slice2 W g r0 r1 c0 c1 v : rect W g → rect W (fill_slice2 g r0 r1 c0 c1 v).
Proof.
  intros Hg. unfold fill_slice2, fill_slice, rect. apply Forall_forall. intros row Hrow.
  apply list_elem_of_lookup in Hrow as [i Hi]. rewrite list_lookup_imap in Hi.
  destruct (g !! i) as [row0|] eqn:Hrow0; simpl in Hi; [|done].
  injection Hi as <-. case_decide; [rewrite length_imap|]; by eapply rect_lookup.
Qed.

Lemma length_fill_slice2 g r0 r1 c0 c1 v : length (fill_slice2 g r0 r1 c0 c1 v) = length g.
Proof. unfold fill_slice2, fill_slice. apply length_imap. Qed.

(** A canvas that holds the boundary mask times the bag label and nothing
    else is an empty container. *)
Lemma boundary_only_empty b (k : Z) :
  (∀ i j, cell (ws_bag b) i j = (λ v, k * v)%Z <$> cell (boundary b) i j) →
  empty_container b.
Proof.
  intros Hws. unfold empty_container.
  destruct (assign_const_is_Some (ws_bag b) (np_where (boundary b)) 0) as [bd Hbd].
  { intros [i j] (v & Hv & _)%elem_of_np_where. simpl. rewrite Hws, Hv. eauto. }
  exists bd. split; [done|]. apply np_where_nil. intros i j v.
  rewrite (assign_const_cells _ _ _ _ Hbd). case_decide as Hin; [congruence|].
  rewrite Hws. destruct (cell (boundary b) i j) as [u|] eqn:Hu; simpl; [|done].
  intros [= <-]. destruct (decide (u = 0%Z)) as [->|]; [lia|].
  exfalso. apply Hin. apply elem_of_np_where. eauto.
Qed.

Lemma init_slice_canvas gantry_dia img_vol2 h t prior z b :
  init_slice gantry_dia img_vol2 h t prior z = Some b →
  let n := Z.to_nat (size b) in
  size b = Z.max (2 * h + 2 * t) img_vol2 ∧ bb_h b = h ∧ extents b = None ∧
  rect n (boundary b) ∧ length (boundary b) = n ∧
  rect n (ws_bag b) ∧ length (ws_bag b) = n ∧
  ∀ i j, cell (ws_bag b) i j = (λ v, 3 * v)%Z <$> cell (boundary b) i j.
Proof.
  unfold init_slice. destruct gantry_dia as [gd|]; simpl; [|done].
  case_decide as Hneg; [done|].
  set (n := Z.to_nat (Z.max (2 * h + 2 * t) img_vol2)).
  match goal with |- context [mbind _ ?m] => destruct m as [bound|] eqn:Hbound end;
    simpl; [|done].
  intros [= <-]. simpl. fold n.
  assert (Hb : rect n bound ∧ length bound = n).
  { assert (∀ g, rect n g ∧ length g = n →
              match prior with
              | Some pr => assign_const g (np_where pr) 1
              | None => Some g
              end = Some bound → rect n bound ∧ length bound = n) as Hprior.
    { intros g [Hg Hl]. destruct prior as [pr|]; [|by intros [= <-]].
      intros Hrun. destruct (assign_const_rect _ _ _ _ _ Hg Hrun). split; [done|congruence]. }
    eapply Hprior; [|exact Hbound].
    assert (rect n (zeros n n) ∧ length (zeros n n) = n) as [Hz Hzl].
    { split; [apply rect_zeros|]. unfold zeros. apply length_replicate. }
    repeat case_match; split; rewrite ?length_fill_slice2;
      try done; repeat apply rect_fill_slice2; done. }
  destruct Hb as [Hbr Hbl].
  assert (Hcells : ∀ i j,
    cell (zip_with (zip_with Z.add) (zeros n n)
            ((λ row : list Z, (λ v, 3 * v)%Z <$> row) <$> bound)) i j
    = (λ v, 3 * v)%Z <$> cell bound i j).
  { intros i j. unfold cell. rewrite lookup_zip_with, list_lookup_fmap.
    destruct (bound !! i) as [row|] eqn:Hrow; simpl.
    - apply lookup_lt_Some in Hrow as Hi. rewrite Hbl in Hi.
      unfold zeros. rewrite lookup_replicate_2 by done. simpl.
      rewrite lookup_zip_with, list_lookup_fmap.
      destruct (row !! j) as [x|] eqn:Hx; simpl.
      + apply lookup_lt_Some in Hx. rewrite (rect_lookup _ _ _ _ Hbr Hrow) in Hx.
        rewrite lookup_replicate_2 by done. done.
      + by destruct (replicate n 0%Z !! j).
    - by destruct (zeros n n !! i). }
  repeat split; try done.
  - unfold rect. apply Forall_forall. intros row Hrow.
    apply list_elem_of_lookup in Hrow as [i Hi]. rewrite lookup_zip_with in Hi.
    destruct (zeros n n !! i) as [zr|] eqn:Hzr; simpl in Hi; [|done].
    rewrite list_lookup_fmap in Hi.
    destruct (bound !! i) as [br|] eqn:Hbri; simpl in Hi; [|done].
    injection Hi as <-. rewrite length_zip_with, length_fmap.
    rewrite (rect_lookup _ _ _ _ (rect_zeros n n) Hzr), (rect_lookup _ _ _ _ Hbr Hbri). lia.
  - rewrite length_zip_with, length_fmap, Hbl. unfold zeros. rewrite length_replicate. lia.
Qed.

(** [BaggageImage2D.__init__], for the bag templates without a bag mask:
    the slices of the bag, slice [z] at index [z].  A prior image is the
    list of its slices; [bag_bound[nz] = 1] raises when the prior image
    has a nonzero cell outside the bag volume, in a slice of the bag or
    past its last slice. *)
Definition init_bag (gantry_dia : option Z) (img_vol2 bb_h bb_t : Z)
    (prior_image : option (list grid)) : option (list Bag) :=
  let n := Z.to_nat (Z.max (2 * bb_h + 2 * bb_t) img_vol2) in
  if decide (Forall (λ g, np_where g = []) (drop n (default [] prior_image))) then
    mapM (λ z, init_slice gantry_dia img_vol2 bb_h bb_t
                 (pr ← prior_image; Some (default [] (pr !! z))) z)
         (seq 0 n)
  else None.

(** X21: a new bag is an empty container.  In every slice of a bag built
    without a bag mask, with or without a prior image, the canvas holds 3
    (the bag label) on the cells of the boundary mask and 0 elsewhere, the
    canvas and the mask are square arrays of side [size], and the overlap
    test finds nothing to overlap: the bag is an empty container. *)
Theorem init_bag_empty_container gantry_dia img_vol2 h t prior_image bags z b :
  init_bag gantry_dia img_vol2 h t prior_image = Some bags →
  bags !! z = Some b →
  empty_container b ∧
  size b = Z.max (2 * h + 2 * t) img_vol2 ∧ length bags = Z.to_nat (size b) ∧
  rect (Z.to_nat (size b)) (ws_bag b) ∧ length (ws_bag b) = Z.to_nat (size b) ∧
  shape (boundary b) = shape (ws_bag b) ∧
  ∀ i j, cell (ws_bag b) i j = (λ v, 3 * v)%Z <$> cell (boundary b) i j.
Proof.
  unfold init_bag. cbv zeta. case_decide; [|done].
  intros Hbags%mapM_Some Hz.
  pose proof (Forall2_length _ _ _ Hbags) as Hlen. rewrite length_seq in Hlen.
  destruct (Forall2_lookup_r _ _ _ _ _ Hbags Hz) as (z' & Hz' & Hinit).
  destruct (init_slice_canvas _ _ _ _ _ _ _ Hinit)
    as (Hsize & _ & _ & Hbr & Hbl & Hwr & Hwl & Hcells).
  split; [by apply (boundary_only_empty b 3)|]. split; [done|].
  split; [by rewrite Hsize|]. split; [done|]. split; [done|].
  split; [apply (shape_rect_eq (Z.to_nat (size b))); congruence|done].
Qed.

(** The slices of a bag of half width 5 and thickness 1: the slices 1 to
    10 are [empty_bag]. *)
Definition new_bag : list Bag :=
  Eval vm_compute in default [] (init_bag (Some 12%Z) 12 5 1 None).

Lemma init_bag_empty_container_witness :
  empty_container empty_bag ∧
  size empty_bag = Z.max (2 * 5 + 2 * 1) 12 ∧ length new_bag = Z.to_nat (size empty_bag) ∧
  rect (Z.to_nat (size empty_bag)) (ws_bag empty_bag) ∧
  length (ws_bag empty_bag) = Z.to_nat (size empty_bag) ∧
  shape (boundary empty_bag) = shape (ws_bag empty_bag) ∧
  ∀ i j, cell (ws_bag empty_bag) i j = (λ v, 3 * v)%Z <$> cell (boundary empty_bag) i j.
Proof.
  apply (init_bag_empty_container (Some 12%Z) 12 5 1 None new_bag 6 empty_bag).
  - vm_compute. reflexivity.
  - vm_compute. reflexivity.
Defined.
